(** * toil: bounded-concurrency Transform and Reduce

    A verification development for the Go package [toil].  The two engines,
    [ParallelTransform] and [ParallelReduce], are goroutine programs; each is
    embedded as an executable interleaving semantics: a state record holding
    the shared memory (result buffer, error latch, channel contents) and the
    program counter of every goroutine, and a deterministic [step] function
    that fires one atomic action of the goroutine picked by a [choice].  A
    schedule is a list of choices; every statement about "the call" is a
    statement about all schedules.

    Part I holds the definitions, Part II the theorems. *)

From Stdlib Require Import ZArith Lia List ZifyNat.
From stdpp Require Import base tactics option list strings.

Open Scope nat_scope.

(* ===================================================================== *)
(** * Part I: definitions                                                  *)
(* ===================================================================== *)

(** ** options.go *)

Record Options := mkOptions { workers : Z; stopOnError : bool }.

(** [Options{}]: Go's zero value of the struct. *)
Definition emptyOptions : Options := {| workers := 0; stopOnError := false |}.

Definition WithWorkers (o : Options) (n : Z) : Options :=
  {| workers := n; stopOnError := stopOnError o |}.

Definition StopOnError (o : Options) (b : bool) : Options :=
  {| workers := workers o; stopOnError := b |}.

(** [if opts.workers <= 0 { opts.workers = runtime.NumCPU() }], the first
    thing both engines do.  [numCPU] stands for [runtime.NumCPU()]. *)
Definition effectiveWorkers (numCPU : Z) (o : Options) : nat :=
  Z.to_nat (if (workers o <=? 0)%Z then numCPU else workers o).

(** [atomic.Pointer[error].CompareAndSwap(nil, &err)]: the first write wins. *)
Definition compareAndSwap {Err : Type} (cur : option Err) (e : Err) : option Err :=
  match cur with
  | None => Some e
  | Some _ => cur
  end.

(** ** ParallelTransform (worker pool over a buffered job channel) *)

Module ParallelTransform.

(** Who moves next: the calling goroutine, worker [j] of the pool, or one of
    the anonymous goroutines that drain the channel after a failure. *)
Inductive choice := CMain | CWorker (j : nat) | CDrain.

Section Model.
Context {I O Err : Type}.
Variable zero : O.
Variable numCPU : Z.
Variable v : list I.
Variable f : I → O * option Err.
Variable opts : Options.

Record transformJob := mkJob { item : I; index : nat }.

(** Program counter of a pool worker:
    [WRecv] is blocked on, or about to execute, [for job := range jobs];
    [WCall job] is inside [f(job.item)];
    [WWrite idx r] is about to execute [results[idx] = r];
    [WDone] has returned (its deferred [wg.Done()] has run). *)
Inductive worker :=
| WRecv
| WCall (job : transformJob)
| WWrite (idx : nat) (result : O)
| WDone.

(** Program counter of the caller: in the spawn loop with counter [i], in
    the send loop with counter [k], in [wg.Wait()], or returned. *)
Inductive pc :=
| MSpawn (i : nat)
| MSend (k : nat)
| MWait
| MRet (out : option (list O)) (err : option Err).

(** [started] and [failed] are history variables: the indices on which [f]
    was invoked, in the order in which the workers took their jobs from the
    channel, and the (index, error) pairs of
    the invocations that returned an error, in the order in which they
    reached the latch. *)
Record state := mkState {
  main : pc;
  pool : list worker;
  jobs : list transformJob;
  closed : bool;
  drainers : nat;
  results : list O;
  firstErr : option Err;
  started : list nat;
  failed : list (nat * Err)
}.

Definition nworkers : nat := effectiveWorkers numCPU opts.

Definition is_done (w : worker) : bool :=
  match w with WDone => true | _ => false end.

Definition in_call (w : worker) : bool :=
  match w with WCall _ => true | _ => false end.

(** Number of invocations of [f] executing in a state. *)
Definition inflight (s : state) : nat :=
  sum_list_with (λ w, Nat.b2n (in_call w)) (pool s).

(** State on entry, after [results := make([]O, len(v))] and the early
    return for an empty input. *)
Definition init : state :=
  {| main := match v with [] => MRet (Some []) None | _ :: _ => MSpawn 0 end;
     pool := []; jobs := []; closed := false; drainers := 0;
     results := replicate (length v) zero;
     firstErr := None; started := []; failed := [] |}.

(** The final [if errPtr := firstErr.Load(); errPtr != nil { ... }]. *)
Definition conclude (s : state) : pc :=
  match firstErr s with
  | Some e => if stopOnError opts then MRet None (Some e)
              else MRet (Some (results s)) (Some e)
  | None => MRet (Some (results s)) None
  end.

Definition step_main (s : state) : option state :=
  match main s with
  | MSpawn i =>
      if i <? nworkers
      then Some {| main := MSpawn (S i); pool := pool s ++ [WRecv];
                   jobs := jobs s; closed := closed s; drainers := drainers s;
                   results := results s; firstErr := firstErr s;
                   started := started s; failed := failed s |}
      else Some {| main := MSend 0; pool := pool s;
                   jobs := jobs s; closed := closed s; drainers := drainers s;
                   results := results s; firstErr := firstErr s;
                   started := started s; failed := failed s |}
  | MSend k =>
      match v !! k with
      | Some x =>
          Some {| main := MSend (S k); pool := pool s;
                  jobs := jobs s ++ [mkJob x k]; closed := closed s;
                  drainers := drainers s; results := results s;
                  firstErr := firstErr s;
                  started := started s; failed := failed s |}
      | None =>
          Some {| main := MWait; pool := pool s;
                  jobs := jobs s; closed := true; drainers := drainers s;
                  results := results s; firstErr := firstErr s;
                  started := started s; failed := failed s |}
      end
  | MWait =>
      if forallb is_done (pool s)
      then Some {| main := conclude s; pool := pool s;
                   jobs := jobs s; closed := closed s; drainers := drainers s;
                   results := results s; firstErr := firstErr s;
                   started := started s; failed := failed s |}
      else None
  | MRet _ _ => None
  end.

(** One step of worker [j].  Two groups of actions of the source are one
    step each: the receive from [jobs] with the entry into [f]; and, in
    fail-fast mode, the failing return of [f] with the latch, the start of
    the draining goroutine and the return of the worker.  What the call
    returns, which elements are invoked and upper bounds on the calls in
    progress do not depend on it; the order in which the calls of different
    workers begin, and the states between the actions of a group, are not
    represented. *)
Definition step_worker (j : nat) (s : state) : option state :=
  match pool s !! j with
  | Some WRecv =>
      match jobs s with
      | job :: rest =>
          Some {| main := main s; pool := <[j := WCall job]> (pool s);
                  jobs := rest; closed := closed s; drainers := drainers s;
                  results := results s; firstErr := firstErr s;
                  started := started s ++ [index job]; failed := failed s |}
      | [] =>
          if closed s
          then Some {| main := main s; pool := <[j := WDone]> (pool s);
                       jobs := []; closed := closed s; drainers := drainers s;
                       results := results s; firstErr := firstErr s;
                       started := started s; failed := failed s |}
          else None
      end
  | Some (WCall job) =>
      match f (item job) with
      | (result, Some e) =>
          if stopOnError opts
          then Some {| main := main s; pool := <[j := WDone]> (pool s);
                       jobs := jobs s; closed := closed s;
                       drainers := S (drainers s);
                       results := results s;
                       firstErr := compareAndSwap (firstErr s) e;
                       started := started s;
                       failed := failed s ++ [(index job, e)] |}
          else Some {| main := main s;
                       pool := <[j := WWrite (index job) result]> (pool s);
                       jobs := jobs s; closed := closed s;
                       drainers := drainers s;
                       results := results s;
                       firstErr := compareAndSwap (firstErr s) e;
                       started := started s;
                       failed := failed s ++ [(index job, e)] |}
      | (result, None) =>
          Some {| main := main s;
                  pool := <[j := WWrite (index job) result]> (pool s);
                  jobs := jobs s; closed := closed s; drainers := drainers s;
                  results := results s; firstErr := firstErr s;
                  started := started s; failed := failed s |}
      end
  | Some (WWrite idx result) =>
      Some {| main := main s; pool := <[j := WRecv]> (pool s);
              jobs := jobs s; closed := closed s; drainers := drainers s;
              results := <[idx := result]> (results s);
              firstErr := firstErr s;
              started := started s; failed := failed s |}
  | Some WDone => None
  | None => None
  end.

(** [go func() { for range jobs {} }()] *)
Definition step_drain (s : state) : option state :=
  match drainers s with
  | 0 => None
  | S d =>
      match jobs s with
      | _ :: rest =>
          Some {| main := main s; pool := pool s;
                  jobs := rest; closed := closed s; drainers := drainers s;
                  results := results s; firstErr := firstErr s;
                  started := started s; failed := failed s |}
      | [] =>
          if closed s
          then Some {| main := main s; pool := pool s;
                       jobs := []; closed := closed s; drainers := d;
                       results := results s; firstErr := firstErr s;
                       started := started s; failed := failed s |}
          else None
      end
  end.

Definition step (c : choice) (s : state) : option state :=
  match c with
  | CMain => step_main s
  | CWorker j => step_worker j s
  | CDrain => step_drain s
  end.

(** Run a schedule; [None] when it picks a goroutine that cannot move. *)
Fixpoint run (sched : list choice) (s : state) : option state :=
  match sched with
  | [] => Some s
  | c :: rest =>
      match step c s with
      | Some s' => run rest s'
      | None => None
      end
  end.

Definition returned (s : state) : Prop :=
  match main s with MRet _ _ => True | _ => False end.

(** A scheduler, to execute the model without writing a schedule by hand:
    [pick] names the first goroutine that can move, among the caller, the
    workers in order and the drainers; [plan] is the schedule it yields. *)
Fixpoint first_worker (j n : nat) (s : state) : option nat :=
  match n with
  | 0 => None
  | S n' =>
      match step_worker j s with
      | Some _ => Some j
      | None => first_worker (S j) n' s
      end
  end.

Definition pick (s : state) : option choice :=
  match step_main s with
  | Some _ => Some CMain
  | None =>
      match first_worker 0 (length (pool s)) s with
      | Some j => Some (CWorker j)
      | None =>
          match step_drain s with
          | Some _ => Some CDrain
          | None => None
          end
      end
  end.

Fixpoint plan (fuel : nat) (s : state) : list choice :=
  match fuel with
  | 0 => []
  | S fuel' =>
      match pick s with
      | Some c =>
          match step c s with
          | Some s' => c :: plan fuel' s'
          | None => []
          end
      | None => []
      end
  end.

(** Termination measure: an upper bound on the number of steps left. *)
Definition worker_cost (w : worker) : nat :=
  match w with
  | WRecv => 1
  | WCall _ => 3
  | WWrite _ _ => 2
  | WDone => 0
  end.

Definition main_cost (m : pc) : nat :=
  match m with
  | MSpawn i => 2 * (nworkers - i) + 4 * length v + 3
  | MSend k => 4 * (length v - k) + 2
  | MWait => 1
  | MRet _ _ => 0
  end.

Definition cost (s : state) : nat :=
  main_cost (main s) + sum_list_with worker_cost (pool s)
  + 3 * length (jobs s) + drainers s.

(** *** The invariant of the worker pool *)

(** A job carries the element found at its index. *)
Definition job_ok (job : transformJob) : Prop :=
  v !! index job = Some (item job).

(** A worker past its call holds what [f] returned for its index; in
    fail-fast mode it only gets there when [f] returned no error. *)
Definition worker_ok (w : worker) : Prop :=
  match w with
  | WCall job => job_ok job
  | WWrite idx r =>
      ∃ x, v !! idx = Some x ∧ r = fst (f x)
           ∧ (stopOnError opts = true → snd (f x) = None)
  | _ => True
  end.

(** Number of jobs the caller has put on the channel. *)
Definition sent (s : state) : nat :=
  match main s with
  | MSpawn _ => 0
  | MSend k => k
  | _ => length v
  end.

(** Where the job of index [i] is: still queued, being computed, computed
    (and its error, if any, latched), or given up after a latched error in
    fail-fast mode. *)
Definition settled (s : state) (i : nat) (x : I) : Prop :=
  mkJob x i ∈ jobs s
  ∨ WCall (mkJob x i) ∈ pool s
  ∨ ((WWrite i (fst (f x)) ∈ pool s ∨ results s !! i = Some (fst (f x)))
     ∧ (is_Some (snd (f x)) → is_Some (firstErr s)))
  ∨ (stopOnError opts = true ∧ is_Some (firstErr s)).

Definition failed_ok (p : nat * Err) : Prop :=
  ∃ x, v !! p.1 = Some x ∧ snd (f x) = Some p.2.

(** What the caller gets back. *)
Definition post (out : option (list O)) (err : option Err) : Prop :=
  match err with
  | None => out = Some ((λ x, fst (f x)) <$> v) ∧ Forall (λ x, snd (f x) = None) v
  | Some e =>
      (∃ x, x ∈ v ∧ snd (f x) = Some e)
      ∧ out = if stopOnError opts then None else Some ((λ x, fst (f x)) <$> v)
  end.

Record running (s : state) : Prop := mkRunning {
  run_len : length (results s) = length v;
  run_jobs : Forall job_ok (jobs s);
  run_pool : Forall worker_ok (pool s);
  run_size : match main s with
             | MSpawn i => length (pool s) = i
             | _ => length (pool s) = nworkers
             end;
  run_closed : closed s = match main s with MWait => true | _ => false end;
  run_sent : sent s ≤ length v;
  run_settled : ∀ i x, i < sent s → v !! i = Some x → settled s i x;
  run_exit : WDone ∈ pool s →
             (stopOnError opts = true ∧ is_Some (firstErr s))
             ∨ (closed s = true ∧ jobs s = []);
  run_drain : 0 < drainers s → stopOnError opts = true ∧ is_Some (firstErr s)
}.

Record inv (s : state) : Prop := mkInv {
  inv_latch : firstErr s = snd <$> head (failed s);
  inv_failed : Forall failed_ok (failed s);
  inv_bound : length (pool s) ≤ nworkers;
  inv_main : match main s with
             | MRet out err =>
                 Forall (λ w, w = WDone) (pool s) ∧ err = firstErr s ∧ post out err
             | _ => running s
             end
}.

(** *** The order of the invocations *)

(** No error is in the way: the policy is continue, or nothing is latched. *)
Definition unlatched (s : state) : Prop :=
  stopOnError opts = false ∨ firstErr s = None.

(** The channel is first-in first-out and the caller sends the jobs in index
    order, so the indices on which [f] was invoked, followed by the indices
    still queued, are what is left of [0, 1, ..., sent - 1] once the
    drained jobs are taken out; nothing is drained while no error is in the
    way. *)
Record in_order (s : state) : Prop := mkInOrder {
  ord_sub : started s ++ (index <$> jobs s) `sublist_of` seq 0 (sent s);
  ord_all : unlatched s →
            started s ++ (index <$> jobs s) = seq 0 (sent s) ∧ drainers s = 0;
  ord_ret : unlatched s → returned s → jobs s = []
}.

(** *** Failing workers *)

(** Number of pool workers that have returned. *)
Definition retired (s : state) : nat :=
  sum_list_with (λ w, Nat.b2n (is_done w)) (pool s).

(** In fail-fast mode the failure branch ends with the return of the
    worker and starts one draining goroutine on the way; the branch being
    one step, the invocations that went through it are no more than the
    workers that have returned. *)
Definition fail_once (s : state) : Prop :=
  stopOnError opts = true →
  length (failed s) ≤ retired s ∧ drainers s ≤ length (failed s).

(** *** One worker *)

(** The failing elements among the indices [l], with their errors, in the
    order of [l]. *)
Definition failures (l : list nat) : list (nat * Err) :=
  omap (λ i, match v !! i with
             | Some x => match snd (f x) with
                         | Some e => Some (i, e)
                         | None => None
                         end
             | None => None
             end) l.

(** The indices on which [f] is executing. *)
Definition calling (s : state) : list nat :=
  omap (λ w, match w with WCall job => Some (index job) | _ => None end)
       (pool s).

(** With a single worker the calls are made one after the other in index
    order, the failures are recorded in that order, and in fail-fast mode
    the first failure is the last call. *)
Record sequential (s : state) : Prop := mkSequential {
  sq_prefix : started s = seq 0 (length (started s));
  sq_failed : ∃ finished, started s = finished ++ calling s
                          ∧ failed s = failures finished;
  sq_stop : stopOnError opts = true →
            failed s = []
            ∨ ∃ i e, failed s = [(i, e)] ∧ last (started s) = Some i
                     ∧ pool s = [WDone]
}.

End Model.
End ParallelTransform.

(** ** ParallelReduce (rounds of pairwise combination behind a semaphore) *)

Module ParallelReduce.

(** Who moves next: the calling goroutine, or goroutine [j] of the round. *)
Inductive choice := CMain | CGo (j : nat).

Section Model.
Context {T Err : Type}.
Variable zero : T.
Variable numCPU : Z.
Variable v : list T.
Variable f : T → T → T * option Err.
Variable opts : Options.

(** Program counter of a goroutine started by [go func(a, b T, resultIndex int)]:
    [GCall a b k] is inside [f(a, b)];
    [GWrite k res] is about to execute [next[k] = res];
    [GRelease] is about to run the deferred [<-sem];
    [GFinish] is about to run the deferred [wg.Done()];
    [GGone] has ended. *)
Inductive goroutine :=
| GCall (a b : T) (resultIndex : nat)
| GWrite (resultIndex : nat) (res : T)
| GRelease
| GFinish
| GGone.

(** Program counter of the caller: at the loop test [len(items) > 1], in
    the spawn loop with counter [i], at the odd-element copy, in
    [wg.Wait()], or returned. *)
Inductive pc :=
| RHead
| RSpawn (i : nat)
| ROdd
| RWait
| RRet (res : T) (err : option Err).

(** [sem] is the number of tokens in the semaphore channel; [round]
    counts the rounds begun and [calls] lists the argument pairs [f] was
    invoked on (history variables). *)
Record state := mkState {
  main : pc;
  items : list T;
  next : list T;
  firstErr : option Err;
  sem : nat;
  gs : list goroutine;
  round : nat;
  calls : list (T * T)
}.

Definition nworkers : nat := effectiveWorkers numCPU opts.

Definition is_gone (g : goroutine) : bool :=
  match g with GGone => true | _ => false end.

Definition in_call (g : goroutine) : bool :=
  match g with GCall _ _ _ => true | _ => false end.

(** Number of invocations of [f] executing in a state. *)
Definition inflight (s : state) : nat :=
  sum_list_with (λ g, Nat.b2n (in_call g)) (gs s).

(** State after the two early returns [n == 0] and [n == 1]. *)
Definition init : state :=
  {| main := match v with
             | [] => RRet zero None
             | [x] => RRet x None
             | _ :: _ :: _ => RHead
             end;
     items := v; next := []; firstErr := None; sem := 0; gs := [];
     round := 0; calls := [] |}.

Definition step_main (s : state) : option state :=
  match main s with
  | RHead =>
      match items s with
      | _ :: _ :: _ =>
          Some {| main := RSpawn 0; items := items s;
                  next := replicate ((length (items s) + 1) / 2) zero;
                  firstErr := None; sem := 0; gs := [];
                  round := S (round s); calls := calls s |}
      | [x] =>
          Some {| main := RRet x None; items := items s; next := next s;
                  firstErr := firstErr s; sem := sem s; gs := gs s;
                  round := round s; calls := calls s |}
      | [] => None
      end
  | RSpawn i =>
      if S i <? length (items s)
      then
        if sem s <? nworkers
        then
          match items s !! i, items s !! S i with
          | Some a, Some b =>
              Some {| main := RSpawn (i + 2); items := items s;
                      next := next s; firstErr := firstErr s;
                      sem := S (sem s);
                      gs := gs s ++ [GCall a b (i / 2)];
                      round := round s; calls := calls s ++ [(a, b)] |}
          | _, _ => None
          end
        else None
      else
        Some {| main := ROdd; items := items s; next := next s;
                firstErr := firstErr s; sem := sem s; gs := gs s;
                round := round s; calls := calls s |}
  | ROdd =>
      if length (items s) mod 2 =? 1
      then
        match items s !! (length (items s) - 1) with
        | Some x =>
            Some {| main := RWait; items := items s;
                    next := <[(length (items s) + 1) / 2 - 1 := x]> (next s);
                    firstErr := firstErr s; sem := sem s; gs := gs s;
                    round := round s; calls := calls s |}
        | None => None
        end
      else
        Some {| main := RWait; items := items s; next := next s;
                firstErr := firstErr s; sem := sem s; gs := gs s;
                round := round s; calls := calls s |}
  | RWait =>
      if forallb is_gone (gs s)
      then
        match firstErr s with
        | Some e =>
            Some {| main := RRet zero (Some e); items := items s;
                    next := next s; firstErr := firstErr s; sem := sem s;
                    gs := gs s; round := round s; calls := calls s |}
        | None =>
            Some {| main := RHead; items := next s; next := next s;
                    firstErr := firstErr s; sem := sem s; gs := gs s;
                    round := round s; calls := calls s |}
        end
      else None
  | RRet _ _ => None
  end.

Definition step_go (j : nat) (s : state) : option state :=
  match gs s !! j with
  | Some (GCall a b k) =>
      match f a b with
      | (res, Some e) =>
          Some {| main := main s; items := items s; next := next s;
                  firstErr := compareAndSwap (firstErr s) e; sem := sem s;
                  gs := <[j := GWrite k res]> (gs s);
                  round := round s; calls := calls s |}
      | (res, None) =>
          Some {| main := main s; items := items s; next := next s;
                  firstErr := firstErr s; sem := sem s;
                  gs := <[j := GWrite k res]> (gs s);
                  round := round s; calls := calls s |}
      end
  | Some (GWrite k res) =>
      Some {| main := main s; items := items s;
              next := <[k := res]> (next s);
              firstErr := firstErr s; sem := sem s;
              gs := <[j := GRelease]> (gs s);
              round := round s; calls := calls s |}
  | Some GRelease =>
      Some {| main := main s; items := items s; next := next s;
              firstErr := firstErr s; sem := pred (sem s);
              gs := <[j := GFinish]> (gs s);
              round := round s; calls := calls s |}
  | Some GFinish =>
      Some {| main := main s; items := items s; next := next s;
              firstErr := firstErr s; sem := sem s;
              gs := <[j := GGone]> (gs s);
              round := round s; calls := calls s |}
  | Some GGone => None
  | None => None
  end.

Definition step (c : choice) (s : state) : option state :=
  match c with
  | CMain => step_main s
  | CGo j => step_go j s
  end.

(** Run a schedule; [None] when it picks a goroutine that cannot move. *)
Fixpoint run (sched : list choice) (s : state) : option state :=
  match sched with
  | [] => Some s
  | c :: rest =>
      match step c s with
      | Some s' => run rest s'
      | None => None
      end
  end.

Definition returned (s : state) : Prop :=
  match main s with RRet _ _ => True | _ => False end.

(** A scheduler: [pick] names the first goroutine that can move, the
    caller first; [plan] is the schedule it yields. *)
Fixpoint first_go (j n : nat) (s : state) : option nat :=
  match n with
  | 0 => None
  | S n' =>
      match step_go j s with
      | Some _ => Some j
      | None => first_go (S j) n' s
      end
  end.

Definition pick (s : state) : option choice :=
  match step_main s with
  | Some _ => Some CMain
  | None =>
      match first_go 0 (length (gs s)) s with
      | Some j => Some (CGo j)
      | None => None
      end
  end.

Fixpoint plan (fuel : nat) (s : state) : list choice :=
  match fuel with
  | 0 => []
  | S fuel' =>
      match pick s with
      | Some c =>
          match step c s with
          | Some s' => c :: plan fuel' s'
          | None => []
          end
      | None => []
      end
  end.

(** Termination measure: an upper bound on the number of steps left. *)
Definition go_cost (g : goroutine) : nat :=
  match g with
  | GCall _ _ _ => 4
  | GWrite _ _ => 3
  | GRelease => 2
  | GFinish => 1
  | GGone => 0
  end.

Definition head_cost (m : nat) : nat := 20 * m + 1.

Definition main_cost (s : state) : nat :=
  match main s with
  | RHead => head_cost (length (items s))
  | RSpawn i => 3 * (length (items s) - i) + 3 + head_cost (length (next s))
  | ROdd => 2 + head_cost (length (next s))
  | RWait => 1 + head_cost (length (next s))
  | RRet _ _ => 0
  end.

Definition cost (s : state) : nat :=
  main_cost s + sum_list_with go_cost (gs s).

(** What one round computes, and what the whole call computes, written
    as plain list functions, to compare the engine with. *)
Definition op (a b : T) : T := fst (f a b).

Fixpoint pairwise (l : list T) : list T :=
  match l with
  | a :: b :: rest => op a b :: pairwise rest
  | _ => l
  end.

Definition fold1 (l : list T) : T :=
  match l with
  | [] => zero
  | x :: xs => fold_left op xs x
  end.

(** *** The invariant of a round *)

(** Tokens a goroutine holds in the semaphore channel. *)
Definition holds (g : goroutine) : nat :=
  match g with
  | GCall _ _ _ | GWrite _ _ | GRelease => 1
  | GFinish | GGone => 0
  end.

(** Number of pairs the caller has started in the current round. *)
Definition spawned (s : state) : nat :=
  match main s with
  | RSpawn i => i / 2
  | ROdd | RWait => length (items s) / 2
  | _ => 0
  end.

(** The [k]-th goroutine of a round works on the [k]-th adjacent pair and
    writes to slot [k]. *)
Definition go_ok (s : state) (k : nat) (g : goroutine) : Prop :=
  ∃ a b, items s !! (2 * k) = Some a ∧ items s !! (2 * k + 1) = Some b ∧
    match g with
    | GCall a' b' k' => a' = a ∧ b' = b ∧ k' = k
    | GWrite k' r =>
        k' = k ∧ r = op a b ∧ (is_Some (snd (f a b)) → is_Some (firstErr s))
    | _ =>
        next s !! k = Some (op a b)
        ∧ (is_Some (snd (f a b)) → is_Some (firstErr s))
    end.

Record in_round (s : state) : Prop := mkInRound {
  rnd_items : 2 ≤ length (items s);
  rnd_next : length (next s) = (length (items s) + 1) / 2;
  rnd_even : match main s with
             | RSpawn i => i mod 2 = 0 ∧ i ≤ length (items s)
             | _ => True
             end;
  rnd_count : length (gs s) = spawned s;
  rnd_go : ∀ k g, gs s !! k = Some g → go_ok s k g;
  rnd_sem : sem s = sum_list_with holds (gs s) ∧ sem s ≤ nworkers;
  rnd_latch : ∀ e, firstErr s = Some e →
              ∃ k a b, items s !! (2 * k) = Some a
                       ∧ items s !! (2 * k + 1) = Some b
                       ∧ snd (f a b) = Some e;
  rnd_odd : main s = RWait → length (items s) mod 2 = 1 →
            next s !! (length (items s) / 2)
            = items s !! (length (items s) - 1)
}.

(** Between rounds and after the return no goroutine is left. *)
Definition inv (s : state) : Prop :=
  match main s with
  | RHead => 1 ≤ length (items s) ∧ Forall (λ g, g = GGone) (gs s)
  | RRet res err => Forall (λ g, g = GGone) (gs s)
  | _ => in_round s
  end.

(** The elements still to combine fold to the same value as the input
    (used for an [f] that never fails). *)
Definition tracks (s : state) : Prop :=
  match main s with
  | RRet res err => res = fold1 v ∧ err = None
  | RHead => fold1 (items s) = fold1 v
  | _ => fold1 (items s) = fold1 v ∧ firstErr s = None
  end.

(** The latch holds [e]: the round is the last one, and the call can only
    return the zero value with [e]. *)
Definition latched (e : Err) (s : state) : Prop :=
  firstErr s = Some e ∧
  match main s with
  | RHead => False
  | RRet res err => res = zero ∧ err = Some e
  | _ => True
  end.

(** *** The loop as a list function *)

(** [for len(items) > 1 { items = next }] with [next = pairwise items]; the
    fuel bounds the number of rounds. *)
Fixpoint rounds_of (fuel : nat) (l : list T) : list T :=
  match fuel with
  | 0 => l
  | S fuel' =>
      match l with
      | _ :: _ :: _ => rounds_of fuel' (pairwise l)
      | _ => l
      end
  end.

(** The value of the balanced combination tree over [l]. *)
Definition tree (l : list T) : T :=
  match rounds_of (length l) l with
  | x :: _ => x
  | [] => zero
  end.

Definition tracks_tree (s : state) : Prop :=
  match main s with
  | RRet res err => res = tree v ∧ err = None
  | RHead => tree (items s) = tree v
  | _ => tree (items s) = tree v ∧ firstErr s = None
  end.

(** *** Counting invocations and rounds *)

(** Every invocation removes one element: the invocations made so far and
    the elements still to combine add up to the length of the input. *)
Definition counted (s : state) : Prop :=
  match main s with
  | RHead => length (calls s) + length (items s) = length v
  | RRet _ err =>
      length (calls s) ≤ length v - 1
      ∧ (err = None → length (calls s) = length v - 1)
  | _ => length (calls s) + length (items s) = length v + spawned s
  end.

(** After [r] rounds, [ceil (N / 2^r)] elements are left. *)
Definition halved (s : state) : Prop :=
  match main s with
  | RHead =>
      (length (items s) - 1) * 2 ^ round s < length v
      ∧ length v ≤ length (items s) * 2 ^ round s
      ∧ 2 ^ (round s - 1) < length v
  | RRet _ err =>
      (2 ≤ length v → 2 ^ (round s - 1) < length v)
      ∧ (err = None → length v ≤ 2 ^ round s)
  | _ =>
      1 ≤ round s
      ∧ (length (items s) - 1) * 2 ^ (round s - 1) < length v
      ∧ length v ≤ length (items s) * 2 ^ (round s - 1)
  end.

(** The call is in its first round, or has returned an error from it. *)
Definition first_round (s : state) : Prop :=
  match main s with
  | RHead => round s = 0 ∧ items s = v
  | RRet res err =>
      round s = 1 ∧ res = zero
      ∧ ∃ k a b e, err = Some e ∧ v !! (2 * k) = Some a
                   ∧ v !! (2 * k + 1) = Some b ∧ snd (f a b) = Some e
  | _ => round s = 1 ∧ items s = v
  end.

End Model.
End ParallelReduce.

(** ** ParallelReduce, the variant of reduce.go (mutex and append)

    The file reduce.go holds an earlier body of [ParallelReduce]: the round
    buffer starts empty and every goroutine appends its result under a
    mutex, so the buffer is filled in completion order.  Only its step
    function is needed here, to run it on a schedule. *)

Module ParallelReduceMutex.

Inductive choice := CMain | CGo (j : nat).

Section Model.
Context {T Err : Type}.
Variable zero : T.
Variable numCPU : Z.
Variable v : list T.
Variable f : T → T → T * option Err.
Variable opts : Options.

(** [GCall a b] is inside [f(a, b)] or waiting for the mutex; [GRelease]
    is about to execute [<-sem]; [GFinish] is about to run the deferred
    [wg.Done()]. *)
Inductive goroutine :=
| GCall (a b : T)
| GRelease
| GFinish
| GGone.

Inductive pc :=
| RHead
| RSpawn (i : nat)
| ROdd
| RWait
| RRet (res : T) (err : option Err).

Record state := mkState {
  main : pc;
  items : list T;
  next : list T;
  err : option Err;
  sem : nat;
  gs : list goroutine
}.

Definition nworkers : nat := effectiveWorkers numCPU opts.

Definition is_gone (g : goroutine) : bool :=
  match g with GGone => true | _ => false end.

Definition init : state :=
  {| main := match v with
             | [] => RRet zero None
             | [x] => RRet x None
             | _ :: _ :: _ => RHead
             end;
     items := v; next := []; err := None; sem := 0; gs := [] |}.

Definition step_main (s : state) : option state :=
  match main s with
  | RHead =>
      match items s with
      | _ :: _ :: _ =>
          Some {| main := RSpawn 0; items := items s; next := [];
                  err := None; sem := 0; gs := [] |}
      | [x] =>
          Some {| main := RRet x None; items := items s; next := next s;
                  err := err s; sem := sem s; gs := gs s |}
      | [] => None
      end
  | RSpawn i =>
      if S i <? length (items s)
      then
        if sem s <? nworkers
        then
          match items s !! i, items s !! S i with
          | Some a, Some b =>
              Some {| main := RSpawn (i + 2); items := items s;
                      next := next s; err := err s; sem := S (sem s);
                      gs := gs s ++ [GCall a b] |}
          | _, _ => None
          end
        else None
      else
        Some {| main := ROdd; items := items s; next := next s;
                err := err s; sem := sem s; gs := gs s |}
  | ROdd =>
      if length (items s) mod 2 =? 1
      then
        match items s !! (length (items s) - 1) with
        | Some x =>
            Some {| main := RWait; items := items s;
                    next := next s ++ [x];
                    err := err s; sem := sem s; gs := gs s |}
        | None => None
        end
      else
        Some {| main := RWait; items := items s; next := next s;
                err := err s; sem := sem s; gs := gs s |}
  | RWait =>
      if forallb is_gone (gs s)
      then
        match err s with
        | Some e =>
            Some {| main := RRet zero (Some e); items := items s;
                    next := next s; err := err s; sem := sem s;
                    gs := gs s |}
        | None =>
            Some {| main := RHead; items := next s; next := next s;
                    err := err s; sem := sem s; gs := gs s |}
        end
      else None
  | RRet _ _ => None
  end.

(** The critical section [mu.Lock(); if e != nil && err == nil { err = e };
    next = append(next, res); mu.Unlock()] is one step. *)
Definition step_go (j : nat) (s : state) : option state :=
  match gs s !! j with
  | Some (GCall a b) =>
      match f a b with
      | (res, Some e) =>
          Some {| main := main s; items := items s;
                  next := next s ++ [res];
                  err := compareAndSwap (err s) e; sem := sem s;
                  gs := <[j := GRelease]> (gs s) |}
      | (res, None) =>
          Some {| main := main s; items := items s;
                  next := next s ++ [res];
                  err := err s; sem := sem s;
                  gs := <[j := GRelease]> (gs s) |}
      end
  | Some GRelease =>
      Some {| main := main s; items := items s; next := next s;
              err := err s; sem := pred (sem s);
              gs := <[j := GFinish]> (gs s) |}
  | Some GFinish =>
      Some {| main := main s; items := items s; next := next s;
              err := err s; sem := sem s;
              gs := <[j := GGone]> (gs s) |}
  | Some GGone => None
  | None => None
  end.

Definition step (c : choice) (s : state) : option state :=
  match c with
  | CMain => step_main s
  | CGo j => step_go j s
  end.

Fixpoint run (sched : list choice) (s : state) : option state :=
  match sched with
  | [] => Some s
  | c :: rest =>
      match step c s with
      | Some s' => run rest s'
      | None => None
      end
  end.

Definition returned (s : state) : Prop :=
  match main s with RRet _ _ => True | _ => False end.

Definition in_call (g : goroutine) : bool :=
  match g with GCall _ _ => true | _ => false end.

(** Number of invocations of [f] executing in a state. *)
Definition inflight (s : state) : nat :=
  sum_list_with (λ g, Nat.b2n (in_call g)) (gs s).

(** Termination measure. *)
Definition go_cost (g : goroutine) : nat :=
  match g with
  | GCall _ _ => 3
  | GRelease => 2
  | GFinish => 1
  | GGone => 0
  end.

Definition head_cost (m : nat) : nat := 20 * m + 1.

Definition main_cost (s : state) : nat :=
  match main s with
  | RHead => head_cost (length (items s))
  | RSpawn i =>
      3 * (length (items s) - i) + 3 + head_cost ((length (items s) + 1) / 2)
  | ROdd => 2 + head_cost ((length (items s) + 1) / 2)
  | RWait => 1 + head_cost ((length (items s) + 1) / 2)
  | RRet _ _ => 0
  end.

Definition cost (s : state) : nat :=
  main_cost s + sum_list_with go_cost (gs s).

(** *** The invariant of a round *)

Definition holds (g : goroutine) : nat :=
  match g with
  | GCall _ _ | GRelease => 1
  | GFinish | GGone => 0
  end.

Definition spawned (s : state) : nat :=
  match main s with
  | RSpawn i => i / 2
  | ROdd | RWait => length (items s) / 2
  | _ => 0
  end.

(** The results that the running goroutines are going to append. *)
Definition coming (l : list goroutine) : list T :=
  omap (λ g, match g with
             | GCall a b => Some (ParallelReduce.op f a b)
             | _ => None
             end) l.

(** The elements of the round the caller has not dealt with yet. *)
Definition rest (s : state) : list T :=
  match main s with
  | RSpawn i => drop i (items s)
  | ROdd => drop (2 * (length (items s) / 2)) (items s)
  | _ => []
  end.

Record in_round (s : state) : Prop := mkInRound {
  rnd_items : 2 ≤ length (items s);
  rnd_even : match main s with
             | RSpawn i => i mod 2 = 0 ∧ i ≤ length (items s)
             | _ => True
             end;
  rnd_count : length (gs s) = spawned s;
  rnd_sem : sem s = sum_list_with holds (gs s) ∧ sem s ≤ nworkers;
  rnd_go : ∀ k a b, gs s !! k = Some (GCall a b) →
           items s !! (2 * k) = Some a ∧ items s !! (2 * k + 1) = Some b;
  rnd_perm : next s ++ coming (gs s) ++ ParallelReduce.pairwise f (rest s)
             ≡ₚ ParallelReduce.pairwise f (items s);
  rnd_err : ∀ e, err s = Some e →
            ∃ k a b, items s !! (2 * k) = Some a
                     ∧ items s !! (2 * k + 1) = Some b
                     ∧ snd (f a b) = Some e
}.

Definition inv (s : state) : Prop :=
  match main s with
  | RHead => 1 ≤ length (items s) ∧ Forall (λ g, g = GGone) (gs s)
  | RRet res err => Forall (λ g, g = GGone) (gs s)
  | _ => in_round s
  end.

(** With a commutative and associative function that never fails, the
    elements still to combine fold to the same value as the input. *)
Definition tracks (s : state) : Prop :=
  match main s with
  | RRet res e => res = ParallelReduce.fold1 zero f v ∧ e = None
  | RHead => ParallelReduce.fold1 zero f (items s) = ParallelReduce.fold1 zero f v
  | _ => ParallelReduce.fold1 zero f (items s) = ParallelReduce.fold1 zero f v
         ∧ err s = None
  end.

(** An error is recorded: the round is the last one. *)
Definition latched (e : Err) (s : state) : Prop :=
  err s = Some e ∧
  match main s with
  | RHead => False
  | RRet res e' => res = zero ∧ e' = Some e
  | _ => True
  end.

End Model.
End ParallelReduceMutex.

(** ** ParallelTransform, the variant with a semaphore and an error channel

    Next to the tests of ParallelReduce, the file reduce_test.go holds an
    earlier body of [ParallelTransform]: one goroutine per element, each
    taking a token from a semaphore channel before it calls [f], and a
    buffered channel of errors that the caller reads once after
    [wg.Wait()]. *)

Module ParallelTransformSem.

Inductive choice := CMain | CGo (j : nat).

Section Model.
Context {I O Err : Type}.
Variable zero : O.
Variable numCPU : Z.
Variable v : list I.
Variable f : I → O * option Err.
Variable opts : Options.

(** Program counter of [go func(i I, index int)]:
    [GAcquire i index] is about to execute [sem <- struct{}{}];
    [GCall i index] is inside [f(i)];
    [GWrite index result] is about to execute [results[index] = result];
    [GRelease] is about to run the deferred [<-sem];
    [GFinish] is about to run the deferred [wg.Done()]. *)
Inductive goroutine :=
| GAcquire (i : I) (index : nat)
| GCall (i : I) (index : nat)
| GWrite (index : nat) (result : O)
| GRelease
| GFinish
| GGone.

(** Program counter of the caller: in the loop over the input with counter
    [n], in [wg.Wait()], or returned. *)
Inductive pc :=
| MSpawn (n : nat)
| MWait
| MRet (out : option (list O)) (err : option Err).

(** [errChan] is the content of the error channel, oldest first; [started]
    lists the indices on which [f] was invoked (a history variable). *)
Record state := mkState {
  main : pc;
  gs : list goroutine;
  sem : nat;
  errChan : list Err;
  results : list O;
  started : list nat
}.

Definition nworkers : nat := effectiveWorkers numCPU opts.

Definition is_gone (g : goroutine) : bool :=
  match g with GGone => true | _ => false end.

Definition in_call (g : goroutine) : bool :=
  match g with GCall _ _ => true | _ => false end.

Definition inflight (s : state) : nat :=
  sum_list_with (λ g, Nat.b2n (in_call g)) (gs s).

Definition init : state :=
  {| main := MSpawn 0; gs := []; sem := 0; errChan := [];
     results := replicate (length v) zero; started := [] |}.

(** [close(errChan)] followed by [select { case err := <-errChan: ...
    default: }].  A receive from a closed channel can always proceed: it
    yields the oldest error, or nil when the channel is empty, so the
    [default] branch is never taken and the first branch also runs when no
    error was sent. *)
Definition conclude (s : state) : pc :=
  if stopOnError opts then MRet None (head (errChan s))
  else MRet (Some (results s)) (head (errChan s)).

Definition step_main (s : state) : option state :=
  match main s with
  | MSpawn n =>
      match v !! n with
      | Some item =>
          Some {| main := MSpawn (S n); gs := gs s ++ [GAcquire item n];
                  sem := sem s; errChan := errChan s; results := results s;
                  started := started s |}
      | None =>
          Some {| main := MWait; gs := gs s; sem := sem s;
                  errChan := errChan s; results := results s;
                  started := started s |}
      end
  | MWait =>
      if forallb is_gone (gs s)
      then Some {| main := conclude s; gs := gs s; sem := sem s;
                   errChan := errChan s; results := results s;
                   started := started s |}
      else None
  | MRet _ _ => None
  end.

Definition step_go (j : nat) (s : state) : option state :=
  match gs s !! j with
  | Some (GAcquire i index) =>
      if sem s <? nworkers
      then Some {| main := main s; gs := <[j := GCall i index]> (gs s);
                   sem := S (sem s); errChan := errChan s;
                   results := results s; started := started s ++ [index] |}
      else None
  | Some (GCall i index) =>
      match f i with
      | (result, Some e) =>
          if stopOnError opts
          then
            (* errChan <- err; return *)
            if length (errChan s) <? length v
            then Some {| main := main s; gs := <[j := GRelease]> (gs s);
                         sem := sem s; errChan := errChan s ++ [e];
                         results := results s; started := started s |}
            else None
          else
            (* select { case errChan <- err: default: } *)
            Some {| main := main s;
                    gs := <[j := GWrite index result]> (gs s);
                    sem := sem s;
                    errChan := if length (errChan s) <? length v
                               then errChan s ++ [e] else errChan s;
                    results := results s; started := started s |}
      | (result, None) =>
          Some {| main := main s; gs := <[j := GWrite index result]> (gs s);
                  sem := sem s; errChan := errChan s; results := results s;
                  started := started s |}
      end
  | Some (GWrite index result) =>
      Some {| main := main s; gs := <[j := GRelease]> (gs s);
              sem := sem s; errChan := errChan s;
              results := <[index := result]> (results s);
              started := started s |}
  | Some GRelease =>
      Some {| main := main s; gs := <[j := GFinish]> (gs s);
              sem := pred (sem s); errChan := errChan s;
              results := results s; started := started s |}
  | Some GFinish =>
      Some {| main := main s; gs := <[j := GGone]> (gs s);
              sem := sem s; errChan := errChan s; results := results s;
              started := started s |}
  | Some GGone => None
  | None => None
  end.

Definition step (c : choice) (s : state) : option state :=
  match c with
  | CMain => step_main s
  | CGo j => step_go j s
  end.

Fixpoint run (sched : list choice) (s : state) : option state :=
  match sched with
  | [] => Some s
  | c :: rest =>
      match step c s with
      | Some s' => run rest s'
      | None => None
      end
  end.

Definition returned (s : state) : Prop :=
  match main s with MRet _ _ => True | _ => False end.

(** A scheduler: the caller first, then the first goroutine that can move. *)
Fixpoint first_go (j n : nat) (s : state) : option nat :=
  match n with
  | 0 => None
  | S n' =>
      match step_go j s with
      | Some _ => Some j
      | None => first_go (S j) n' s
      end
  end.

Definition pick (s : state) : option choice :=
  match step_main s with
  | Some _ => Some CMain
  | None =>
      match first_go 0 (length (gs s)) s with
      | Some j => Some (CGo j)
      | None => None
      end
  end.

Fixpoint plan (fuel : nat) (s : state) : list choice :=
  match fuel with
  | 0 => []
  | S fuel' =>
      match pick s with
      | Some c =>
          match step c s with
          | Some s' => c :: plan fuel' s'
          | None => []
          end
      | None => []
      end
  end.

(** Termination measure. *)
Definition go_cost (g : goroutine) : nat :=
  match g with
  | GAcquire _ _ => 5
  | GCall _ _ => 4
  | GWrite _ _ => 3
  | GRelease => 2
  | GFinish => 1
  | GGone => 0
  end.

Definition main_cost (m : pc) : nat :=
  match m with
  | MSpawn n => 6 * (length v - n) + 2
  | MWait => 1
  | MRet _ _ => 0
  end.

Definition cost (s : state) : nat :=
  main_cost (main s) + sum_list_with go_cost (gs s).

(** *** The invariant *)

Definition holds (g : goroutine) : nat :=
  match g with
  | GCall _ _ | GWrite _ _ | GRelease => 1
  | _ => 0
  end.

(** Goroutines that have not yet returned from [f]. *)
Definition before (g : goroutine) : nat :=
  match g with
  | GAcquire _ _ | GCall _ _ => 1
  | _ => 0
  end.

Definition waiting (g : goroutine) : bool :=
  match g with GAcquire _ _ => true | _ => false end.

(** Goroutine [k] works on element [k]; once it is past its call, the slot
    [k] holds or is about to hold what [f] returned, unless the policy is
    fail-fast and [f] failed, and a failure has been put on the channel. *)
Definition go_ok (s : state) (k : nat) (g : goroutine) : Prop :=
  ∃ x, v !! k = Some x ∧
    match g with
    | GAcquire i index | GCall i index => i = x ∧ index = k
    | GWrite index r =>
        index = k ∧ r = fst (f x)
        ∧ (stopOnError opts = true → snd (f x) = None)
        ∧ (is_Some (snd (f x)) → errChan s ≠ [])
    | _ =>
        (stopOnError opts = true ∧ is_Some (snd (f x))
         ∨ results s !! k = Some (fst (f x)))
        ∧ (is_Some (snd (f x)) → errChan s ≠ [])
    end.

Record running (s : state) : Prop := mkRunning {
  run_len : length (results s) = length v;
  run_count : match main s with
              | MSpawn n => length (gs s) = n
              | _ => length (gs s) = length v
              end;
  run_bound : length (gs s) ≤ length v;
  run_sem : sem s = sum_list_with holds (gs s) ∧ sem s ≤ nworkers;
  run_go : ∀ k g, gs s !! k = Some g → go_ok s k g;
  run_chan : Forall (λ e, ∃ x, x ∈ v ∧ snd (f x) = Some e) (errChan s);
  run_room : length (errChan s) + sum_list_with before (gs s) ≤ length (gs s);
  run_started : NoDup (started s);
  run_once : ∀ k, k ∈ started s ↔
                  ∃ g, gs s !! k = Some g ∧ waiting g = false
}.

(** What the caller gets back: in fail-fast mode the output is absent
    whether or not an error occurred. *)
Definition post (out : option (list O)) (err : option Err) : Prop :=
  out = (if stopOnError opts then None else Some ((λ x, fst (f x)) <$> v))
  ∧ match err with
    | None => Forall (λ x, snd (f x) = None) v
    | Some e => ∃ x, x ∈ v ∧ snd (f x) = Some e
    end.

Definition inv (s : state) : Prop :=
  match main s with
  | MRet out err =>
      Forall (λ g, g = GGone) (gs s) ∧ post out err
      ∧ started s ≡ₚ seq 0 (length v)
  | _ => running s
  end.

End Model.
End ParallelTransformSem.

(** ** Sample inputs *)

Module Samples.

(** The functions of the package's tests and README. *)
Definition double (x : Z) : Z * option string := ((x * 2)%Z, None).

Definition sum (a b : Z) : Z * option string := ((a + b)%Z, None).

Definition product (a b : Z) : Z * option string := ((a * b)%Z, None).

Definition errorOnEven (x : Z) : Z * option string :=
  if (x mod 2 =? 0)%Z then (0%Z, Some "even number error"%string)
  else ((x * 2)%Z, None).

Definition failOnTwo (a b : Z) : Z * option string :=
  if ((a =? 2) || (b =? 2))%Z then (0%Z, Some "fail on 2"%string)
  else ((a + b)%Z, None).

(** A function that hands back a value together with its error, the way
    [strconv.ParseInt] returns the nearest bound with [ErrRange]. *)
Definition clampTo100 (x : Z) : Z * option string :=
  if (100 <? x)%Z then (100%Z, Some "value out of range"%string)
  else (x, None).

(** Fails on the element 1 only. *)
Definition failOnOne (x : Z) : Z * option string :=
  if (x =? 1)%Z then (0%Z, Some "fail on 1"%string) else (x, None).

(** Subtraction, the function of the package's non-associativity test. *)
Definition difference (a b : Z) : Z * option string := ((a - b)%Z, None).

(** Concatenation: associative, not commutative. *)
Definition concat (a b : list Z) : list Z * option string := (a ++ b, None).

End Samples.

(* ===================================================================== *)
(** * Part II: theorems                                                    *)
(* ===================================================================== *)

(** Division and remainder by two stay folded under [simpl], and [lia]
    sees through them. *)
#[local] Arguments Nat.div : simpl never.
#[local] Arguments Nat.modulo : simpl never.
#[local] Arguments Nat.mul : simpl never.

Ltac Zify.zify_post_hook ::= Z.div_mod_to_equations.

(** ** Lists of goroutines *)

Section ListFacts.
Context {A : Type}.
Implicit Types (l : list A) (g h : A → nat).

Lemma sum_list_insert g l j w w' :
  l !! j = Some w →
  sum_list_with g (<[j := w']> l) + g w = sum_list_with g l + g w'.
Proof.
  revert j. induction l as [|x l IH]; intros [|j] Hj; simplify_eq/=.
  - lia.
  - specialize (IH _ Hj). lia.
Qed.

Lemma sum_list_snoc g l x :
  sum_list_with g (l ++ [x]) = sum_list_with g l + g x.
Proof. rewrite sum_list_with_app. simpl. lia. Qed.

Lemma sum_list_mono g h l :
  (∀ x, g x ≤ h x) → sum_list_with g l ≤ sum_list_with h l.
Proof.
  intros Hgh. induction l as [|x l IH]; simpl; [lia|].
  specialize (Hgh x). lia.
Qed.

Lemma sum_list_le_length g l :
  (∀ x, g x ≤ 1) → sum_list_with g l ≤ length l.
Proof.
  intros Hg. induction l as [|x l IH]; simpl; [lia|].
  specialize (Hg x). lia.
Qed.

Lemma sum_list_pos g l :
  0 < sum_list_with g l → ∃ j x, l !! j = Some x ∧ 0 < g x.
Proof.
  induction l as [|x l IH]; simpl; [lia|]. intros Hpos.
  destruct (g x) as [|n] eqn:Hx.
  - destruct IH as (j & y & Hj & Hy); [lia|]. by exists (S j), y.
  - exists 0, x. split; [done|lia].
Qed.

Lemma sum_list_zero g l :
  (∀ x, x ∈ l → g x = 0) → sum_list_with g l = 0.
Proof.
  induction l as [|x l IH]; simpl; [done|]. intros Hz.
  rewrite (Hz x), IH; [done| |]; [intros; apply Hz|]; by constructor.
Qed.

Lemma elem_of_insert_inv l j w w' : w ∈ <[j := w']> l → w = w' ∨ w ∈ l.
Proof.
  intros (k & Hk)%list_elem_of_lookup.
  destruct (decide (j = k)) as [->|Hne].
  - destruct (decide (k < length l)) as [Hlt|Hge].
    + rewrite list_lookup_insert_eq in Hk by done. left. congruence.
    + rewrite list_insert_ge in Hk by lia. right. by eapply list_elem_of_lookup_2.
  - rewrite list_lookup_insert_ne in Hk by done.
    right. by eapply list_elem_of_lookup_2.
Qed.

Lemma elem_of_insert_keep l j w w0 w' :
  w ∈ l → l !! j = Some w0 → w = w0 ∨ w ∈ <[j := w']> l.
Proof.
  intros (k & Hk)%list_elem_of_lookup Hj.
  destruct (decide (j = k)) as [->|Hne].
  - left. congruence.
  - right. apply list_elem_of_lookup. exists k.
    by rewrite list_lookup_insert_ne.
Qed.

Lemma elem_of_insert_new l j w0 w' :
  l !! j = Some w0 → w' ∈ <[j := w']> l.
Proof.
  intros Hj. apply list_elem_of_lookup. exists j.
  apply list_lookup_insert_eq. by eapply lookup_lt_Some.
Qed.

Lemma forallb_false_lookup (p : A → bool) l :
  forallb p l = false → ∃ j x, l !! j = Some x ∧ p x = false.
Proof.
  induction l as [|x l IH]; simpl; [done|].
  destruct (p x) eqn:Hx; simpl.
  - intros (j & y & Hj & Hy)%IH. by exists (S j), y.
  - intros _. by exists 0, x.
Qed.

Lemma forallb_true_elem (p : A → bool) l x :
  forallb p l = true → x ∈ l → p x = true.
Proof.
  rewrite forallb_forall. intros Hall Hx. apply Hall.
  by apply list_elem_of_In.
Qed.

Lemma Forall_insert_ok (P : A → Prop) l j w :
  Forall P l → P w → Forall P (<[j := w]> l).
Proof.
  intros Hl Hw. apply Forall_forall. intros x [->|Hx]%elem_of_insert_inv; [done|].
  by eapply Forall_forall in Hl.
Qed.
End ListFacts.

(** ** The error latch *)

Lemma cas_is_Some {Err : Type} (cur : option Err) (e : Err) :
  is_Some (compareAndSwap cur e).
Proof. destruct cur; simpl; eauto. Qed.

(** ** ParallelTransform *)

Module TransformFacts.
Import ParallelTransform.

Section Facts.
Context {I O Err : Type}.
Variable zero : O.
Variable numCPU : Z.
Variable v : list I.
Variable f : I → O * option Err.
Variable opts : Options.

(** [runtime.NumCPU()] is at least one. *)
Hypothesis host : (1 ≤ numCPU)%Z.

Local Abbreviation nworkers := (ParallelTransform.nworkers numCPU opts).
Local Abbreviation step := (ParallelTransform.step numCPU v f opts).
Local Abbreviation step_main := (ParallelTransform.step_main numCPU v opts).
Local Abbreviation step_worker := (ParallelTransform.step_worker f opts).
Local Abbreviation run := (ParallelTransform.run numCPU v f opts).
Local Abbreviation init := (ParallelTransform.init zero v).
Local Abbreviation cost := (ParallelTransform.cost numCPU v opts).
Local Abbreviation inv := (ParallelTransform.inv numCPU v f opts).
Local Abbreviation running := (ParallelTransform.running numCPU v f opts).
Local Abbreviation settled := (ParallelTransform.settled f opts).
Local Abbreviation post := (ParallelTransform.post v f opts).

Lemma pool_nworkers_pos : 1 ≤ nworkers.
Proof.
  unfold ParallelTransform.nworkers, effectiveWorkers.
  destruct (Z.leb_spec (workers opts) 0); lia.
Qed.

(** *** Schedules *)

(** An induction principle for properties of every state a schedule can
    reach from [s0]. *)
Lemma pool_run_ind (P : state → Prop) s0 :
  P s0 →
  (∀ c s s', P s → step c s = Some s' → P s') →
  ∀ sched s, run sched s0 = Some s → P s.
Proof.
  intros H0 Hstep sched. revert s0 H0.
  induction sched as [|c sched IH]; intros s0 H0 s; simpl.
  - intros [= <-]. done.
  - destruct (step c s0) as [s1|] eqn:Hc; [|done].
    apply IH. by eapply Hstep.
Qed.

(** *** Every step uses up some of the cost *)

Lemma pool_step_cost c s s' : step c s = Some s' → cost s' < cost s.
Proof.
  destruct s as [m p q cl d r e st fl].
  destruct c as [|j|]; unfold ParallelTransform.step, ParallelTransform.cost; simpl.
  - unfold ParallelTransform.step_main; simpl. destruct m as [i|k| |out err]; simpl.
    + destruct (Nat.ltb_spec i nworkers); intros [= <-]; simpl.
      * rewrite sum_list_snoc. simpl. lia.
      * lia.
    + destruct (v !! k) as [x|] eqn:Hk; intros [= <-]; simpl.
      * apply lookup_lt_Some in Hk. rewrite length_app. simpl. lia.
      * lia.
    + destruct (forallb _ _); intros [= <-]; simpl.
      unfold ParallelTransform.conclude; simpl.
      destruct e; [destruct (stopOnError opts)|]; simpl; lia.
    + done.
  - unfold ParallelTransform.step_worker; simpl.
    destruct (p !! j) as [[|job|idx res|]|] eqn:Hj; [| | |done|done].
    + destruct q as [|job rest]; [destruct cl|]; intros [= <-]; simpl.
      * pose proof (sum_list_insert worker_cost p j _ WDone Hj). simpl in *. lia.
      * pose proof (sum_list_insert worker_cost p j _ (WCall job) Hj).
        simpl in *. lia.
    + destruct (f (item job)) as [res [e'|]];
        [destruct (stopOnError opts)|]; intros [= <-]; simpl.
      * pose proof (sum_list_insert worker_cost p j _ WDone Hj). simpl in *. lia.
      * pose proof (sum_list_insert worker_cost p j _
                      (WWrite (index job) res) Hj). simpl in *. lia.
      * pose proof (sum_list_insert worker_cost p j _
                      (WWrite (index job) res) Hj). simpl in *. lia.
    + intros [= <-]; simpl.
      pose proof (sum_list_insert worker_cost p j _ WRecv Hj). simpl in *. lia.
  - unfold ParallelTransform.step_drain; simpl.
    destruct d as [|d]; [done|].
    destruct q as [|job rest]; [destruct cl|]; intros [= <-]; simpl; lia.
Qed.

Lemma pool_run_cost sched s s' :
  run sched s = Some s' → length sched + cost s' ≤ cost s.
Proof.
  revert s. induction sched as [|c sched IH]; intros s; simpl.
  - intros [= <-]. lia.
  - destruct (step c s) as [s1|] eqn:Hc; [|done].
    intros Hrun%IH. apply pool_step_cost in Hc. lia.
Qed.

(** *** The invariant holds in every reachable state *)

Lemma cas_head (fl : list (nat * Err)) cur i e :
  cur = snd <$> head fl →
  compareAndSwap cur e = snd <$> head (fl ++ [(i, e)]).
Proof. intros ->. by destruct fl. Qed.

Lemma settled_mono s s' i x :
  settled s i x →
  (mkJob x i ∈ jobs s → settled s' i x) →
  (WCall (mkJob x i) ∈ pool s → settled s' i x) →
  (WWrite i (fst (f x)) ∈ pool s →
   WWrite i (fst (f x)) ∈ pool s' ∨ results s' !! i = Some (fst (f x))) →
  (results s !! i = Some (fst (f x)) → results s' !! i = Some (fst (f x))) →
  (is_Some (firstErr s) → is_Some (firstErr s')) →
  settled s' i x.
Proof.
  intros Hs Hq Hc Hw Hr He.
  destruct Hs as [?|[?|[[[?|?] ?]|[? ?]]]]; auto.
  - right; right; left. split; [auto|]. auto.
  - right; right; left. split; [right; auto|]. auto.
  - right; right; right. auto.
Qed.

Lemma pool_inv_init : inv init.
Proof.
  pose proof pool_nworkers_pos.
  unfold ParallelTransform.init. destruct v as [|x l] eqn:Hv.
  - split; simpl; try done. lia.
  - split; simpl; try done; [lia|].
    split; unfold ParallelTransform.sent; simpl; try done; try lia.
    + by rewrite length_replicate.
    + by intros ?%elem_of_nil.
Qed.

Lemma running_worker j s s' :
  inv s → running s → step_worker j s = Some s' →
  main s' = main s ∧ running s'
  ∧ firstErr s' = (snd <$> head (failed s'))
  ∧ Forall (ParallelTransform.failed_ok v f) (failed s')
  ∧ length (pool s') = length (pool s).
Proof.
  intros [Hlatch Hfailed Hbound _]
         [Hlen Hjobs Hpool Hsize Hclosed Hsent Hset Hexit Hdrain].
  destruct s as [m p q cl d r e st fl]; simpl in *.
  unfold ParallelTransform.step_worker; simpl.
  destruct (p !! j) as [[|job|idx res|]|] eqn:Hj; [| | |done|done].
  - (* the worker receives from the channel *)
    destruct q as [|job rest]; [destruct cl; [|done]|]; intros [= <-]; simpl.
    + split; [done|]. split; [|by rewrite length_insert].
      split; simpl; try done.
      * by apply Forall_insert_ok.
      * by rewrite length_insert.
      * intros i x Hi Hx.
        eapply settled_mono; [by apply Hset|..]; simpl.
        -- by intros ?%elem_of_nil.
        -- intros Hc. right; left. simpl.
           by destruct (elem_of_insert_keep _ _ _ _ WDone Hc Hj).
        -- intros Hw. left.
           by destruct (elem_of_insert_keep _ _ _ _ WDone Hw Hj).
        -- done.
        -- done.
      * intros _. by right.
    + split; [done|]. split; [|by rewrite length_insert].
      apply Forall_cons in Hjobs as [Hjob Hrest].
      split; simpl; try done.
      * by apply Forall_insert_ok.
      * by rewrite length_insert.
      * intros i x Hi Hx.
        eapply settled_mono; [by apply Hset|..]; simpl.
        -- intros [<-|Hin]%elem_of_cons.
           ++ right; left. simpl. by eapply elem_of_insert_new.
           ++ by left.
        -- intros Hc. right; left. simpl.
           by destruct (elem_of_insert_keep _ _ _ _ (WCall job) Hc Hj).
        -- intros Hw. left.
           by destruct (elem_of_insert_keep _ _ _ _ (WCall job) Hw Hj).
        -- done.
        -- done.
      * intros [?|Hin]%elem_of_insert_inv; [done|].
        destruct (Hexit Hin) as [?|[_ ?]]; [by left|done].
  - (* the call of f returns *)
    assert (Hjob : ParallelTransform.job_ok v job).
    { eapply Forall_forall in Hpool; [|by eapply list_elem_of_lookup_2].
      exact Hpool. }
    destruct (f (item job)) as [res [e'|]] eqn:Hf;
      [destruct (stopOnError opts) eqn:Hstop|]; intros [= <-]; simpl.
    + split; [done|]. split; [|split; [by apply cas_head|split;
        [|by rewrite length_insert]]].
      * split; simpl; try done.
        -- by apply Forall_insert_ok.
        -- by rewrite length_insert.
        -- intros i x Hi Hx. right; right; right. simpl.
           split; [done|apply cas_is_Some].
        -- intros _. left. split; [done|apply cas_is_Some].
        -- intros _. split; [done|apply cas_is_Some].
      * apply Forall_app. split; [done|]. constructor; [|done].
        exists (item job). simpl. by rewrite Hf.
    + split; [done|]. split; [|split; [by apply cas_head|split;
        [|by rewrite length_insert]]].
      * split; simpl; try done.
        -- apply Forall_insert_ok; [done|]. exists (item job).
           rewrite Hf. by rewrite Hstop.
        -- by rewrite length_insert.
        -- intros i x Hi Hx.
           eapply settled_mono; [by apply Hset|..]; simpl.
           ++ intros Hq. by left.
           ++ intros Hc.
              destruct (elem_of_insert_keep _ _ _ _
                          (WWrite (index job) res) Hc Hj) as [Heq|Hin].
              ** injection Heq as <-. simpl in *.
                 right; right; left. simpl. rewrite Hf. simpl.
                 split; [left; by eapply elem_of_insert_new|].
                 intros _. apply cas_is_Some.
              ** right; left. done.
           ++ intros Hw. left.
              by destruct (elem_of_insert_keep _ _ _ _
                             (WWrite (index job) res) Hw Hj).
           ++ done.
           ++ intros _. apply cas_is_Some.
        -- intros [?|Hin]%elem_of_insert_inv; [done|].
           destruct (Hexit Hin) as [[? _]|?]; [congruence|by right].
        -- intros [? _]%Hdrain. congruence.
      * apply Forall_app. split; [done|]. constructor; [|done].
        exists (item job). simpl. by rewrite Hf.
    + split; [done|]. split; [|by rewrite length_insert].
      split; simpl; try done.
      * apply Forall_insert_ok; [done|]. exists (item job).
        rewrite Hf. done.
      * by rewrite length_insert.
      * intros i x Hi Hx.
        eapply settled_mono; [by apply Hset|..]; simpl.
        -- intros Hq. by left.
        -- intros Hc.
           destruct (elem_of_insert_keep _ _ _ _
                       (WWrite (index job) res) Hc Hj) as [Heq|Hin].
           ++ injection Heq as <-. simpl in *.
              right; right; left. simpl. rewrite Hf. simpl.
              split; [left; by eapply elem_of_insert_new|].
              by intros [? ?].
           ++ right; left. done.
        -- intros Hw. left.
           by destruct (elem_of_insert_keep _ _ _ _
                          (WWrite (index job) res) Hw Hj).
        -- done.
        -- done.
      * intros [?|Hin]%elem_of_insert_inv; [done|]. auto.
  - (* the worker stores its result *)
    intros [= <-]; simpl.
    assert (Hw : ParallelTransform.worker_ok v f opts (WWrite idx res)).
    { eapply Forall_forall in Hpool; [|by eapply list_elem_of_lookup_2].
      exact Hpool. }
    destruct Hw as (x0 & Hx0 & -> & _).
    split; [done|]. split; [|by rewrite length_insert].
    split; simpl; try done.
    + by rewrite length_insert.
    + by apply Forall_insert_ok.
    + by rewrite length_insert.
    + intros i x Hi Hx.
      eapply settled_mono; [by apply Hset|..]; simpl.
      * intros Hq. by left.
      * intros Hc. right; left. simpl.
        by destruct (elem_of_insert_keep _ _ _ _ WRecv Hc Hj).
      * intros Hw.
        destruct (elem_of_insert_keep _ _ _ _ WRecv Hw Hj) as [Heq|Hin];
          [|by left].
        injection Heq as -> Heq. right. rewrite Heq.
        apply list_lookup_insert_eq. rewrite Hlen. by eapply lookup_lt_Some.
      * intros Hr. destruct (decide (idx = i)) as [->|Hne].
        -- assert (x0 = x) as -> by congruence.
           apply list_lookup_insert_eq. rewrite Hlen. by eapply lookup_lt_Some.
        -- by rewrite list_lookup_insert_ne.
      * done.
    + intros [?|Hin]%elem_of_insert_inv; [done|]. auto.
Qed.

Lemma running_drain s s' :
  running s → ParallelTransform.step_drain s = Some s' →
  main s' = main s ∧ running s' ∧ firstErr s' = firstErr s
  ∧ failed s' = failed s ∧ pool s' = pool s.
Proof.
  intros [Hlen Hjobs Hpool Hsize Hclosed Hsent Hset Hexit Hdrain].
  destruct s as [m p q cl d r e st fl]; simpl in *.
  unfold ParallelTransform.step_drain; simpl.
  destruct d as [|d]; [done|]. destruct Hdrain as [Hstop He]; [lia|].
  destruct q as [|job rest]; [destruct cl; [|done]|]; intros [= <-]; simpl.
  - repeat split; simpl; try done.
  - apply Forall_cons in Hjobs as [_ Hrest].
    split; [done|]. split; [|done]. split; simpl; try done.
    + intros i x Hi Hx. right; right; right. done.
    + intros _. by left.
Qed.

(** When the wait group opens, the buffer holds what the policy promises. *)
Lemma final_results s :
  running s → main s = MWait → forallb ParallelTransform.is_done (pool s) = true →
  stopOnError opts = false ∨ firstErr s = None →
  results s = (λ x, fst (f x)) <$> v
  ∧ (firstErr s = None → Forall (λ x, snd (f x) = None) v).
Proof.
  intros [Hlen Hjobs Hpool Hsize Hclosed Hsent Hset Hexit Hdrain] Hm Hall Hmode.
  pose proof pool_nworkers_pos as Hpos.
  unfold ParallelTransform.sent in *. rewrite Hm in *.
  assert (Hdone : ∀ w, w ∈ pool s → w = WDone).
  { intros w Hw. pose proof (forallb_true_elem _ _ _ Hall Hw). by destruct w. }
  assert (Hq : jobs s = []).
  { destruct (pool s) as [|w p] eqn:Hp; [simpl in *; lia|].
    rewrite (Hdone w) in Hexit by constructor.
    destruct Hexit as [[Hstop [e He]]|[_ ?]]; [constructor| |done].
    destruct Hmode; congruence. }
  assert (Hfin : ∀ i x, v !! i = Some x →
            results s !! i = Some (fst (f x))
            ∧ (is_Some (snd (f x)) → is_Some (firstErr s))).
  { intros i x Hx.
    destruct (Hset i x) as [Hin|[Hin|[[[Hin|?] ?]|[Hstop [e He]]]]]; try done.
    - by eapply lookup_lt_Some.
    - rewrite Hq in Hin. by apply elem_of_nil in Hin.
    - by apply Hdone in Hin.
    - by apply Hdone in Hin.
    - destruct Hmode; congruence. }
  split.
  - apply list_eq. intros i. rewrite list_lookup_fmap.
    destruct (v !! i) as [x|] eqn:Hx; simpl.
    + by apply Hfin.
    + apply lookup_ge_None. rewrite Hlen. by apply lookup_ge_None.
  - intros He. apply Forall_forall. intros x (i & Hx)%list_elem_of_lookup.
    destruct (Hfin i x Hx) as [_ Hlatch].
    destruct (snd (f x)) eqn:Hsnd; [|done].
    destruct Hlatch as [? ?]; [eauto|congruence].
Qed.

Lemma conclude_post s :
  inv s → main s = MWait → forallb ParallelTransform.is_done (pool s) = true →
  match ParallelTransform.conclude opts s with
  | MRet out err => err = firstErr s ∧ post out err
  | _ => False
  end.
Proof.
  intros [Hlatch Hfailed Hbound Hrun] Hm Hall. rewrite Hm in Hrun.
  unfold ParallelTransform.conclude, ParallelTransform.post.
  destruct (firstErr s) as [e|] eqn:He.
  - assert (Hsrc : ∃ x, x ∈ v ∧ snd (f x) = Some e).
    { destruct (failed s) as [|[i e'] fl]; [done|].
      apply Forall_cons in Hfailed as [(x & Hx & Hfx) _]. simpl in *.
      exists x. split; [by eapply list_elem_of_lookup_2|congruence]. }
    destruct (stopOnError opts) eqn:Hstop; [done|].
    split; [done|]. split; [done|].
    destruct (final_results s) as [-> _]; auto.
  - split; [done|]. destruct (final_results s) as [-> Hno]; auto.
Qed.

Lemma pool_inv_step c s s' : inv s → step c s = Some s' → inv s'.
Proof.
  intros Hinv Hstep. pose proof Hinv as [Hlatch Hfailed Hbound Hmain].
  destruct c as [|j|]; simpl in Hstep.
  - (* the caller *)
    unfold ParallelTransform.step_main in Hstep.
    destruct (main s) as [i|k| |out err] eqn:Hm; [| | |done].
    + destruct Hmain as [Hlen Hjobs Hpool Hsize Hclosed Hsent Hset Hexit Hdrain].
      unfold ParallelTransform.sent in *. rewrite Hm in *.
      destruct (Nat.ltb_spec i nworkers); injection Hstep as <-.
      * split; simpl; try done; [rewrite length_app; simpl; lia|].
        split; unfold ParallelTransform.sent; simpl; try done; try lia.
        -- apply Forall_app. split; [done|]. by constructor.
        -- rewrite length_app. simpl. lia.
        -- intros [?|Hin%list_elem_of_singleton]%elem_of_app; [auto|done].
      * split; simpl; try done.
        split; unfold ParallelTransform.sent; simpl; try done; try lia.
    + destruct Hmain as [Hlen Hjobs Hpool Hsize Hclosed Hsent Hset Hexit Hdrain].
      unfold ParallelTransform.sent in *. rewrite Hm in *.
      destruct (v !! k) as [x|] eqn:Hk; injection Hstep as <-.
      * split; simpl; try done.
        split; unfold ParallelTransform.sent; simpl; try done.
        -- apply Forall_app. split; [done|]. by constructor.
        -- by apply lookup_lt_Some in Hk.
        -- intros i x' Hi Hx'. destruct (decide (i = k)) as [->|Hne].
           ++ left. simpl. apply elem_of_app. right.
              apply list_elem_of_singleton. congruence.
           ++ eapply settled_mono; [apply (Hset i x'); [lia|done]|..]; simpl.
              ** intros Hin. left. simpl. apply elem_of_app. by left.
              ** intros Hin. right; left. done.
              ** intros Hin. by left.
              ** done.
              ** done.
        -- intros Hin. destruct (Hexit Hin) as [?|[? _]]; [by left|congruence].
      * apply lookup_ge_None in Hk.
        split; simpl; try done.
        split; unfold ParallelTransform.sent; simpl; try done.
        -- intros i x' Hi Hx'.
           eapply settled_mono; [apply (Hset i x'); [lia|done]|..]; simpl.
           ++ intros Hin. by left.
           ++ intros Hin. right; left. done.
           ++ intros Hin. by left.
           ++ done.
           ++ done.
        -- intros Hin. destruct (Hexit Hin) as [?|[? _]]; [by left|congruence].
    + destruct (forallb ParallelTransform.is_done (pool s)) eqn:Hall; [|done].
      injection Hstep as <-.
      pose proof (conclude_post s Hinv Hm Hall) as Hpost.
      split; simpl; try done.
      destruct (ParallelTransform.conclude opts s) as [| | |out err]; try done.
      destruct Hpost as [-> Hpost]. split; [|done].
      apply Forall_forall. intros w Hw.
      pose proof (forallb_true_elem _ _ _ Hall Hw). by destruct w.
  - (* a worker *)
    destruct (main s) as [i|k| |out err] eqn:Hm.
    4:{ destruct Hmain as (Hdone & _).
        unfold ParallelTransform.step_worker in Hstep.
        destruct (pool s !! j) as [w|] eqn:Hj; [|done].
        eapply Forall_forall in Hdone; [|by eapply list_elem_of_lookup_2].
        by subst w. }
    all: destruct (running_worker j s s' Hinv Hmain Hstep)
           as (Hm' & Hrun & Hlatch' & Hfailed' & Hlen');
         split; [done|done|by rewrite Hlen'|by rewrite Hm', Hm].
  - (* a drainer *)
    destruct (main s) as [i|k| |out err] eqn:Hm.
    4:{ unfold ParallelTransform.step_drain in Hstep.
        destruct (drainers s); [done|].
        destruct (jobs s); [destruct (closed s); [|done]|];
          injection Hstep as <-; split; simpl; try done; by rewrite Hm. }
    all: destruct (running_drain s s' Hmain Hstep)
           as (Hm' & Hrun & He' & Hf' & Hp');
         split; [by rewrite He', Hf'|by rewrite Hf'|by rewrite Hp'
                |by rewrite Hm', Hm].
Qed.

Lemma pool_inv_run sched s : run sched init = Some s → inv s.
Proof. apply pool_run_ind; [apply pool_inv_init|]. intros c s1 s2. apply pool_inv_step. Qed.

(** *** The call returns under every schedule *)

Lemma worker_enabled j s w :
  pool s !! j = Some w → w ≠ WDone → closed s = true ∨ jobs s ≠ [] →
  is_Some (step_worker j s).
Proof.
  intros Hj Hw Hq. unfold ParallelTransform.step_worker. rewrite Hj.
  destruct w as [|job|idx res|]; [| | |done].
  - destruct (jobs s); [|eauto]. destruct Hq as [->|?]; [eauto|done].
  - destruct (f (item job)) as [res [e|]]; [destruct (stopOnError opts)|]; eauto.
  - eauto.
Qed.

Lemma pool_progress s : inv s → ¬ returned s → ∃ c s', step c s = Some s'.
Proof.
  intros [_ _ _ Hmain] Hret. unfold ParallelTransform.returned in Hret.
  destruct (main s) as [i|k| |out err] eqn:Hm; [| | |done].
  - exists CMain. simpl. unfold ParallelTransform.step_main. rewrite Hm.
    destruct (i <? nworkers); eauto.
  - exists CMain. simpl. unfold ParallelTransform.step_main. rewrite Hm.
    destruct (v !! k); eauto.
  - destruct (forallb ParallelTransform.is_done (pool s)) eqn:Hall.
    + exists CMain. simpl. unfold ParallelTransform.step_main. rewrite Hm, Hall. eauto.
    + apply forallb_false_lookup in Hall as (j & w & Hj & Hw).
      destruct (worker_enabled j s w) as [s' Hs']; [done|by intros ->| |].
      * left. destruct Hmain as [_ _ _ _ Hclosed _ _ _ _]. by rewrite Hm in Hclosed.
      * exists (CWorker j), s'. done.
Qed.

Lemma pool_completes s :
  inv s → ∃ sched s', run sched s = Some s' ∧ returned s'.
Proof.
  remember (cost s) as n eqn:Hn. revert s Hn.
  induction (lt_wf n) as [n _ IH]. intros s -> Hinv.
  destruct (main s) as [i|k| |out err] eqn:Hm.
  4:{ exists [], s. split; [done|]. unfold ParallelTransform.returned. by rewrite Hm. }
  all: destruct (pool_progress s Hinv) as (c & s1 & Hc);
         [unfold ParallelTransform.returned; rewrite Hm; tauto|];
       destruct (IH (cost s1) (pool_step_cost _ _ _ Hc) s1 eq_refl
                    (pool_inv_step _ _ _ Hinv Hc)) as (sched & s' & Hrun & Hret);
       exists (c :: sched), s'; simpl; rewrite Hc; done.
Qed.

(** *** At most [nworkers] invocations at a time *)

Lemma pool_inflight_bound s : inv s → ParallelTransform.inflight s ≤ nworkers.
Proof.
  intros [_ _ Hbound _]. unfold ParallelTransform.inflight.
  etrans; [|exact Hbound]. apply sum_list_le_length.
  intros w. by destruct (ParallelTransform.in_call w); simpl; lia.
Qed.

End Facts.
End TransformFacts.

(** ** ParallelReduce *)

Module ReduceFacts.
Import ParallelReduce.

Section Facts.
Context {T Err : Type}.
Variable zero : T.
Variable numCPU : Z.
Variable v : list T.
Variable f : T → T → T * option Err.
Variable opts : Options.

(** [runtime.NumCPU()] is at least one. *)
Hypothesis host : (1 ≤ numCPU)%Z.

Local Abbreviation nworkers := (ParallelReduce.nworkers numCPU opts).
Local Abbreviation step := (ParallelReduce.step zero numCPU f opts).
Local Abbreviation step_main := (ParallelReduce.step_main zero numCPU opts).
Local Abbreviation step_go := (ParallelReduce.step_go f).
Local Abbreviation run := (ParallelReduce.run zero numCPU f opts).
Local Abbreviation init := (ParallelReduce.init zero v).
Local Abbreviation inv := (ParallelReduce.inv numCPU f opts).
Local Abbreviation in_round := (ParallelReduce.in_round numCPU f opts).
Local Abbreviation go_ok := (ParallelReduce.go_ok f).
Local Abbreviation op := (ParallelReduce.op f).

Lemma rounds_nworkers_pos : 1 ≤ nworkers.
Proof.
  unfold ParallelReduce.nworkers, effectiveWorkers.
  destruct (Z.leb_spec (workers opts) 0); lia.
Qed.

(** *** Schedules *)

Lemma rounds_run_ind (P : state → Prop) s0 :
  P s0 →
  (∀ c s s', P s → step c s = Some s' → P s') →
  ∀ sched s, run sched s0 = Some s → P s.
Proof.
  intros H0 Hstep sched. revert s0 H0.
  induction sched as [|c sched IH]; intros s0 H0 s; simpl.
  - intros [= <-]. done.
  - destruct (step c s0) as [s1|] eqn:Hc; [|done].
    apply IH. by eapply Hstep.
Qed.

(** *** Every step uses up some of the cost *)

Lemma half_le m : 20 * ((m + 1) / 2) ≤ 10 * m + 10.
Proof.
  pose proof (Nat.div_mod_eq (m + 1) 2).
  pose proof (Nat.mod_upper_bound (m + 1) 2). lia.
Qed.

Lemma rounds_step_cost c s s' : step c s = Some s' → cost s' < cost s.
Proof.
  destruct s as [m it nx e sm g rd cs].
  destruct c as [|j]; unfold ParallelReduce.step, ParallelReduce.cost, ParallelReduce.main_cost; simpl.
  - unfold ParallelReduce.step_main; simpl. destruct m as [|i| | |res err]; simpl.
    + destruct it as [|a [|b rest]]; [done| |]; intros [= <-]; simpl.
      * unfold ParallelReduce.head_cost. simpl. lia.
      * rewrite length_replicate. unfold ParallelReduce.head_cost.
        pose proof (half_le (length (a :: b :: rest))). simpl in *. lia.
    + destruct (Nat.ltb_spec (S i) (length it)).
      * destruct (sm <? nworkers); [|done].
        destruct (it !! i); [|done]. destruct (it !! S i); [|done].
        intros [= <-]; simpl. rewrite sum_list_snoc. simpl. lia.
      * intros [= <-]; simpl. lia.
    + destruct (length it mod 2 =? 1).
      * destruct (it !! (length it - 1)); [|done]. intros [= <-]; simpl.
        rewrite length_insert. lia.
      * intros [= <-]; simpl. lia.
    + destruct (forallb _ _); [|done].
      destruct e; intros [= <-]; simpl; lia.
    + done.
  - unfold ParallelReduce.step_go; simpl.
    destruct (g !! j) as [[a b k|k res| | |]|] eqn:Hj; [| | | |done|done].
    + destruct (f a b) as [res [e'|]]; intros [= <-]; simpl.
      * pose proof (sum_list_insert go_cost g j _ (GWrite k res) Hj).
        simpl in *. lia.
      * pose proof (sum_list_insert go_cost g j _ (GWrite k res) Hj).
        simpl in *. lia.
    + intros [= <-]; simpl. rewrite length_insert.
      pose proof (sum_list_insert go_cost g j _ GRelease Hj). simpl in *. lia.
    + intros [= <-]; simpl.
      pose proof (sum_list_insert go_cost g j _ GFinish Hj). simpl in *. lia.
    + intros [= <-]; simpl.
      pose proof (sum_list_insert go_cost g j _ GGone Hj). simpl in *. lia.
Qed.

Lemma rounds_run_cost sched s s' :
  run sched s = Some s' → length sched + cost s' ≤ cost s.
Proof.
  revert s. induction sched as [|c sched IH]; intros s; simpl.
  - intros [= <-]. lia.
  - destruct (step c s) as [s1|] eqn:Hc; [|done].
    intros Hrun%IH. apply rounds_step_cost in Hc. lia.
Qed.

(** *** The invariant holds in every reachable state *)

Lemma go_ok_mono s s' k g :
  go_ok s k g → items s' = items s →
  (∀ y, next s !! k = Some y → next s' !! k = Some y) →
  (is_Some (firstErr s) → is_Some (firstErr s')) →
  go_ok s' k g.
Proof.
  intros (a & b & Ha & Hb & Hg) Hit Hnx He. exists a, b. rewrite Hit.
  split; [done|]. split; [done|].
  destruct g as [a' b' k'|k' r| | |]; [done|..].
  - destruct Hg as (? & ? & ?). auto.
  - destruct Hg. auto.
  - destruct Hg. auto.
  - destruct Hg. auto.
Qed.

Lemma cas_mono (cur : option Err) e : is_Some cur → is_Some (compareAndSwap cur e).
Proof. intros [? ->]. simpl. eauto. Qed.

Lemma spawned_le s : in_round s → 2 * spawned s ≤ length (items s).
Proof.
  intros [_ _ Heven _ _ _ _ _]. unfold ParallelReduce.spawned.
  destruct (main s); lia.
Qed.

Lemma rounds_inv_init : inv init.
Proof.
  unfold ParallelReduce.inv, ParallelReduce.init. destruct v as [|a [|b rest]]; simpl; auto.
  split; [lia|done].
Qed.

Lemma in_round_go j s s' :
  in_round s → step_go j s = Some s' → main s' = main s ∧ in_round s'.
Proof.
  intros Hin. pose proof (spawned_le s Hin) as Hsp.
  destruct Hin as [Hit Hnx Heven Hcount Hgo Hsem Hlatch Hodd].
  destruct s as [m it nx e sm g rd cs]; simpl in *.
  unfold ParallelReduce.step_go; simpl.
  destruct (g !! j) as [[a b k|k res| | |]|] eqn:Hj; [| | | |done|done].
  - (* the call of f returns *)
    pose proof (Hgo j _ Hj) as (a0 & b0 & Ha & Hb & -> & -> & ->).
    simpl in Ha, Hb.
    destruct (f a0 b0) as [res [e'|]] eqn:Hf; intros [= <-]; simpl.
    + split; [done|]. split; simpl; try done.
      * by rewrite length_insert.
      * intros k g' Hk. destruct (decide (k = j)) as [->|Hne].
        -- rewrite list_lookup_insert_eq in Hk by by eapply lookup_lt_Some.
           injection Hk as <-. exists a0, b0. simpl.
           unfold ParallelReduce.op. rewrite Hf. split_and!; try done.
           intros _. apply cas_is_Some.
        -- rewrite list_lookup_insert_ne in Hk by done.
           eapply go_ok_mono; [by apply Hgo|done|done|]. apply cas_mono.
      * pose proof (sum_list_insert holds g j _ (GWrite j res) Hj).
        simpl in *. lia.
      * intros e0 He0. destruct e as [e1|]; simpl in He0; [by apply Hlatch|].
        injection He0 as <-. exists j, a0, b0. by rewrite Hf.
    + split; [done|]. split; simpl; try done.
      * by rewrite length_insert.
      * intros k g' Hk. destruct (decide (k = j)) as [->|Hne].
        -- rewrite list_lookup_insert_eq in Hk by by eapply lookup_lt_Some.
           injection Hk as <-. exists a0, b0. simpl.
           unfold ParallelReduce.op. rewrite Hf. split_and!; try done.
           by intros [? ?].
        -- rewrite list_lookup_insert_ne in Hk by done.
           eapply go_ok_mono; [by apply Hgo|done|done|done].
      * pose proof (sum_list_insert holds g j _ (GWrite j res) Hj).
        simpl in *. lia.
  - (* the goroutine stores its result *)
    pose proof (Hgo j _ Hj) as (a0 & b0 & Ha & Hb & -> & -> & Herr).
    simpl in Ha, Hb, Herr. apply lookup_lt_Some in Hj as Hlt.
    intros [= <-]; simpl. split; [done|]. split; simpl; try done.
    + by rewrite length_insert.
    + by rewrite length_insert.
    + intros k g' Hk. destruct (decide (k = j)) as [->|Hne].
      * rewrite list_lookup_insert_eq in Hk by done.
        injection Hk as <-. exists a0, b0. simpl. split_and!; try done.
        apply list_lookup_insert_eq. lia.
      * rewrite list_lookup_insert_ne in Hk by done.
        eapply go_ok_mono; [by apply Hgo|done| |done]. simpl.
        intros y. by rewrite list_lookup_insert_ne.
    + pose proof (sum_list_insert holds g j _ GRelease Hj). simpl in *. lia.
    + intros -> Hm. rewrite list_lookup_insert_ne; [auto|].
      unfold ParallelReduce.spawned in *. simpl in *. lia.
  - (* the goroutine gives its token back *)
    pose proof (Hgo j _ Hj) as Hj'.
    intros [= <-]; simpl. split; [done|]. split; simpl; try done.
    + by rewrite length_insert.
    + intros k g' Hk. destruct (decide (k = j)) as [->|Hne].
      * rewrite list_lookup_insert_eq in Hk by by eapply lookup_lt_Some.
        by injection Hk as <-.
      * rewrite list_lookup_insert_ne in Hk by done. by apply Hgo.
    + pose proof (sum_list_insert holds g j _ GFinish Hj). simpl in *. lia.
  - (* the goroutine leaves the wait group *)
    pose proof (Hgo j _ Hj) as Hj'.
    intros [= <-]; simpl. split; [done|]. split; simpl; try done.
    + by rewrite length_insert.
    + intros k g' Hk. destruct (decide (k = j)) as [->|Hne].
      * rewrite list_lookup_insert_eq in Hk by by eapply lookup_lt_Some.
        by injection Hk as <-.
      * rewrite list_lookup_insert_ne in Hk by done. by apply Hgo.
    + pose proof (sum_list_insert holds g j _ GGone Hj). simpl in *. lia.
Qed.

Lemma all_gone (g : list (@goroutine T)) :
  forallb ParallelReduce.is_gone g = true → Forall (λ x, x = GGone) g.
Proof.
  intros Hall. apply Forall_forall. intros x Hx.
  pose proof (forallb_true_elem _ _ _ Hall Hx). by destruct x.
Qed.

Lemma gone_stuck j s : Forall (λ x, x = GGone) (gs s) → step_go j s = None.
Proof.
  intros Hall. unfold ParallelReduce.step_go.
  destruct (gs s !! j) as [g|] eqn:Hj; [|done].
  eapply Forall_forall in Hall; [|by eapply list_elem_of_lookup_2]. by subst g.
Qed.

Lemma inv_main s s' : inv s → step_main s = Some s' → inv s'.
Proof.
  pose proof rounds_nworkers_pos as Hpos.
  unfold ParallelReduce.inv, ParallelReduce.step_main.
  destruct (main s) as [|i| | |res err] eqn:Hm; [| | | |done].
  - (* the loop test *)
    intros [Hit Hgone].
    destruct (items s) as [|a [|b rest]] eqn:Hits; [done| |];
      intros [= <-]; simpl; [done|].
    split; unfold ParallelReduce.spawned; simpl; try done; try lia.
    rewrite length_replicate. done.
  - (* the spawn loop *)
    intros Hin. pose proof (spawned_le s Hin) as Hsp.
    destruct Hin as [Hit Hnx Heven Hcount Hgo Hsem Hlatch Hodd].
    unfold ParallelReduce.spawned in *. rewrite Hm in *.
    destruct (Nat.ltb_spec (S i) (length (items s))).
    + destruct (Nat.ltb_spec (sem s) nworkers); [|done].
      destruct (items s !! i) as [a|] eqn:Ha; [|done].
      destruct (items s !! S i) as [b|] eqn:Hb; [|done].
      intros [= <-]; simpl.
      split; unfold ParallelReduce.spawned; simpl; try done; try lia.
      * rewrite length_app. simpl. lia.
      * intros k g Hk. apply lookup_app_Some in Hk as [Hk|[Hge Hk]].
        -- eapply go_ok_mono; [by apply Hgo|done..].
        -- apply list_lookup_singleton_Some in Hk as [Hk <-].
           assert (k = i / 2) as -> by lia.
           exists a, b. simpl.
           replace (2 * (i / 2)) with i by lia.
           replace (i + 1) with (S i) by lia. done.
      * rewrite sum_list_snoc. simpl. lia.
    + intros [= <-]; simpl.
      split; unfold ParallelReduce.spawned; simpl; try done; try lia.
  - (* the odd element *)
    intros Hin. pose proof (spawned_le s Hin) as Hsp.
    destruct Hin as [Hit Hnx Heven Hcount Hgo Hsem Hlatch Hodd].
    unfold ParallelReduce.spawned in *. rewrite Hm in *.
    destruct (Nat.eqb_spec (length (items s) mod 2) 1) as [Hrem|Hrem].
    + destruct (items s !! (length (items s) - 1)) as [x|] eqn:Hx; [|done].
      intros [= <-]; simpl.
      split; unfold ParallelReduce.spawned; simpl; try done.
      * by rewrite length_insert.
      * intros k g Hk. apply lookup_lt_Some in Hk as Hlt.
        eapply go_ok_mono; [by apply Hgo|done| |done]. simpl.
        intros y. rewrite list_lookup_insert_ne; [done|lia].
      * intros _ _.
        replace ((length (items s) + 1) / 2 - 1)
          with (length (items s) / 2) by lia.
        rewrite Hx. apply list_lookup_insert_eq. lia.
    + intros [= <-]; simpl.
      split; unfold ParallelReduce.spawned; simpl; try done.
  - (* the wait *)
    intros Hin. destruct Hin as [Hit Hnx Heven Hcount Hgo Hsem Hlatch Hodd].
    destruct (forallb ParallelReduce.is_gone (gs s)) eqn:Hall; [|done].
    apply all_gone in Hall.
    destruct (firstErr s); intros [= <-]; simpl; [done|].
    split; [lia|done].
Qed.

Lemma rounds_inv_step c s s' : inv s → step c s = Some s' → inv s'.
Proof.
  destruct c as [|j]; simpl; [apply inv_main|].
  intros Hinv Hstep. unfold ParallelReduce.inv in *.
  destruct (main s) as [|i| | |res err] eqn:Hm.
  - destruct Hinv as [_ Hgone]. by rewrite gone_stuck in Hstep.
  - destruct (in_round_go j s s' Hinv Hstep) as [-> ?]. by rewrite Hm.
  - destruct (in_round_go j s s' Hinv Hstep) as [-> ?]. by rewrite Hm.
  - destruct (in_round_go j s s' Hinv Hstep) as [-> ?]. by rewrite Hm.
  - by rewrite gone_stuck in Hstep.
Qed.

Lemma rounds_inv_run sched s : run sched init = Some s → inv s.
Proof. apply rounds_run_ind; [apply rounds_inv_init|]. intros c s1 s2. apply rounds_inv_step. Qed.

(** *** The call returns under every schedule *)

Lemma go_enabled j s g :
  gs s !! j = Some g → g ≠ GGone → is_Some (step_go j s).
Proof.
  intros Hj Hg. unfold ParallelReduce.step_go. rewrite Hj.
  destruct g as [a b k|k res| | |]; [|eauto..|done].
  destruct (f a b) as [res [e|]]; eauto.
Qed.

Lemma rounds_progress s : inv s → ¬ returned s → ∃ c s', step c s = Some s'.
Proof.
  pose proof rounds_nworkers_pos as Hpos.
  unfold ParallelReduce.inv, ParallelReduce.returned.
  destruct (main s) as [|i| | |res err] eqn:Hm; intros Hinv Hret; [| | | |done].
  - exists CMain. simpl. unfold ParallelReduce.step_main. rewrite Hm.
    destruct Hinv as [Hit _].
    destruct (items s) as [|a [|b rest]]; simpl in Hit; [lia|eauto..].
  - destruct Hinv as [Hit Hnx Heven Hcount Hgo Hsem Hlatch Hodd].
    destruct (Nat.ltb_spec (S i) (length (items s))) as [Hlt|Hge].
    + destruct (Nat.ltb_spec (sem s) nworkers) as [Hfree|Hfull].
      * exists CMain. simpl. unfold ParallelReduce.step_main. rewrite Hm.
        rewrite (proj2 (Nat.ltb_lt _ _) Hlt), (proj2 (Nat.ltb_lt _ _) Hfree).
        destruct (lookup_lt_is_Some_2 (items s) i) as [a ->]; [lia|].
        destruct (lookup_lt_is_Some_2 (items s) (S i)) as [b ->]; [lia|].
        eauto.
      * destruct (sum_list_pos holds (gs s)) as (j & g & Hj & Hg); [lia|].
        destruct (go_enabled j s g) as [s' Hs'];
          [done|intros ->; simpl in Hg; lia|].
        by exists (CGo j), s'.
    + exists CMain. simpl. unfold ParallelReduce.step_main. rewrite Hm.
      rewrite (proj2 (Nat.ltb_ge _ _) Hge). eauto.
  - destruct Hinv as [Hit Hnx Heven Hcount Hgo Hsem Hlatch Hodd].
    exists CMain. simpl. unfold ParallelReduce.step_main. rewrite Hm.
    destruct (length (items s) mod 2 =? 1); [|eauto].
    destruct (lookup_lt_is_Some_2 (items s) (length (items s) - 1))
      as [x ->]; [lia|]. eauto.
  - destruct (forallb ParallelReduce.is_gone (gs s)) eqn:Hall.
    + exists CMain. simpl. unfold ParallelReduce.step_main. rewrite Hm, Hall.
      destruct (firstErr s); eauto.
    + apply forallb_false_lookup in Hall as (j & g & Hj & Hg).
      destruct (go_enabled j s g) as [s' Hs']; [done|by intros ->|].
      by exists (CGo j), s'.
Qed.

Lemma rounds_completes s :
  inv s → ∃ sched s', run sched s = Some s' ∧ returned s'.
Proof.
  remember (cost s) as n eqn:Hn. revert s Hn.
  induction (lt_wf n) as [n _ IH]. intros s -> Hinv.
  destruct (main s) as [|i| | |res err] eqn:Hm.
  5:{ exists [], s. split; [done|]. unfold ParallelReduce.returned. by rewrite Hm. }
  all: destruct (rounds_progress s Hinv) as (c & s1 & Hc);
         [unfold ParallelReduce.returned; rewrite Hm; tauto|];
       destruct (IH (cost s1) (rounds_step_cost _ _ _ Hc) s1 eq_refl
                    (rounds_inv_step _ _ _ Hinv Hc)) as (sched & s' & Hrun & Hret);
       exists (c :: sched), s'; simpl; rewrite Hc; done.
Qed.

(** *** At most [nworkers] invocations at a time *)

Lemma rounds_inflight_bound s : inv s → ParallelReduce.inflight s ≤ nworkers.
Proof.
  unfold ParallelReduce.inv, ParallelReduce.inflight. intros Hinv.
  assert (Hgone : Forall (λ g, g = GGone) (gs s) →
                  sum_list_with (λ g, Nat.b2n (ParallelReduce.in_call g)) (gs s) ≤ nworkers).
  { intros Hall. rewrite sum_list_zero; [lia|].
    intros g Hg. eapply Forall_forall in Hall; [|done]. by subst g. }
  assert (Hrnd : in_round s →
                 sum_list_with (λ g, Nat.b2n (ParallelReduce.in_call g)) (gs s) ≤ nworkers).
  { intros [_ _ _ _ _ [Hsem Hle] _ _]. etrans; [|exact Hle]. rewrite Hsem.
    apply sum_list_mono. intros []; simpl; lia. }
  destruct (main s); auto. destruct Hinv as [_ Hall]. auto.
Qed.

(** *** What a round leaves in the buffer *)

Lemma round_end s :
  inv s → main s = RWait → forallb ParallelReduce.is_gone (gs s) = true →
  length (gs s) = length (items s) / 2
  ∧ length (next s) = (length (items s) + 1) / 2
  ∧ (∀ k, k < length (items s) / 2 →
       ∃ a b, items s !! (2 * k) = Some a ∧ items s !! (2 * k + 1) = Some b
              ∧ next s !! k = Some (op a b)
              ∧ (is_Some (snd (f a b)) → is_Some (firstErr s)))
  ∧ (length (items s) mod 2 = 1 →
       next s !! ((length (items s) + 1) / 2 - 1)
       = items s !! (length (items s) - 1)).
Proof.
  unfold ParallelReduce.inv. intros Hinv Hm Hall. rewrite Hm in Hinv.
  destruct Hinv as [Hit Hnx Heven Hcount Hgo Hsem Hlatch Hodd].
  unfold ParallelReduce.spawned in Hcount. rewrite Hm in Hcount.
  apply all_gone in Hall.
  split; [done|]. split; [done|]. split.
  - intros k Hk.
    destruct (lookup_lt_is_Some_2 (gs s) k) as [g Hg]; [lia|].
    destruct (Hgo k g Hg) as (a & b & Ha & Hb & Hrest).
    eapply Forall_forall in Hall; [|by eapply list_elem_of_lookup_2].
    subst g. exists a, b. by destruct Hrest.
  - intros Hrem.
    replace ((length (items s) + 1) / 2 - 1) with (length (items s) / 2) by lia.
    by apply Hodd.
Qed.

(** *** A round against the list function [pairwise] *)

Lemma list_pair_ind (P : list T → Prop) :
  P [] → (∀ x, P [x]) → (∀ a b l, P l → P (a :: b :: l)) → ∀ l, P l.
Proof.
  intros Hnil Hone Hstep l.
  assert (P l ∧ ∀ x, P (x :: l)) as [? _]; [|done].
  induction l as [|y l [IH1 IH2]]; [by split|].
  split; [apply IH2|]. intros x. by apply Hstep.
Qed.

Lemma pairwise_unique (its nxt : list T) :
  length nxt = (length its + 1) / 2 →
  (∀ k, k < length its / 2 →
     ∃ a b, its !! (2 * k) = Some a ∧ its !! (2 * k + 1) = Some b
            ∧ nxt !! k = Some (op a b)) →
  (length its mod 2 = 1 →
     nxt !! ((length its + 1) / 2 - 1) = its !! (length its - 1)) →
  nxt = ParallelReduce.pairwise f its.
Proof.
  revert nxt. induction its as [|x|a b l IH] using list_pair_ind;
    intros nxt Hlen Hpair Hodd; simpl in *.
  - by destruct nxt.
  - assert (length nxt = 1) as Hone by lia.
    destruct nxt as [|y [|z nxt]]; simpl in Hone; try lia.
    specialize (Hodd eq_refl). cbv in Hodd. congruence.
  - assert (Hl : length nxt = S ((length l + 1) / 2)) by lia.
    destruct nxt as [|y nxt]; simpl in Hl; [lia|].
    destruct (Hpair 0) as (a0 & b0 & Ha & Hb & Hy); [lia|].
    simpl in Ha, Hb, Hy. simplify_eq. f_equal. apply IH.
    + lia.
    + intros k Hk. destruct (Hpair (S k)) as (a1 & b1 & Ha1 & Hb1 & Hy1); [lia|].
      replace (2 * S k) with (S (S (2 * k))) in * by lia.
      simpl in *. eauto.
    + intros Hrem. specialize (Hodd ltac:(lia)).
      rewrite !lookup_cons_ne_0 in Hodd by lia.
      replace ((length l + 1) / 2 - 1)
        with (pred (S (S (length l + 1)) / 2 - 1)) by lia.
      replace (length l - 1) with (pred (length l)) by lia. exact Hodd.
Qed.

Section Associative.
Hypothesis assoc : ∀ a b c, op (op a b) c = op a (op b c).

Lemma fold_pairwise l x :
  fold_left op (ParallelReduce.pairwise f l) x = fold_left op l x.
Proof.
  revert x. induction l as [|y|a b l IH] using list_pair_ind;
    intros x; simpl; [done..|].
  rewrite IH. by rewrite assoc.
Qed.

Lemma fold1_pairwise l :
  ParallelReduce.fold1 zero f (ParallelReduce.pairwise f l) = ParallelReduce.fold1 zero f l.
Proof.
  destruct l as [|a [|b l]]; simpl; [done..|]. apply fold_pairwise.
Qed.

(** [f] never fails. *)
Hypothesis error_free : ∀ a b, snd (f a b) = None.

Lemma tracks_init : ParallelReduce.tracks zero v f init.
Proof.
  unfold ParallelReduce.tracks, ParallelReduce.init. by destruct v as [|a [|b l]].
Qed.

Lemma tracks_step c s s' :
  inv s → ParallelReduce.tracks zero v f s → step c s = Some s' →
  ParallelReduce.tracks zero v f s'.
Proof.
  intros Hinv Htr. destruct c as [|j]; simpl.
  - unfold ParallelReduce.step_main, ParallelReduce.tracks in *.
    destruct (main s) as [|i| | |res err] eqn:Hm; [| | | |done].
    + destruct (items s) as [|a [|b rest]] eqn:Hits; [done| |];
        intros [= <-]; simpl; by rewrite <- Htr.
    + destruct (S i <? length (items s)).
      * destruct (sem s <? nworkers); [|done].
        destruct (items s !! i); [|done]. destruct (items s !! S i); [|done].
        by intros [= <-].
      * by intros [= <-].
    + destruct (length (items s) mod 2 =? 1).
      * destruct (items s !! (length (items s) - 1)); [|done].
        by intros [= <-].
      * by intros [= <-].
    + destruct (forallb ParallelReduce.is_gone (gs s)) eqn:Hall; [|done].
      destruct Htr as [Htr He]. rewrite He. intros [= <-]; simpl.
      destruct (round_end s Hinv Hm Hall) as (_ & Hlen & Hpair & Hodd).
      rewrite (pairwise_unique (items s) (next s)); [|done| |done].
      * by rewrite fold1_pairwise.
      * intros k Hk. destruct (Hpair k Hk) as (a & b & ? & ? & ? & _). eauto.
  - unfold ParallelReduce.step_go, ParallelReduce.tracks in *.
    destruct (gs s !! j) as [[a b k|k res| | |]|]; [| | | |done|done].
    + pose proof (error_free a b) as Hab.
      destruct (f a b) as [res [e|]]; [done|]. by intros [= <-].
    + by intros [= <-].
    + by intros [= <-].
    + by intros [= <-].
Qed.

Lemma tracks_run sched s :
  run sched init = Some s → ParallelReduce.tracks zero v f s.
Proof.
  intros Hrun.
  enough (inv s ∧ ParallelReduce.tracks zero v f s) as [_ ?]; [done|].
  revert sched s Hrun. apply rounds_run_ind.
  - split; [apply rounds_inv_init|apply tracks_init].
  - intros c s1 s2 [Hinv Htr] Hstep.
    split; [by eapply rounds_inv_step|by eapply tracks_step].
Qed.
End Associative.

(** *** A latched error ends the call *)

Lemma latched_step e c s s' :
  ParallelReduce.latched zero e s → step c s = Some s' →
  ParallelReduce.latched zero e s' ∧ round s' = round s.
Proof.
  intros [He Hm]. destruct c as [|j]; simpl.
  - unfold ParallelReduce.step_main, ParallelReduce.latched.
    destruct (main s) as [|i| | |res err]; [done| | | |done].
    + destruct (S i <? length (items s)).
      * destruct (sem s <? nworkers); [|done].
        destruct (items s !! i); [|done]. destruct (items s !! S i); [|done].
        by intros [= <-].
      * by intros [= <-].
    + destruct (length (items s) mod 2 =? 1).
      * destruct (items s !! (length (items s) - 1)); [|done].
        by intros [= <-].
      * by intros [= <-].
    + destruct (forallb ParallelReduce.is_gone (gs s)); [|done].
      rewrite He. by intros [= <-].
  - unfold ParallelReduce.step_go, ParallelReduce.latched.
    destruct (gs s !! j) as [[a b k|k res| | |]|]; [| | | |done|done].
    + destruct (f a b) as [res [e'|]]; intros [= <-]; simpl; [|done].
      by rewrite He.
    + by intros [= <-].
    + by intros [= <-].
    + by intros [= <-].
Qed.

Lemma latched_run e sched s s' :
  ParallelReduce.latched zero e s → run sched s = Some s' →
  ParallelReduce.latched zero e s' ∧ round s' = round s.
Proof.
  revert s. induction sched as [|c sched IH]; intros s Hl; simpl.
  - by intros [= <-].
  - destruct (step c s) as [s1|] eqn:Hc; [|done].
    destruct (latched_step e c s s1 Hl Hc) as [Hl1 <-]. by apply IH.
Qed.

End Facts.
End ReduceFacts.

(** ** The contract of ParallelTransform *)

Section TransformContract.
Context {I O Err : Type}.
Variable zero : O.
Variable numCPU : Z.
Variable v : list I.
Variable f : I → O * option Err.
Variable opts : Options.

Local Abbreviation run := (ParallelTransform.run numCPU v f opts).
Local Abbreviation init := (ParallelTransform.init zero v).

(** What a returned state says about the outcome, whatever the policy. *)
Lemma returned_post sched s out err :
  (1 ≤ numCPU)%Z → run sched init = Some s →
  ParallelTransform.main s = ParallelTransform.MRet out err →
  ParallelTransform.post v f opts out err
  ∧ err = snd <$> head (ParallelTransform.failed s)
  ∧ Forall (ParallelTransform.failed_ok v f) (ParallelTransform.failed s).
Proof.
  intros Hhost Hrun Hm.
  destruct (TransformFacts.pool_inv_run zero numCPU v f opts Hhost sched s Hrun)
    as [Hlatch Hfailed _ Hmain].
  rewrite Hm in Hmain. destruct Hmain as (_ & -> & Hpost). done.
Qed.

Lemma fmap_indexed (l : list O) :
  l = (λ x, fst (f x)) <$> v →
  length l = length v ∧ ∀ i x, v !! i = Some x → l !! i = Some (fst (f x)).
Proof.
  intros ->. split; [apply length_fmap|].
  intros i x Hx. by rewrite list_lookup_fmap, Hx.
Qed.
End TransformContract.

(** The worker-pool body (part_002): with a mapping function that never
    returns an error, under every worker count, either error policy and
    every schedule, ParallelTransform returns (a run can
    always be completed, and none is longer than the cost of the initial
    state); what it returns is a sequence as long as the input whose [i]-th
    element is the value of [f] on the [i]-th input, and no error. *)
Theorem transform_error_free {I O Err : Type} (zero : O) (numCPU : Z)
    (v : list I) (f : I → O * option Err) (opts : Options)
    (sched : list ParallelTransform.choice) (s : ParallelTransform.state) :
  (1 ≤ numCPU)%Z →
  (∀ x, snd (f x) = None) →
  ParallelTransform.run numCPU v f opts sched (ParallelTransform.init zero v) = Some s →
  (∃ sched' s', ParallelTransform.run numCPU v f opts sched' s = Some s'
                ∧ ParallelTransform.returned s')
  ∧ length sched ≤ ParallelTransform.cost numCPU v opts (ParallelTransform.init (Err:=Err) zero v)
  ∧ ∀ out err, ParallelTransform.main s = ParallelTransform.MRet out err →
      err = None
      ∧ ∃ l, out = Some l ∧ length l = length v
             ∧ ∀ i x, v !! i = Some x → l !! i = Some (fst (f x)).
Proof.
  intros Hhost Hfree Hrun. split; [|split].
  - eapply TransformFacts.pool_completes; [done|].
    by eapply TransformFacts.pool_inv_run.
  - pose proof (TransformFacts.pool_run_cost _ _ _ _ _ _ _ Hrun). lia.
  - intros out err Hm.
    destruct (returned_post zero numCPU v f opts sched s out err Hhost Hrun Hm)
      as (Hpost & _ & _).
    unfold ParallelTransform.post in Hpost. destruct err as [e|].
    + destruct Hpost as [(x & _ & Hx) _]. rewrite Hfree in Hx. done.
    + destruct Hpost as [-> _]. split; [done|].
      eexists. split; [done|]. by apply fmap_indexed.
Qed.

(** Doubling [1,2,3,4,5] with two workers, as in the package's test. *)
Lemma transform_error_free_witness :
  let v := [1; 2; 3; 4; 5]%Z in
  let opts := WithWorkers emptyOptions 2 in
  let sched := ParallelTransform.plan 8 v Samples.double opts 100 (ParallelTransform.init 0%Z v) in
  ∃ s, ParallelTransform.run 8 v Samples.double opts sched (ParallelTransform.init 0%Z v) = Some s
       ∧ ParallelTransform.main s = ParallelTransform.MRet (Some [2; 4; 6; 8; 10]%Z) None
       ∧ ∀ out err, ParallelTransform.main s = ParallelTransform.MRet out err →
           err = None
           ∧ ∃ l, out = Some l ∧ length l = 5
                  ∧ ∀ i x, [1; 2; 3; 4; 5]%Z !! i = Some x
                           → l !! i = Some (fst (Samples.double x)).
Proof.
  intros v opts sched. eexists. split; [vm_compute; reflexivity|].
  split; [reflexivity|].
  apply (transform_error_free 0%Z 8 v Samples.double opts sched);
    [lia|reflexivity|vm_compute; reflexivity].
Defined.

(** C3, as the specification states it, fails: in continue mode the worker
    stores whatever [f] returned, also next to an error.  Here [f] returns
    100 together with "value out of range" for the input 250; the invocation
    on index 1 is recorded as failed and slot 1 of the output holds 100, not
    the zero value 0. *)
Lemma transform_continue_zero_counterexample :
  let v := [7; 250]%Z in
  let opts := StopOnError (WithWorkers emptyOptions 2) false in
  let sched := ParallelTransform.plan 8 v Samples.clampTo100 opts 100 (ParallelTransform.init 0%Z v) in
  ∃ s out,
    ParallelTransform.run 8 v Samples.clampTo100 opts sched (ParallelTransform.init 0%Z v) = Some s
    ∧ ParallelTransform.main s
      = ParallelTransform.MRet (Some out) (Some "value out of range"%string)
    ∧ ParallelTransform.failed s = [(1, "value out of range"%string)]
    ∧ out !! 1 = Some 100%Z
    ∧ out !! 1 ≠ Some 0%Z.
Proof.
  intros v opts sched. eexists. eexists.
  split; [vm_compute; reflexivity|].
  split; [reflexivity|]. split; [reflexivity|]. split; [reflexivity|].
  discriminate.
Qed.

(** C3, amended.  In continue mode, under every worker count and every
    schedule, ParallelTransform returns; the output is as long as the input
    and every index holds the value [f] returned for it, whether or not the
    invocation also returned an error (so a failed index holds the zero value
    exactly when [f] returns the zero value with its error); the returned
    error is non-nil iff an invocation returned an error, which happens iff
    [f] fails on some element of the input. *)
Theorem transform_continue {I O Err : Type} (zero : O) (numCPU : Z)
    (v : list I) (f : I → O * option Err) (opts : Options)
    (sched : list ParallelTransform.choice) (s : ParallelTransform.state) :
  (1 ≤ numCPU)%Z →
  stopOnError opts = false →
  ParallelTransform.run numCPU v f opts sched (ParallelTransform.init zero v) = Some s →
  (∃ sched' s', ParallelTransform.run numCPU v f opts sched' s = Some s'
                ∧ ParallelTransform.returned s')
  ∧ ∀ out err, ParallelTransform.main s = ParallelTransform.MRet out err →
      (∃ l, out = Some l ∧ length l = length v
            ∧ ∀ i x, v !! i = Some x → l !! i = Some (fst (f x)))
      ∧ (is_Some err ↔ ParallelTransform.failed s ≠ [])
      ∧ (ParallelTransform.failed s ≠ [] ↔ ∃ x, x ∈ v ∧ is_Some (snd (f x))).
Proof.
  intros Hhost Hmode Hrun. split.
  - eapply TransformFacts.pool_completes; [done|].
    by eapply TransformFacts.pool_inv_run.
  - intros out err Hm.
    destruct (returned_post zero numCPU v f opts sched s out err Hhost Hrun Hm)
      as (Hpost & Herr & Hfailed).
    unfold ParallelTransform.post in Hpost. rewrite Hmode in Hpost.
    assert (Hout : out = Some ((λ x, fst (f x)) <$> v)).
    { destruct err; by destruct Hpost. }
    assert (Hlatch : is_Some err ↔ ParallelTransform.failed s ≠ []).
    { rewrite Herr. destruct (ParallelTransform.failed s); simpl.
      - split; [by intros [? ?]|done].
      - split; [done|eauto]. }
    split; [|split; [done|]].
    + eexists. split; [done|]. by apply fmap_indexed.
    + rewrite <- Hlatch. split.
      * intros [e ->]. destruct Hpost as [(x & Hx & Hfx) _].
        exists x. split; [done|]. rewrite Hfx. eauto.
      * intros (x & Hx & Hfx). destruct err as [e|]; [eauto|].
        destruct Hpost as [_ Hall]. eapply Forall_forall in Hall; [|done].
        rewrite Hall in Hfx. by destruct Hfx.
Qed.

(** The continue-mode test of the package: [1,2,3,4,5] with a function that
    fails on even numbers. *)
Lemma transform_continue_witness :
  let v := [1; 2; 3; 4; 5]%Z in
  let opts := StopOnError (WithWorkers emptyOptions 2) false in
  let sched := ParallelTransform.plan 8 v Samples.errorOnEven opts 100 (ParallelTransform.init 0%Z v) in
  ∃ s, ParallelTransform.run 8 v Samples.errorOnEven opts sched (ParallelTransform.init 0%Z v) = Some s
       ∧ ParallelTransform.main s
         = ParallelTransform.MRet (Some [2; 0; 6; 0; 10]%Z) (Some "even number error"%string)
       ∧ ∀ out err, ParallelTransform.main s = ParallelTransform.MRet out err →
           (∃ l, out = Some l ∧ length l = 5
                 ∧ ∀ i x, [1; 2; 3; 4; 5]%Z !! i = Some x
                          → l !! i = Some (fst (Samples.errorOnEven x)))
           ∧ (is_Some err ↔ ParallelTransform.failed s ≠ [])
           ∧ (ParallelTransform.failed s ≠ []
              ↔ ∃ x, x ∈ [1; 2; 3; 4; 5]%Z ∧ is_Some (snd (Samples.errorOnEven x))).
Proof.
  intros v opts sched. eexists. split; [vm_compute; reflexivity|].
  split; [reflexivity|].
  apply (transform_continue 0%Z 8 v Samples.errorOnEven opts sched);
    [lia|reflexivity|vm_compute; reflexivity].
Defined.

(** C4.  In fail-fast mode, under every worker count and every schedule,
    ParallelTransform returns; if an invocation of [f] returned an error
    the output is absent (nil) and the returned error is one of the errors
    [f] returned, namely that of the first failed invocation.  An invocation
    does fail whenever [f] fails on some element of the input. *)
Theorem transform_fail_fast {I O Err : Type} (zero : O) (numCPU : Z)
    (v : list I) (f : I → O * option Err) (opts : Options)
    (sched : list ParallelTransform.choice) (s : ParallelTransform.state) :
  (1 ≤ numCPU)%Z →
  stopOnError opts = true →
  ParallelTransform.run numCPU v f opts sched (ParallelTransform.init zero v) = Some s →
  (∃ sched' s', ParallelTransform.run numCPU v f opts sched' s = Some s'
                ∧ ParallelTransform.returned s')
  ∧ ∀ out err, ParallelTransform.main s = ParallelTransform.MRet out err →
      (ParallelTransform.failed s ≠ [] →
         out = None
         ∧ ∃ i e x, err = Some e ∧ head (ParallelTransform.failed s) = Some (i, e)
                    ∧ v !! i = Some x ∧ snd (f x) = Some e)
      ∧ ((∃ x, x ∈ v ∧ is_Some (snd (f x))) → ParallelTransform.failed s ≠ []).
Proof.
  intros Hhost Hmode Hrun. split.
  - eapply TransformFacts.pool_completes; [done|].
    by eapply TransformFacts.pool_inv_run.
  - intros out err Hm.
    destruct (returned_post zero numCPU v f opts sched s out err Hhost Hrun Hm)
      as (Hpost & Herr & Hfailed).
    unfold ParallelTransform.post in Hpost. rewrite Hmode in Hpost. split.
    + intros Hne. destruct (ParallelTransform.failed s) as [|[i e] fl]; [done|].
      simpl in Herr. subst err. destruct Hpost as [_ ->]. split; [done|].
      apply Forall_cons in Hfailed as [(x & Hx & Hfx) _]. simpl in *.
      by exists i, e, x.
    + intros (x & Hx & Hfx). destruct (ParallelTransform.failed s); [|done].
      simpl in Herr. subst err. destruct Hpost as [_ Hall].
      eapply Forall_forall in Hall; [|done].
      rewrite Hall in Hfx. by destruct Hfx.
Qed.

(** The fail-fast test of the package: [1,2,3,4,5] with a function that
    fails on even numbers. *)
Lemma transform_fail_fast_witness :
  let v := [1; 2; 3; 4; 5]%Z in
  let opts := StopOnError (WithWorkers emptyOptions 2) true in
  let sched := ParallelTransform.plan 8 v Samples.errorOnEven opts 100 (ParallelTransform.init 0%Z v) in
  ∃ s, ParallelTransform.run 8 v Samples.errorOnEven opts sched (ParallelTransform.init 0%Z v) = Some s
       ∧ ParallelTransform.main s = ParallelTransform.MRet None (Some "even number error"%string)
       ∧ ∀ out err, ParallelTransform.main s = ParallelTransform.MRet out err →
           (ParallelTransform.failed s ≠ [] →
              out = None
              ∧ ∃ i e x, err = Some e ∧ head (ParallelTransform.failed s) = Some (i, e)
                         ∧ v !! i = Some x ∧ snd (Samples.errorOnEven x) = Some e)
           ∧ ((∃ x, x ∈ v ∧ is_Some (snd (Samples.errorOnEven x)))
              → ParallelTransform.failed s ≠ []).
Proof.
  intros v opts sched. eexists. split; [vm_compute; reflexivity|].
  split; [reflexivity|].
  apply (transform_fail_fast 0%Z 8 v Samples.errorOnEven opts sched);
    [lia|reflexivity|vm_compute; reflexivity].
Defined.

(** C7 does not hold of the code.  Input [1,2,3], a function failing on 1,
    two workers, fail-fast.  Worker 0 takes the first job, its call fails and
    the error is latched; worker 1 then receives the second job from the
    channel and invokes [f] on it: in the state [s] the latch is set and
    worker 1 is still idle, in [s'] it is inside [f] on index 1. *)
Theorem transform_fail_fast_late_call :
  let v := [1; 2; 3]%Z in
  let opts := StopOnError (WithWorkers emptyOptions 2) true in
  let sched := [ParallelTransform.CMain; ParallelTransform.CMain; ParallelTransform.CMain;
                ParallelTransform.CMain; ParallelTransform.CMain; ParallelTransform.CMain;
                ParallelTransform.CMain;
                ParallelTransform.CWorker 0; ParallelTransform.CWorker 0] in
  ∃ s s',
    ParallelTransform.run 8 v Samples.failOnOne opts sched (ParallelTransform.init 0%Z v) = Some s
    ∧ ParallelTransform.firstErr s = Some "fail on 1"%string
    ∧ ParallelTransform.started s = [0]
    ∧ ParallelTransform.pool s !! 1 = Some ParallelTransform.WRecv
    ∧ ParallelTransform.step 8 v Samples.failOnOne opts (ParallelTransform.CWorker 1) s = Some s'
    ∧ ParallelTransform.pool s' !! 1 = Some (ParallelTransform.WCall (ParallelTransform.mkJob 2%Z 1))
    ∧ ParallelTransform.started s' = [0; 1]
    ∧ ParallelTransform.inflight s' = 1.
Proof.
  intros v opts sched. eexists. eexists.
  split; [vm_compute; reflexivity|].
  split; [reflexivity|]. split; [reflexivity|]. split; [reflexivity|].
  split; [vm_compute; reflexivity|]. by repeat split.
Qed.

(** The fail-fast scenario of the specification: [1,2,3,4] with a function
    failing on the value 2 gives an absent output and an error. *)
Example transform_scenario_fail_fast :
  let v := [1; 2; 3; 4]%Z in
  let g := λ x : Z, if (x =? 2)%Z then (0%Z, Some "two"%string) else (x, None) in
  let opts := StopOnError (WithWorkers emptyOptions 2) true in
  ParallelTransform.main <$> ParallelTransform.run 8 v g opts
                       (ParallelTransform.plan 8 v g opts 100 (ParallelTransform.init 0%Z v))
                       (ParallelTransform.init 0%Z v)
  = Some (ParallelTransform.MRet None (Some "two"%string)).
Proof. vm_compute. reflexivity. Qed.

(** With the default options the pool has one worker per CPU. *)
Example transform_scenario_default_workers :
  let v := [1; 2; 3]%Z in
  let id := λ x : Z, (x, @None string) in
  (λ s, (ParallelTransform.main s, length (ParallelTransform.pool s)))
    <$> ParallelTransform.run 4 v id emptyOptions
          (ParallelTransform.plan 4 v id emptyOptions 100 (ParallelTransform.init 0%Z v))
          (ParallelTransform.init 0%Z v)
  = Some (ParallelTransform.MRet (Some [1; 2; 3]%Z) None, 4).
Proof. vm_compute. reflexivity. Qed.

(** ** The contract of ParallelReduce *)

Section ReduceContract.
Context {T Err : Type}.
Variable zero : T.
Variable numCPU : Z.
Variable f : T → T → T * option Err.
Variable opts : Options.

Local Abbreviation run := (ParallelReduce.run zero numCPU f opts).

Lemma inv_run_from s0 sched s :
  (1 ≤ numCPU)%Z → ParallelReduce.inv numCPU f opts s0 → run sched s0 = Some s →
  ParallelReduce.inv numCPU f opts s.
Proof.
  intros Hhost H0. apply ReduceFacts.rounds_run_ind; [done|].
  intros c s1 s2. by apply ReduceFacts.rounds_inv_step.
Qed.

(** A state with a live goroutine is inside a round. *)
Lemma live_in_round s j g :
  ParallelReduce.inv numCPU f opts s → ParallelReduce.gs s !! j = Some g → g ≠ ParallelReduce.GGone →
  ParallelReduce.in_round numCPU f opts s
  ∧ ParallelReduce.main s ≠ ParallelReduce.RHead
  ∧ ∀ res err, ParallelReduce.main s ≠ ParallelReduce.RRet res err.
Proof.
  unfold ParallelReduce.inv. intros Hinv Hj Hg.
  assert (Hno : ¬ Forall (λ g, g = ParallelReduce.GGone) (ParallelReduce.gs s)).
  { intros Hall. eapply Forall_forall in Hall; [|by eapply list_elem_of_lookup_2].
    done. }
  destruct (ParallelReduce.main s); try done. by destruct Hinv.
Qed.
End ReduceContract.

(** The body with indexed writes (part_001): for a nonempty input and a
    function that never fails and is associative, under every worker count
    and every schedule, ParallelReduce returns, and what it returns is the
    left fold of the input with [f] and no error.  Commutativity is not
    assumed. *)
Theorem reduce_associative {T Err : Type} (zero : T) (numCPU : Z)
    (x : T) (xs : list T) (f : T → T → T * option Err) (opts : Options)
    (sched : list ParallelReduce.choice) (s : ParallelReduce.state) :
  (1 ≤ numCPU)%Z →
  (∀ a b, snd (f a b) = None) →
  (∀ a b c, fst (f (fst (f a b)) c) = fst (f a (fst (f b c)))) →
  ParallelReduce.run zero numCPU f opts sched (ParallelReduce.init zero (x :: xs)) = Some s →
  (∃ sched' s', ParallelReduce.run zero numCPU f opts sched' s = Some s'
                ∧ ParallelReduce.returned s')
  ∧ ∀ res err, ParallelReduce.main s = ParallelReduce.RRet res err →
      res = fold_left (λ a b, fst (f a b)) xs x ∧ err = None.
Proof.
  intros Hhost Hfree Hassoc Hrun. split.
  - eapply ReduceFacts.rounds_completes; [done|]. by eapply ReduceFacts.rounds_inv_run.
  - intros res err Hm.
    pose proof (ReduceFacts.tracks_run zero numCPU (x :: xs) f opts
                  Hhost Hassoc Hfree sched s Hrun) as Htr.
    unfold ParallelReduce.tracks in Htr. rewrite Hm in Htr. exact Htr.
Qed.

(** Summing [1..10] with three workers, as in the package's test. *)
Lemma reduce_associative_witness :
  let v := [1; 2; 3; 4; 5; 6; 7; 8; 9; 10]%Z in
  let opts := WithWorkers emptyOptions 3 in
  let sched := ParallelReduce.plan 0%Z 8 Samples.sum opts 200 (ParallelReduce.init 0%Z v) in
  ∃ s, ParallelReduce.run 0%Z 8 Samples.sum opts sched (ParallelReduce.init 0%Z v) = Some s
       ∧ ParallelReduce.main s = ParallelReduce.RRet 55%Z None
       ∧ ∀ res err, ParallelReduce.main s = ParallelReduce.RRet res err →
           res = fold_left (λ a b, fst (Samples.sum a b))
                   [2; 3; 4; 5; 6; 7; 8; 9; 10]%Z 1%Z
           ∧ err = None.
Proof.
  intros v opts sched. eexists. split; [vm_compute; reflexivity|].
  split; [reflexivity|].
  apply (reduce_associative 0%Z 8 1%Z [2; 3; 4; 5; 6; 7; 8; 9; 10]%Z
           Samples.sum opts sched);
    [lia|reflexivity|intros a b c; simpl; lia|vm_compute; reflexivity].
Defined.

(** The product scenario of the specification: [1,2,3,4] with two workers
    gives 24. *)
Example reduce_scenario_product :
  let v := [1; 2; 3; 4]%Z in
  let opts := WithWorkers emptyOptions 2 in
  ParallelReduce.main <$> ParallelReduce.run 0%Z 8 Samples.product opts
                    (ParallelReduce.plan 0%Z 8 Samples.product opts 100 (ParallelReduce.init 0%Z v))
                    (ParallelReduce.init 0%Z v)
  = Some (ParallelReduce.RRet 24%Z None).
Proof. vm_compute. reflexivity. Qed.

(** Concatenation is not commutative; the engine still returns the left
    fold, here with the second pair finishing before the first. *)
Example reduce_scenario_concat :
  let v := [[1]; [2]; [3]; [4]]%Z in
  let opts := WithWorkers emptyOptions 2 in
  let sched := [ParallelReduce.CMain; ParallelReduce.CMain; ParallelReduce.CMain; ParallelReduce.CMain;
                ParallelReduce.CMain;
                ParallelReduce.CGo 1; ParallelReduce.CGo 1; ParallelReduce.CGo 0; ParallelReduce.CGo 0;
                ParallelReduce.CGo 0; ParallelReduce.CGo 0; ParallelReduce.CGo 1; ParallelReduce.CGo 1;
                ParallelReduce.CMain; ParallelReduce.CMain; ParallelReduce.CMain; ParallelReduce.CMain;
                ParallelReduce.CMain;
                ParallelReduce.CGo 0; ParallelReduce.CGo 0; ParallelReduce.CGo 0; ParallelReduce.CGo 0;
                ParallelReduce.CMain; ParallelReduce.CMain] in
  ParallelReduce.main <$> ParallelReduce.run [] 8 Samples.concat opts sched (ParallelReduce.init [] v)
  = Some (ParallelReduce.RRet [1; 2; 3; 4]%Z None).
Proof. vm_compute. reflexivity. Qed.

(** C2 does not hold of the body kept in reduce.go, whose round buffer is
    filled in completion order.  Concatenation never fails and is
    associative; on [[1],[2],[3],[4]] with two workers, the schedule in
    which the second pair finishes first returns [3,4,1,2], which is not
    the fold [1,2,3,4]. *)
Theorem reduce_mutex_order_depends :
  let v := [[1]; [2]; [3]; [4]]%Z in
  let opts := WithWorkers emptyOptions 2 in
  let sched := [ParallelReduceMutex.CMain; ParallelReduceMutex.CMain; ParallelReduceMutex.CMain;
                ParallelReduceMutex.CMain; ParallelReduceMutex.CMain;
                ParallelReduceMutex.CGo 1; ParallelReduceMutex.CGo 0;
                ParallelReduceMutex.CGo 0; ParallelReduceMutex.CGo 0;
                ParallelReduceMutex.CGo 1; ParallelReduceMutex.CGo 1;
                ParallelReduceMutex.CMain; ParallelReduceMutex.CMain; ParallelReduceMutex.CMain;
                ParallelReduceMutex.CMain; ParallelReduceMutex.CMain;
                ParallelReduceMutex.CGo 0; ParallelReduceMutex.CGo 0; ParallelReduceMutex.CGo 0;
                ParallelReduceMutex.CMain; ParallelReduceMutex.CMain] in
  (∀ a b : list Z, snd (Samples.concat a b) = None)
  ∧ (∀ a b c : list Z,
       fst (Samples.concat (fst (Samples.concat a b)) c)
       = fst (Samples.concat a (fst (Samples.concat b c))))
  ∧ ∃ s, ParallelReduceMutex.run [] 8 Samples.concat opts sched (ParallelReduceMutex.init [] v) = Some s
       ∧ ParallelReduceMutex.main s = ParallelReduceMutex.RRet [3; 4; 1; 2]%Z None
       ∧ fold_left (λ a b, fst (Samples.concat a b)) [[2]; [3]; [4]]%Z [1]%Z
         = [1; 2; 3; 4]%Z.
Proof.
  intros v opts sched. split; [done|]. split.
  - intros a b c. simpl. by rewrite app_assoc.
  - eexists. split; [vm_compute; reflexivity|]. split; reflexivity.
Qed.


(** C5.  When an invocation of [f] on a pair returns an error, in any round
    and under any schedule, the latch holds an error [e] from then on: the
    error already latched if there was one, else this one (the first write
    wins), and in both cases an error [f] returned on an adjacent pair of
    this round.  Whatever happens next, the round counter does not move (no
    further round is begun), the call returns, and it returns the zero value
    together with [e]. *)
Theorem reduce_error_latched {T Err : Type} (zero : T) (numCPU : Z)
    (v : list T) (f : T → T → T * option Err) (opts : Options)
    (sched : list ParallelReduce.choice) (s : ParallelReduce.state)
    (j : nat) (a b : T) (k : nat) (e' : Err) :
  (1 ≤ numCPU)%Z →
  ParallelReduce.run zero numCPU f opts sched (ParallelReduce.init zero v) = Some s →
  ParallelReduce.gs s !! j = Some (ParallelReduce.GCall a b k) →
  snd (f a b) = Some e' →
  ∃ s1 e,
    ParallelReduce.step zero numCPU f opts (ParallelReduce.CGo j) s = Some s1
    ∧ ParallelReduce.firstErr s1 = Some e
    ∧ e = default e' (ParallelReduce.firstErr s)
    ∧ (∃ k' a' b', ParallelReduce.items s !! (2 * k') = Some a'
                   ∧ ParallelReduce.items s !! (2 * k' + 1) = Some b'
                   ∧ snd (f a' b') = Some e)
    ∧ ∀ sched' s', ParallelReduce.run zero numCPU f opts sched' s1 = Some s' →
        ParallelReduce.firstErr s' = Some e
        ∧ ParallelReduce.round s' = ParallelReduce.round s
        ∧ (∀ res err, ParallelReduce.main s' = ParallelReduce.RRet res err →
             res = zero ∧ err = Some e)
        ∧ ∃ sched'' s'', ParallelReduce.run zero numCPU f opts sched'' s' = Some s''
                         ∧ ParallelReduce.returned s''.
Proof.
  intros Hhost Hrun Hj Hf.
  pose proof (ReduceFacts.rounds_inv_run zero numCPU v f opts Hhost sched s Hrun) as Hinv.
  destruct (live_in_round numCPU f opts s j _ Hinv Hj)
    as (Hin & Hhead & Hret); [done|].
  destruct (f a b) as [res err] eqn:Hab. simpl in Hf. subst err.
  set (s1 := {| ParallelReduce.main := ParallelReduce.main s; ParallelReduce.items := ParallelReduce.items s;
                ParallelReduce.next := ParallelReduce.next s;
                ParallelReduce.firstErr := compareAndSwap (ParallelReduce.firstErr s) e';
                ParallelReduce.sem := ParallelReduce.sem s;
                ParallelReduce.gs := <[j := ParallelReduce.GWrite k res]> (ParallelReduce.gs s);
                ParallelReduce.round := ParallelReduce.round s;
                ParallelReduce.calls := ParallelReduce.calls s |}).
  assert (Hstep : ParallelReduce.step zero numCPU f opts (ParallelReduce.CGo j) s = Some s1).
  { simpl. unfold ParallelReduce.step_go. by rewrite Hj, Hab. }
  pose proof (ReduceFacts.rounds_inv_step zero numCPU f opts Hhost _ _ _ Hinv Hstep)
    as Hinv1.
  set (e := default e' (ParallelReduce.firstErr s)).
  assert (He : ParallelReduce.firstErr s1 = Some e).
  { unfold e. simpl. by destruct (ParallelReduce.firstErr s). }
  assert (Hl : ParallelReduce.latched zero e s1).
  { split; [done|]. simpl.
    destruct (ParallelReduce.main s) as [|i| | |res0 err0]; try done.
    by destruct (Hret res0 err0). }
  exists s1, e. split; [done|]. split; [done|]. split; [done|]. split.
  - destruct (live_in_round numCPU f opts s1 j (ParallelReduce.GWrite k res) Hinv1)
      as ([_ _ _ _ _ _ Hlatch _] & _ & _); [|done|by apply Hlatch].
    simpl. apply list_lookup_insert_eq. by eapply lookup_lt_Some.
  - intros sched' s' Hrun'.
    destruct (ReduceFacts.latched_run zero numCPU f opts e sched' s1 s' Hl Hrun')
      as [[He' Hm'] Hround].
    split; [done|]. split; [done|]. split.
    + intros res0 err0 Hm0. by rewrite Hm0 in Hm'.
    + eapply ReduceFacts.rounds_completes; [done|]. by eapply inv_run_from.
Qed.

(** The error test of the package: [1,2,3,4] with a function failing on 2,
    two workers; the first pair has just been started. *)
Lemma reduce_error_latched_witness :
  let v := [1; 2; 3; 4]%Z in
  let opts := WithWorkers emptyOptions 2 in
  let sched := [ParallelReduce.CMain; ParallelReduce.CMain] in
  ∃ s, ParallelReduce.run 0%Z 8 Samples.failOnTwo opts sched (ParallelReduce.init 0%Z v) = Some s
    ∧ ∃ s1 e,
        ParallelReduce.step 0%Z 8 Samples.failOnTwo opts (ParallelReduce.CGo 0) s = Some s1
        ∧ ParallelReduce.firstErr s1 = Some e
        ∧ e = default "fail on 2"%string (ParallelReduce.firstErr s)
        ∧ (∃ k' a' b', ParallelReduce.items s !! (2 * k') = Some a'
                       ∧ ParallelReduce.items s !! (2 * k' + 1) = Some b'
                       ∧ snd (Samples.failOnTwo a' b') = Some e)
        ∧ ∀ sched' s',
            ParallelReduce.run 0%Z 8 Samples.failOnTwo opts sched' s1 = Some s' →
            ParallelReduce.firstErr s' = Some e
            ∧ ParallelReduce.round s' = ParallelReduce.round s
            ∧ (∀ res err, ParallelReduce.main s' = ParallelReduce.RRet res err →
                 res = 0%Z ∧ err = Some e)
            ∧ ∃ sched'' s'',
                ParallelReduce.run 0%Z 8 Samples.failOnTwo opts sched'' s' = Some s''
                ∧ ParallelReduce.returned s''.
Proof.
  intros v opts sched. eexists. split; [vm_compute; reflexivity|].
  apply (reduce_error_latched 0%Z 8 v Samples.failOnTwo opts sched _
           0 1%Z 2%Z 0 "fail on 2"%string);
    [lia|vm_compute; reflexivity|reflexivity|reflexivity].
Defined.

(** The body with indexed writes (part_001): in every reachable state, the
    goroutine at position [k] of the round works on the adjacent pair [(items[2k], items[2k+1])] and stores
    into slot [k].  When a round over [m] elements is complete (the caller
    is in [wg.Wait()] and every goroutine has ended): [m] is at least 2,
    exactly [m/2] goroutines were started, the buffer has length
    [(m+1)/2], slot [k] holds the value of [f] on the [k]-th adjacent pair
    for every [k < m/2], for odd [m] the last slot holds the last element
    unchanged, and, unless an error was latched, the caller's next step
    makes the buffer the input of the next round. *)
Theorem reduce_round_shape {T Err : Type} (zero : T) (numCPU : Z)
    (v : list T) (f : T → T → T * option Err) (opts : Options)
    (sched : list ParallelReduce.choice) (s : ParallelReduce.state) :
  (1 ≤ numCPU)%Z →
  ParallelReduce.run zero numCPU f opts sched (ParallelReduce.init zero v) = Some s →
  (∀ j a b k, ParallelReduce.gs s !! j = Some (ParallelReduce.GCall a b k) →
     k = j ∧ ParallelReduce.items s !! (2 * k) = Some a
     ∧ ParallelReduce.items s !! (2 * k + 1) = Some b)
  ∧ (∀ j k res, ParallelReduce.gs s !! j = Some (ParallelReduce.GWrite k res) →
       k = j ∧ ∃ a b, ParallelReduce.items s !! (2 * k) = Some a
                      ∧ ParallelReduce.items s !! (2 * k + 1) = Some b
                      ∧ res = fst (f a b))
  ∧ (ParallelReduce.main s = ParallelReduce.RWait →
     forallb ParallelReduce.is_gone (ParallelReduce.gs s) = true →
     let m := length (ParallelReduce.items s) in
     2 ≤ m
     ∧ length (ParallelReduce.gs s) = m / 2
     ∧ length (ParallelReduce.next s) = (m + 1) / 2
     ∧ (∀ k, k < m / 2 →
          ∃ a b, ParallelReduce.items s !! (2 * k) = Some a
                 ∧ ParallelReduce.items s !! (2 * k + 1) = Some b
                 ∧ ParallelReduce.next s !! k = Some (fst (f a b)))
     ∧ (m mod 2 = 1 →
          ParallelReduce.next s !! ((m + 1) / 2 - 1) = ParallelReduce.items s !! (m - 1))
     ∧ (ParallelReduce.firstErr s = None →
          ∃ s', ParallelReduce.step zero numCPU f opts ParallelReduce.CMain s = Some s'
                ∧ ParallelReduce.main s' = ParallelReduce.RHead
                ∧ ParallelReduce.items s' = ParallelReduce.next s)).
Proof.
  intros Hhost Hrun.
  pose proof (ReduceFacts.rounds_inv_run zero numCPU v f opts Hhost sched s Hrun) as Hinv.
  split; [|split].
  - intros j a b k Hj.
    destruct (live_in_round numCPU f opts s j _ Hinv Hj)
      as ([_ _ _ _ Hgo _ _ _] & _ & _); [done|].
    destruct (Hgo j _ Hj) as (a0 & b0 & Ha & Hb & -> & -> & ->). done.
  - intros j k res Hj.
    destruct (live_in_round numCPU f opts s j _ Hinv Hj)
      as ([_ _ _ _ Hgo _ _ _] & _ & _); [done|].
    destruct (Hgo j _ Hj) as (a0 & b0 & Ha & Hb & -> & -> & _).
    split; [done|]. by exists a0, b0.
  - intros Hm Hall m.
    destruct (ReduceFacts.round_end numCPU f opts s Hinv Hm Hall)
      as (Hcount & Hlen & Hpair & Hodd).
    assert (Hit : 2 ≤ m).
    { unfold ParallelReduce.inv in Hinv. rewrite Hm in Hinv. by destruct Hinv. }
    split; [done|]. split; [done|]. split; [done|]. split; [|split; [done|]].
    + intros k Hk. destruct (Hpair k Hk) as (a0 & b0 & ? & ? & ? & _). eauto.
    + intros He. simpl. unfold ParallelReduce.step_main. rewrite Hm, Hall, He. eauto.
Qed.

(** One round over [1,2,3,4,5] with addition and two workers: the buffer is
    [3,7,5]. *)
Lemma reduce_round_shape_witness :
  let v := [1; 2; 3; 4; 5]%Z in
  let opts := WithWorkers emptyOptions 2 in
  let sched := ParallelReduce.plan 0%Z 8 Samples.sum opts 13 (ParallelReduce.init 0%Z v) in
  ∃ s, ParallelReduce.run 0%Z 8 Samples.sum opts sched (ParallelReduce.init 0%Z v) = Some s
    ∧ ParallelReduce.main s = ParallelReduce.RWait
    ∧ forallb ParallelReduce.is_gone (ParallelReduce.gs s) = true
    ∧ ParallelReduce.next s = [3; 7; 5]%Z
    ∧ (∀ j a b k, ParallelReduce.gs s !! j = Some (ParallelReduce.GCall a b k) →
         k = j ∧ ParallelReduce.items s !! (2 * k) = Some a
         ∧ ParallelReduce.items s !! (2 * k + 1) = Some b)
    ∧ (∀ j k res, ParallelReduce.gs s !! j = Some (ParallelReduce.GWrite k res) →
         k = j ∧ ∃ a b, ParallelReduce.items s !! (2 * k) = Some a
                        ∧ ParallelReduce.items s !! (2 * k + 1) = Some b
                        ∧ res = fst (Samples.sum a b))
    ∧ (ParallelReduce.main s = ParallelReduce.RWait →
       forallb ParallelReduce.is_gone (ParallelReduce.gs s) = true →
       let m := length (ParallelReduce.items s) in
       2 ≤ m
       ∧ length (ParallelReduce.gs s) = m / 2
       ∧ length (ParallelReduce.next s) = (m + 1) / 2
       ∧ (∀ k, k < m / 2 →
            ∃ a b, ParallelReduce.items s !! (2 * k) = Some a
                   ∧ ParallelReduce.items s !! (2 * k + 1) = Some b
                   ∧ ParallelReduce.next s !! k = Some (fst (Samples.sum a b)))
       ∧ (m mod 2 = 1 →
            ParallelReduce.next s !! ((m + 1) / 2 - 1) = ParallelReduce.items s !! (m - 1))
       ∧ (ParallelReduce.firstErr s = None →
            ∃ s', ParallelReduce.step 0%Z 8 Samples.sum opts ParallelReduce.CMain s = Some s'
                  ∧ ParallelReduce.main s' = ParallelReduce.RHead
                  ∧ ParallelReduce.items s' = ParallelReduce.next s)).
Proof.
  intros v opts sched. eexists. split; [vm_compute; reflexivity|].
  split; [reflexivity|]. split; [reflexivity|]. split; [reflexivity|].
  apply (reduce_round_shape 0%Z 8 v Samples.sum opts sched);
    [lia|vm_compute; reflexivity].
Defined.

(** C8.  On an empty input ParallelReduce has returned the zero value and no
    error before any goroutine exists, and on a one-element input it has
    returned that element and no error: in both cases no step of the engine
    is possible and [f] has not been invoked. *)
Theorem reduce_trivial_inputs {T Err : Type} (zero : T) (numCPU : Z)
    (f : T → T → T * option Err) (opts : Options) (x : T) :
  (ParallelReduce.main (ParallelReduce.init (Err:=Err) zero []) = ParallelReduce.RRet zero None
   ∧ ParallelReduce.calls (ParallelReduce.init (Err:=Err) zero []) = []
   ∧ ∀ c, ParallelReduce.step zero numCPU f opts c (ParallelReduce.init zero []) = None)
  ∧ (ParallelReduce.main (ParallelReduce.init (Err:=Err) zero [x]) = ParallelReduce.RRet x None
     ∧ ParallelReduce.calls (ParallelReduce.init (Err:=Err) zero [x]) = []
     ∧ ∀ c, ParallelReduce.step zero numCPU f opts c (ParallelReduce.init zero [x]) = None).
Proof.
  split; (split; [done|]; split; [done|]); by intros [|j].
Qed.

(** C9.  ParallelReduce terminates: every step of every goroutine lowers
    the cost of the state, so no schedule is longer than the cost of the
    initial state, which is at most [20 * N + 1]; from every reachable state
    the call can be run to its return, and no reachable state short of the
    return is stuck; a completed round over [m] elements hands
    [(m+1)/2 < m] elements to the next one. *)
Theorem reduce_terminates {T Err : Type} (zero : T) (numCPU : Z)
    (v : list T) (f : T → T → T * option Err) (opts : Options)
    (sched : list ParallelReduce.choice) (s : ParallelReduce.state) :
  (1 ≤ numCPU)%Z →
  ParallelReduce.run zero numCPU f opts sched (ParallelReduce.init zero v) = Some s →
  length sched + ParallelReduce.cost s ≤ ParallelReduce.cost (ParallelReduce.init (Err:=Err) zero v)
  ∧ ParallelReduce.cost (ParallelReduce.init (Err:=Err) zero v) ≤ 20 * length v + 1
  ∧ (∀ c s', ParallelReduce.step zero numCPU f opts c s = Some s' →
       ParallelReduce.cost s' < ParallelReduce.cost s)
  ∧ (¬ ParallelReduce.returned s → ∃ c s', ParallelReduce.step zero numCPU f opts c s = Some s')
  ∧ (∃ sched' s', ParallelReduce.run zero numCPU f opts sched' s = Some s'
                  ∧ ParallelReduce.returned s')
  ∧ (∀ s', ParallelReduce.main s = ParallelReduce.RWait →
       ParallelReduce.step zero numCPU f opts ParallelReduce.CMain s = Some s' →
       ParallelReduce.main s' = ParallelReduce.RHead →
       2 ≤ length (ParallelReduce.items s)
       ∧ length (ParallelReduce.items s') = (length (ParallelReduce.items s) + 1) / 2
       ∧ length (ParallelReduce.items s') < length (ParallelReduce.items s)).
Proof.
  intros Hhost Hrun.
  pose proof (ReduceFacts.rounds_inv_run zero numCPU v f opts Hhost sched s Hrun) as Hinv.
  split; [|split; [|split; [|split; [|split]]]].
  - by eapply ReduceFacts.rounds_run_cost.
  - unfold ParallelReduce.cost, ParallelReduce.main_cost, ParallelReduce.init, ParallelReduce.head_cost. simpl.
    destruct v as [|a [|b l]]; simpl; lia.
  - intros c s'. apply ReduceFacts.rounds_step_cost.
  - by apply ReduceFacts.rounds_progress.
  - by eapply ReduceFacts.rounds_completes.
  - intros s' Hm Hstep Hm'. unfold ParallelReduce.inv in Hinv. rewrite Hm in Hinv.
    destruct Hinv as [Hit Hnx _ _ _ _ _ _].
    simpl in Hstep. unfold ParallelReduce.step_main in Hstep. rewrite Hm in Hstep.
    destruct (forallb ParallelReduce.is_gone (ParallelReduce.gs s)); [|done].
    destruct (ParallelReduce.firstErr s); injection Hstep as <-; simpl in *; [done|].
    rewrite Hnx. split; [done|]. split; [done|]. lia.
Qed.

(** Summing [1..10] with three workers, at the end of the first round. *)
Lemma reduce_terminates_witness :
  let v := [1; 2; 3; 4; 5; 6; 7; 8; 9; 10]%Z in
  let opts := WithWorkers emptyOptions 3 in
  let sched := ParallelReduce.plan 0%Z 8 Samples.sum opts 28 (ParallelReduce.init 0%Z v) in
  ∃ s, ParallelReduce.run 0%Z 8 Samples.sum opts sched (ParallelReduce.init 0%Z v) = Some s
    ∧ ParallelReduce.main s = ParallelReduce.RWait
    ∧ length sched + ParallelReduce.cost s
      ≤ ParallelReduce.cost (ParallelReduce.init (Err:=string) 0%Z v)
    ∧ ParallelReduce.cost (ParallelReduce.init (Err:=string) 0%Z v) ≤ 20 * length v + 1
    ∧ (∀ c s', ParallelReduce.step 0%Z 8 Samples.sum opts c s = Some s' →
         ParallelReduce.cost s' < ParallelReduce.cost s)
    ∧ (¬ ParallelReduce.returned s
       → ∃ c s', ParallelReduce.step 0%Z 8 Samples.sum opts c s = Some s')
    ∧ (∃ sched' s', ParallelReduce.run 0%Z 8 Samples.sum opts sched' s = Some s'
                    ∧ ParallelReduce.returned s')
    ∧ (∀ s', ParallelReduce.main s = ParallelReduce.RWait →
         ParallelReduce.step 0%Z 8 Samples.sum opts ParallelReduce.CMain s = Some s' →
         ParallelReduce.main s' = ParallelReduce.RHead →
         2 ≤ length (ParallelReduce.items s)
         ∧ length (ParallelReduce.items s') = (length (ParallelReduce.items s) + 1) / 2
         ∧ length (ParallelReduce.items s') < length (ParallelReduce.items s)).
Proof.
  intros v opts sched. eexists. split; [vm_compute; reflexivity|].
  split; [reflexivity|].
  apply (reduce_terminates 0%Z 8 v Samples.sum opts sched);
    [lia|vm_compute; reflexivity].
Defined.

(** ** Bounded concurrency *)

(** C10.  The effective worker count is [opts.workers] when that is at least
    one and the host's CPU count otherwise; in every state that a call of
    ParallelTransform or of ParallelReduce can reach, the number of
    invocations of [f] in progress is at most that count. *)
Theorem bounded_concurrency (numCPU : Z) (opts : Options) :
  (1 ≤ numCPU)%Z →
  effectiveWorkers numCPU opts
  = Z.to_nat (if (1 <=? workers opts)%Z then workers opts else numCPU)
  ∧ 1 ≤ effectiveWorkers numCPU opts
  ∧ (∀ (I O Err : Type) (zero : O) (v : list I) (f : I → O * option Err)
       (sched : list ParallelTransform.choice) (s : ParallelTransform.state),
       ParallelTransform.run numCPU v f opts sched (ParallelTransform.init zero v) = Some s →
       ParallelTransform.inflight s ≤ effectiveWorkers numCPU opts)
  ∧ (∀ (T Err : Type) (zero : T) (v : list T) (f : T → T → T * option Err)
       (sched : list ParallelReduce.choice) (s : ParallelReduce.state),
       ParallelReduce.run zero numCPU f opts sched (ParallelReduce.init zero v) = Some s →
       ParallelReduce.inflight s ≤ effectiveWorkers numCPU opts).
Proof.
  intros Hhost. split; [|split; [|split]].
  - unfold effectiveWorkers.
    destruct (Z.leb_spec (workers opts) 0), (Z.leb_spec 1 (workers opts)); lia.
  - unfold effectiveWorkers. destruct (Z.leb_spec (workers opts) 0); lia.
  - intros I O Err zero v f sched s Hrun.
    eapply (TransformFacts.pool_inflight_bound numCPU v f opts).
    by eapply TransformFacts.pool_inv_run.
  - intros T Err zero v f sched s Hrun.
    eapply (ReduceFacts.rounds_inflight_bound numCPU f opts).
    by eapply ReduceFacts.rounds_inv_run.
Qed.

(** Three workers on an eight-CPU host. *)
Lemma bounded_concurrency_witness :
  let opts := WithWorkers emptyOptions 3 in
  effectiveWorkers 8 opts = 3
  ∧ (∀ (I O Err : Type) (zero : O) (v : list I) (f : I → O * option Err)
       (sched : list ParallelTransform.choice) (s : ParallelTransform.state),
       ParallelTransform.run 8 v f opts sched (ParallelTransform.init zero v) = Some s →
       ParallelTransform.inflight s ≤ 3)
  ∧ (∀ (T Err : Type) (zero : T) (v : list T) (f : T → T → T * option Err)
       (sched : list ParallelReduce.choice) (s : ParallelReduce.state),
       ParallelReduce.run zero 8 f opts sched (ParallelReduce.init zero v) = Some s →
       ParallelReduce.inflight s ≤ 3).
Proof.
  intros opts.
  destruct (bounded_concurrency 8 opts) as (_ & _ & Ht & Hr); [lia|].
  split; [reflexivity|]. split; [exact Ht|exact Hr].
Defined.

(* ===================================================================== *)
(** * Part II, continued: what else the code shows                         *)
(* ===================================================================== *)

(** ** ParallelTransform: which elements are invoked *)

Module TransformOrder.
Import ParallelTransform.

#[local] Arguments seq : simpl never.

Section Order.
Context {I O Err : Type}.
Variable zero : O.
Variable numCPU : Z.
Variable v : list I.
Variable f : I → O * option Err.
Variable opts : Options.
Hypothesis host : (1 ≤ numCPU)%Z.

Local Abbreviation step := (ParallelTransform.step numCPU v f opts).
Local Abbreviation run := (ParallelTransform.run numCPU v f opts).
Local Abbreviation init := (ParallelTransform.init (I:=I) (Err:=Err) zero v).
Local Abbreviation inv := (ParallelTransform.inv numCPU v f opts).
Local Abbreviation in_order := (ParallelTransform.in_order (I:=I) v opts).
Local Abbreviation unlatched := (ParallelTransform.unlatched (I:=I) (O:=O) opts).

Lemma in_order_init : in_order init.
Proof.
  unfold ParallelTransform.init. destruct v; split; simpl; try done.
Qed.

Lemma cas_None (cur : option Err) e : compareAndSwap cur e ≠ None.
Proof. by destruct cur. Qed.

Ltac ord_split :=
  split;
  unfold ParallelTransform.unlatched, ParallelTransform.sent,
    ParallelTransform.returned;
  simpl.

Lemma in_order_step c s s' :
  inv s → in_order s → step c s = Some s' → in_order s'.
Proof.
  intros Hinv [Hsub Hall Hret] Hstep.
  pose proof (TransformFacts.pool_nworkers_pos numCPU opts host) as Hpos.
  destruct Hinv as [_ _ _ Hmain].
  destruct s as [m p q cl d r e st fl].
  unfold ParallelTransform.unlatched, ParallelTransform.sent,
    ParallelTransform.returned in *; simpl in *.
  destruct c as [|j|]; simpl in Hstep.
  - (* the caller *)
    unfold ParallelTransform.step_main in Hstep; simpl in Hstep.
    destruct m as [i|k| |out err]; [| | |done].
    + destruct (i <? ParallelTransform.nworkers numCPU opts);
        injection Hstep as <-; ord_split; done.
    + destruct Hmain as [_ _ _ _ _ Hsent _ _ _].
      unfold ParallelTransform.sent in Hsent; simpl in Hsent.
      destruct (v !! k) as [x|] eqn:Hk; injection Hstep as <-.
      * ord_split; try done.
        -- rewrite fmap_app, app_assoc, seq_S. simpl. by apply sublist_app.
        -- intros Hu. destruct (Hall Hu) as [Heq ->]. split; [|done].
           rewrite fmap_app, app_assoc, seq_S. simpl. by rewrite Heq.
      * apply lookup_ge_None in Hk. assert (k = length v) as -> by lia.
        ord_split; done.
    + destruct (forallb ParallelTransform.is_done p) eqn:Hdone; [|done].
      injection Hstep as <-.
      destruct Hmain as [_ _ _ Hsize _ _ _ Hexit _]. simpl in *.
      unfold ParallelTransform.conclude; simpl.
      assert (Hq : (stopOnError opts = false ∨ e = None) → q = []).
      { intros Hu. destruct p as [|w p]; [simpl in Hsize; lia|].
        destruct Hexit as [[Hstop [e0 ->]]|[_ ->]]; [|by destruct Hu; congruence|done].
        simpl in Hdone. apply andb_prop in Hdone as [Hw _].
        destruct w; try done. constructor. }
      destruct e as [e0|]; [destruct (stopOnError opts) eqn:Hstop|];
        ord_split; rewrite ?Hstop; auto.
  - (* a worker *)
    unfold ParallelTransform.step_worker in Hstep; simpl in Hstep.
    destruct (p !! j) as [[|job|idx res|]|] eqn:Hj; [| | |done|done].
    + destruct q as [|job rest]; [destruct cl; [|done]|]; injection Hstep as <-.
      * ord_split; done.
      * simpl in *. ord_split.
        -- by rewrite <- app_assoc.
        -- intros Hu. rewrite <- app_assoc. by apply Hall.
        -- intros Hu Hr. destruct m; try done.
           destruct Hmain as (Hdone & _).
           eapply Forall_forall in Hdone; [|by eapply list_elem_of_lookup_2]. done.
    + destruct (f (item job)) as [res [e'|]];
        [destruct (stopOnError opts) eqn:Hstop|]; injection Hstep as <-;
        ord_split; rewrite ?Hstop; try done.
      * intros [?|Hn]; [done|]. by apply cas_None in Hn.
      * intros [?|Hn]; [done|]. by apply cas_None in Hn.
      * intros _. apply Hall. by left.
      * intros _. apply Hret. by left.
    + injection Hstep as <-. ord_split; done.
  - (* a drainer *)
    unfold ParallelTransform.step_drain in Hstep; simpl in Hstep.
    destruct d as [|d]; [done|].
    assert (Hlatched : ¬ (stopOnError opts = false ∨ e = None)).
    { intros Hu. by destruct (Hall Hu). }
    destruct q as [|job rest]; [destruct cl; [|done]|]; injection Hstep as <-;
      ord_split; try done.
    simpl in Hsub. etrans; [|exact Hsub].
    apply sublist_app; [done|]. by apply sublist_cons.
Qed.

Lemma in_order_run sched s : run sched init = Some s → inv s ∧ in_order s.
Proof.
  revert sched s.
  apply (TransformFacts.pool_run_ind _ _ _ _ (λ s, inv s ∧ in_order s)).
  - split; [by apply TransformFacts.pool_inv_init|apply in_order_init].
  - intros c s1 s2 [Hinv Hord] Hstep.
    split; [by eapply TransformFacts.pool_inv_step|by eapply in_order_step].
Qed.

End Order.
End TransformOrder.

(** Under every schedule ParallelTransform invokes [f] on no element twice
    and on elements of the input only; and when the call returns with no
    error in the way (continue mode, or nothing latched) it has invoked [f]
    on every element exactly once.  This is about which elements are
    invoked, whatever the order of the calls. *)
Theorem transform_each_element_once {I O Err : Type} (zero : O) (numCPU : Z)
    (v : list I) (f : I → O * option Err) (opts : Options)
    (sched : list ParallelTransform.choice) (s : ParallelTransform.state) :
  (1 ≤ numCPU)%Z →
  ParallelTransform.run numCPU v f opts sched (ParallelTransform.init zero v)
  = Some s →
  NoDup (ParallelTransform.started s)
  ∧ (∀ k, k ∈ ParallelTransform.started s → k < length v)
  ∧ (stopOnError opts = false ∨ ParallelTransform.firstErr s = None →
     ParallelTransform.returned s →
     ParallelTransform.started s ≡ₚ seq 0 (length v)).
Proof.
  intros Hhost Hrun.
  destruct (TransformOrder.in_order_run zero numCPU v f opts Hhost sched s Hrun)
    as [Hinv [Hsub Hall Hret]].
  assert (Hsent : ParallelTransform.sent v s ≤ length v).
  { destruct Hinv as [_ _ _ Hmain]. unfold ParallelTransform.sent.
    destruct (ParallelTransform.main s) eqn:Hm; try lia.
    destruct Hmain as [_ _ _ _ _ Hsent _ _ _].
    unfold ParallelTransform.sent in Hsent. by rewrite Hm in Hsent. }
  assert (Hsub' : ParallelTransform.started s `sublist_of` seq 0 (length v)).
  { etrans; [by apply sublist_inserts_r|]. etrans; [exact Hsub|].
    replace (length v)
      with (ParallelTransform.sent v s + (length v - ParallelTransform.sent v s))
      by lia.
    rewrite seq_app. by apply sublist_inserts_r. }
  split; [exact (sublist_NoDup _ _ (NoDup_seq _ _) Hsub')|]. split.
  - intros k Hk. pose proof (elem_of_sublist _ _ _ Hk Hsub') as Hin.
    apply elem_of_seq in Hin. lia.
  - intros Hu Hr. destruct (Hall Hu) as [Heq _].
    rewrite (Hret Hu Hr) in Heq. simpl in Heq.
    rewrite app_nil_r in Heq. rewrite Heq.
    unfold ParallelTransform.sent, ParallelTransform.returned in *.
    by destruct (ParallelTransform.main s).
Qed.

(** The continue-mode test of the package: failures on 2 and on 4, and all
    five elements are invoked. *)
Lemma transform_each_element_once_witness :
  let v := [1; 2; 3; 4; 5]%Z in
  let opts := StopOnError (WithWorkers emptyOptions 2) false in
  let sched := ParallelTransform.plan 8 v Samples.errorOnEven opts 100
                 (ParallelTransform.init 0%Z v) in
  ∃ s, ParallelTransform.run 8 v Samples.errorOnEven opts sched
         (ParallelTransform.init 0%Z v) = Some s
    ∧ ParallelTransform.main s
      = ParallelTransform.MRet (Some [2; 0; 6; 0; 10]%Z)
          (Some "even number error"%string)
    ∧ NoDup (ParallelTransform.started s)
    ∧ (∀ k, k ∈ ParallelTransform.started s → k < length v)
    ∧ (stopOnError opts = false ∨ ParallelTransform.firstErr s = None →
       ParallelTransform.returned s →
       ParallelTransform.started s ≡ₚ seq 0 (length v)).
Proof.
  intros v opts sched. eexists. split; [vm_compute; reflexivity|].
  split; [reflexivity|].
  apply (transform_each_element_once 0%Z 8 v Samples.errorOnEven opts sched);
    [lia|vm_compute; reflexivity].
Defined.

(** ** ParallelTransform: termination, failing workers, one worker *)

(** ParallelTransform returns under every schedule: each step lowers a cost
    that starts at no more than [2 * workers + 4 * N + 3], no state short
    of the return is stuck, and the call can always be run to its return.
    The caller never waits to send, the channel having room for every job,
    and a worker that gave up after a failure leaves nothing behind that
    blocks the others. *)
Theorem transform_terminates {I O Err : Type} (zero : O) (numCPU : Z)
    (v : list I) (f : I → O * option Err) (opts : Options)
    (sched : list ParallelTransform.choice) (s : ParallelTransform.state) :
  (1 ≤ numCPU)%Z →
  ParallelTransform.run numCPU v f opts sched (ParallelTransform.init zero v)
  = Some s →
  length sched + ParallelTransform.cost numCPU v opts s
  ≤ 2 * effectiveWorkers numCPU opts + 4 * length v + 3
  ∧ (¬ ParallelTransform.returned s →
     ∃ c s', ParallelTransform.step numCPU v f opts c s = Some s')
  ∧ ∃ sched' s', ParallelTransform.run numCPU v f opts sched' s = Some s'
                 ∧ ParallelTransform.returned s'.
Proof.
  intros Hhost Hrun.
  pose proof (TransformFacts.pool_inv_run zero numCPU v f opts Hhost
                sched s Hrun) as Hinv.
  split; [|split].
  - pose proof (TransformFacts.pool_run_cost numCPU v f opts _ _ _ Hrun) as Hc.
    assert (ParallelTransform.cost numCPU v opts
              (ParallelTransform.init (I:=I) (Err:=Err) zero v)
            ≤ 2 * effectiveWorkers numCPU opts + 4 * length v + 3); [|lia].
    unfold ParallelTransform.cost, ParallelTransform.init,
      ParallelTransform.main_cost, ParallelTransform.nworkers.
    destruct v; simpl; lia.
  - by apply TransformFacts.pool_progress.
  - by eapply TransformFacts.pool_completes.
Qed.

(** Fail-fast on [1..5] with a function failing on the even elements,
    stopped after four steps. *)
Lemma transform_terminates_witness :
  let v := [1; 2; 3; 4; 5]%Z in
  let opts := StopOnError (WithWorkers emptyOptions 2) true in
  let sched := [ParallelTransform.CMain; ParallelTransform.CMain;
                ParallelTransform.CMain; ParallelTransform.CMain] in
  ∃ s, ParallelTransform.run 8 v Samples.errorOnEven opts sched
         (ParallelTransform.init 0%Z v) = Some s
    ∧ length sched + ParallelTransform.cost 8 v opts s
      ≤ 2 * effectiveWorkers 8 opts + 4 * length v + 3
    ∧ (¬ ParallelTransform.returned s →
       ∃ c s', ParallelTransform.step 8 v Samples.errorOnEven opts c s
               = Some s')
    ∧ ∃ sched' s', ParallelTransform.run 8 v Samples.errorOnEven opts sched' s
                   = Some s'
                   ∧ ParallelTransform.returned s'.
Proof.
  intros v opts sched. eexists. split; [vm_compute; reflexivity|].
  apply (transform_terminates 0%Z 8 v Samples.errorOnEven opts sched);
    [lia|vm_compute; reflexivity].
Defined.

Module TransformWorkers.
Import ParallelTransform.

#[local] Arguments seq : simpl never.

Section Workers.
Context {I O Err : Type}.
Variable zero : O.
Variable numCPU : Z.
Variable v : list I.
Variable f : I → O * option Err.
Variable opts : Options.
Hypothesis host : (1 ≤ numCPU)%Z.

Local Abbreviation step := (ParallelTransform.step numCPU v f opts).
Local Abbreviation run := (ParallelTransform.run numCPU v f opts).
Local Abbreviation init := (ParallelTransform.init (I:=I) (Err:=Err) zero v).
Local Abbreviation inv := (ParallelTransform.inv numCPU v f opts).
Local Abbreviation in_order := (ParallelTransform.in_order (I:=I) v opts).
Local Abbreviation fail_once :=
  (ParallelTransform.fail_once (I:=I) (O:=O) (Err:=Err) opts).
Local Abbreviation sequential := (ParallelTransform.sequential v f opts).
Local Abbreviation failures := (ParallelTransform.failures v f).
Local Abbreviation nworkers := (ParallelTransform.nworkers numCPU opts).

(** *** A worker fails at most once *)

Lemma fail_once_step c s s' : fail_once s → step c s = Some s' → fail_once s'.
Proof.
  intros Hf Hstep Hstop. destruct (Hf Hstop) as [H1 H2].
  destruct s as [m p q cl d r e st fl].
  unfold ParallelTransform.retired in *; simpl in *.
  destruct c as [|j|]; simpl in Hstep.
  - unfold ParallelTransform.step_main in Hstep; simpl in Hstep.
    destruct m as [i|k| |out err]; [| | |done].
    + destruct (i <? nworkers); injection Hstep as <-; simpl;
        rewrite ?sum_list_snoc; simpl; lia.
    + destruct (v !! k); injection Hstep as <-; simpl; lia.
    + destruct (forallb is_done p); [|done].
      injection Hstep as <-; simpl; lia.
  - unfold ParallelTransform.step_worker in Hstep; simpl in Hstep.
    rewrite Hstop in Hstep.
    destruct (p !! j) as [[|job|idx res|]|] eqn:Hj; [| | |done|done].
    + destruct q as [|job rest]; [destruct cl; [|done]|];
        injection Hstep as <-; simpl.
      * pose proof (sum_list_insert (λ w, Nat.b2n (is_done w)) p j _
                      WDone Hj). simpl in *. lia.
      * pose proof (sum_list_insert (λ w, Nat.b2n (is_done w)) p j _
                      (WCall job) Hj). simpl in *. lia.
    + destruct (f (item job)) as [res [e'|]]; injection Hstep as <-; simpl.
      * pose proof (sum_list_insert (λ w, Nat.b2n (is_done w)) p j _
                      WDone Hj). rewrite length_app. simpl in *. lia.
      * pose proof (sum_list_insert (λ w, Nat.b2n (is_done w)) p j _
                      (WWrite (index job) res) Hj). simpl in *. lia.
    + injection Hstep as <-; simpl.
      pose proof (sum_list_insert (λ w, Nat.b2n (is_done w)) p j _
                    WRecv Hj). simpl in *. lia.
  - unfold ParallelTransform.step_drain in Hstep; simpl in Hstep.
    destruct d as [|d]; [done|].
    destruct q as [|job rest]; [destruct cl; [|done]|];
      injection Hstep as <-; simpl; lia.
Qed.

Lemma fail_once_run sched s : run sched init = Some s → fail_once s.
Proof.
  revert sched s. apply TransformFacts.pool_run_ind.
  - intros _. unfold ParallelTransform.retired, ParallelTransform.init.
    simpl. lia.
  - apply fail_once_step.
Qed.

Lemma retired_le (s : @state I O Err) :
  ParallelTransform.retired s ≤ length (pool s).
Proof.
  unfold ParallelTransform.retired. apply sum_list_le_length.
  intros w. destruct (is_done w); simpl; lia.
Qed.

(** *** One worker: the calls happen one after the other *)

Lemma failures_app l1 l2 : failures (l1 ++ l2) = failures l1 ++ failures l2.
Proof. unfold ParallelTransform.failures. apply omap_app. Qed.

Lemma failures_fail job e :
  ParallelTransform.job_ok v job → snd (f (item job)) = Some e →
  failures [index job] = [(index job, e)].
Proof.
  unfold ParallelTransform.job_ok, ParallelTransform.failures.
  intros Hjob He. simpl. by rewrite Hjob, He.
Qed.

Lemma failures_pass job :
  ParallelTransform.job_ok v job → snd (f (item job)) = None →
  failures [index job] = [].
Proof.
  unfold ParallelTransform.job_ok, ParallelTransform.failures.
  intros Hjob He. simpl. by rewrite Hjob, He.
Qed.

Lemma seq_prefix (l k : list nat) n : l ++ k = seq 0 n → l = seq 0 (length l).
Proof.
  intros Heq.
  apply (f_equal (take (length l))) in Heq.
  rewrite take_app_length in Heq. rewrite Heq at 1.
  rewrite take_seq. f_equal.
  apply (f_equal length) in Heq. rewrite length_take, length_seq in Heq. lia.
Qed.

Lemma last_seq_inv n i : last (seq 0 n) = Some i → n = S i.
Proof.
  destruct n as [|n]; [done|]. rewrite seq_S, last_snoc. simpl.
  by intros [= ->].
Qed.

Lemma inv_worker_ok s w :
  inv s → w ∈ pool s → ParallelTransform.worker_ok v f opts w.
Proof.
  intros [_ _ _ Hmain] Hw.
  assert (Hrun : ParallelTransform.running numCPU v f opts s →
                 ParallelTransform.worker_ok v f opts w).
  { intros [_ _ Hpool _ _ _ _ _ _]. by eapply Forall_forall in Hpool. }
  destruct (main s); auto.
  destruct Hmain as [Hall _]. eapply Forall_forall in Hall; [|done].
  by subst w.
Qed.

Lemma calling_done (p : list (@worker I O)) d r e st fl q cl m :
  Forall (λ w, w = WDone) p →
  ParallelTransform.calling
    (mkState (Err:=Err) m p q cl d r e st fl) = [].
Proof.
  unfold ParallelTransform.calling. simpl.
  induction 1 as [|w p -> _ IH]; simpl; [done|]. exact IH.
Qed.

Lemma sequential_frame s s' :
  started s' = started s → failed s' = failed s → pool s' = pool s →
  sequential s → sequential s'.
Proof.
  intros Hst Hfl Hp [Hpre Hfin Hstp].
  split; unfold ParallelTransform.calling in *; rewrite ?Hst, ?Hfl, ?Hp; done.
Qed.

Lemma sequential_init : sequential init.
Proof.
  split; simpl.
  - done.
  - exists []. by unfold ParallelTransform.calling.
  - by left.
Qed.

Section Single.
Hypothesis single : nworkers = 1.

Lemma sequential_step c s s' :
  inv s → in_order s' → sequential s → step c s = Some s' → sequential s'.
Proof.
  intros Hinv Hord' Hseq Hstep.
  destruct c as [|j|]; simpl in Hstep.
  - (* the caller *)
    unfold ParallelTransform.step_main in Hstep.
    destruct (main s) as [i|k| |out err] eqn:Hm; [| | |done].
    + destruct (Nat.ltb_spec i nworkers) as [Hlt|Hge];
        injection Hstep as <-; [|by eapply (sequential_frame s)].
      destruct Hseq as [Hpre (fin & Hfin & Hfl) Hstp].
      destruct Hinv as [_ _ _ Hmain]. rewrite Hm in Hmain.
      destruct Hmain as [_ _ _ Hsize _ _ _ _ _]. rewrite Hm in Hsize.
      split; simpl.
      * done.
      * exists fin. unfold ParallelTransform.calling in *. simpl.
        rewrite omap_app. simpl. by rewrite app_nil_r.
      * intros Hstop. destruct (Hstp Hstop) as [?|(i0 & e0 & _ & _ & Hp)];
          [by left|].
        rewrite Hp in Hsize. simpl in Hsize. lia.
    + destruct (v !! k); injection Hstep as <-; by eapply (sequential_frame s).
    + destruct (forallb is_done (pool s)); [|done].
      injection Hstep as <-. by eapply (sequential_frame s).
  - (* the worker *)
    pose proof Hinv as [Hlatch _ Hbound _].
    destruct Hseq as [Hpre (fin & Hfin & Hfl) Hstp].
    unfold ParallelTransform.step_worker in Hstep.
    destruct (pool s !! j) as [w|] eqn:Hj; [|done].
    pose proof (inv_worker_ok s w Hinv (list_elem_of_lookup_2 _ _ _ Hj)) as Hw.
    destruct s as [m p q cl d r e st fl].
    unfold ParallelTransform.calling in *; simpl in *.
    destruct p as [|w0 [|w1 p]]; [done| |simpl in Hbound; lia].
    destruct j as [|j]; [|done]. simpl in Hj. injection Hj as ->.
    assert (Hlive : w ≠ WDone → stopOnError opts = true → fl = []).
    { intros Hne Hstop.
      destruct (Hstp Hstop) as [?|(i0 & e0 & _ & _ & Hp)]; [done|].
      congruence. }
    destruct w as [|job|idx res|]; [| | |done].
    + destruct q as [|job rest]; [destruct cl; [|done]|];
        injection Hstep as <-.
      * split; simpl; [done|by exists fin|].
        intros Hstop. left. by apply Hlive.
      * simpl in *. rewrite app_nil_r in Hfin. subst st.
        assert (Hu : ParallelTransform.unlatched opts
                       (mkState m [WCall job] rest cl d r e
                          (fin ++ [index job]) fl)).
        { unfold ParallelTransform.unlatched. simpl.
          destruct (stopOnError opts) eqn:Hstop; [right|by left].
          rewrite Hlatch, (Hlive ltac:(done) eq_refl). done. }
        destruct Hord' as [_ Hall _]. destruct (Hall Hu) as [Heq _].
        simpl in Heq. split; simpl.
        -- by eapply seq_prefix.
        -- by exists fin.
        -- intros Hstop. left. by apply Hlive.
    + simpl in *. subst st.
      destruct (f (item job)) as [res [e'|]] eqn:Hf;
        [destruct (stopOnError opts) eqn:Hstop|]; injection Hstep as <-.
      * split; simpl; [done| |].
        -- exists (fin ++ [index job]). rewrite app_nil_r. split; [done|].
           rewrite failures_app, (failures_fail job e'), Hfl; [done..|].
           by rewrite Hf.
        -- intros _. right. exists (index job), e'.
           rewrite (Hlive ltac:(done) eq_refl) by done.
           by rewrite last_snoc.
      * split; simpl; [done| |intros ?; congruence].
        exists (fin ++ [index job]). rewrite app_nil_r. split; [done|].
        rewrite failures_app, (failures_fail job e'), Hfl; [done..|].
        by rewrite Hf.
      * split; simpl; [done| |].
        -- exists (fin ++ [index job]). rewrite app_nil_r. split; [done|].
           rewrite failures_app, (failures_pass job), app_nil_r; [done..|].
           by rewrite Hf.
        -- intros Hstop. left. by apply Hlive.
    + injection Hstep as <-. split; simpl; [done|by exists fin|].
      intros Hstop. left. by apply Hlive.
  - (* a drainer *)
    unfold ParallelTransform.step_drain in Hstep.
    destruct (drainers s) as [|d]; [done|].
    destruct (jobs s) as [|job rest]; [destruct (closed s); [|done]|];
      injection Hstep as <-; by eapply (sequential_frame s).
Qed.

Lemma sequential_run sched s :
  run sched init = Some s → inv s ∧ in_order s ∧ sequential s.
Proof.
  revert sched s.
  apply (TransformFacts.pool_run_ind _ _ _ _
           (λ s, inv s ∧ in_order s ∧ sequential s)).
  - split; [by apply TransformFacts.pool_inv_init|].
    split; [apply TransformOrder.in_order_init|apply sequential_init].
  - intros c s1 s2 (Hinv & Hord & Hseq) Hstep.
    assert (in_order s2) by (by eapply TransformOrder.in_order_step).
    split; [by eapply TransformFacts.pool_inv_step|].
    split; [done|]. by eapply sequential_step.
Qed.

End Single.
End Workers.
End TransformWorkers.

(** In fail-fast mode a worker leaves its loop through the failure branch,
    so it goes through that branch at most once: under every schedule no
    more invocations have reached the latch with an error than the pool has
    workers, and no more draining goroutines are running than invocations
    have done so. *)
Theorem transform_fail_fast_failures {I O Err : Type} (zero : O) (numCPU : Z)
    (v : list I) (f : I → O * option Err) (opts : Options)
    (sched : list ParallelTransform.choice) (s : ParallelTransform.state) :
  (1 ≤ numCPU)%Z →
  stopOnError opts = true →
  ParallelTransform.run numCPU v f opts sched (ParallelTransform.init zero v)
  = Some s →
  length (ParallelTransform.failed s) ≤ effectiveWorkers numCPU opts
  ∧ ParallelTransform.drainers s ≤ length (ParallelTransform.failed s).
Proof.
  intros Hhost Hstop Hrun.
  destruct (TransformWorkers.fail_once_run zero numCPU v f opts sched s Hrun
              Hstop) as [H1 H2].
  pose proof (TransformFacts.pool_inv_run zero numCPU v f opts Hhost
                sched s Hrun) as [_ _ Hbound _].
  pose proof (TransformWorkers.retired_le s) as Hle.
  unfold ParallelTransform.nworkers in Hbound. split; [lia|done].
Qed.

(** A function that fails on every even element, two workers, four even
    elements: two invocations fail, one per worker, and no third. *)
Lemma transform_fail_fast_failures_witness :
  let v := [2; 4; 6; 8]%Z in
  let opts := StopOnError (WithWorkers emptyOptions 2) true in
  let sched := ParallelTransform.plan 8 v Samples.errorOnEven opts 100
                 (ParallelTransform.init 0%Z v) in
  ∃ s, ParallelTransform.run 8 v Samples.errorOnEven opts sched
         (ParallelTransform.init 0%Z v) = Some s
    ∧ ParallelTransform.main s
      = ParallelTransform.MRet None (Some "even number error"%string)
    ∧ length (ParallelTransform.failed s) = 2
    ∧ length (ParallelTransform.failed s) ≤ effectiveWorkers 8 opts
    ∧ ParallelTransform.drainers s ≤ length (ParallelTransform.failed s).
Proof.
  intros v opts sched. eexists. split; [vm_compute; reflexivity|].
  split; [reflexivity|]. split; [reflexivity|].
  apply (transform_fail_fast_failures 0%Z 8 v Samples.errorOnEven opts sched);
    [lia|reflexivity|vm_compute; reflexivity].
Defined.

(** With one worker ParallelTransform is the sequential loop, under every
    schedule.  The error it returns is the one of the first failing element
    in input order (nil when none fails); [f] is invoked in index order, on
    every element when the policy is continue or nothing fails, and on the
    elements up to and including the first failing one when the policy is
    fail-fast; the output is absent exactly when the policy is fail-fast
    and some element fails. *)
Theorem transform_single_worker {I O Err : Type} (zero : O) (numCPU : Z)
    (v : list I) (f : I → O * option Err) (opts : Options)
    (sched : list ParallelTransform.choice) (s : ParallelTransform.state)
    (out : option (list O)) (err : option Err) :
  (1 ≤ numCPU)%Z →
  effectiveWorkers numCPU opts = 1 →
  ParallelTransform.run numCPU v f opts sched (ParallelTransform.init zero v)
  = Some s →
  ParallelTransform.main s = ParallelTransform.MRet out err →
  let first := head (ParallelTransform.failures v f (seq 0 (length v))) in
  err = snd <$> first
  ∧ ParallelTransform.started s
    = seq 0 (match first with
             | Some (i, _) => if stopOnError opts then S i else length v
             | None => length v
             end)
  ∧ out = match first with
          | Some _ => if stopOnError opts then None
                      else Some ((λ x, fst (f x)) <$> v)
          | None => Some ((λ x, fst (f x)) <$> v)
          end.
Proof.
  intros Hhost Hone Hrun Hm first.
  destruct (TransformWorkers.sequential_run zero numCPU v f opts Hhost Hone
              sched s Hrun) as (Hinv & [Hsub Hall Hret] & Hseq).
  destruct Hinv as [Hlatch _ _ Hmain]. rewrite Hm in Hmain.
  destruct Hmain as (Hdone & -> & Hpost).
  destruct Hseq as [Hpre (fin & Hfin & Hfl) Hstp].
  destruct s as [m p q cl d r e st fl]. simpl in *. subst m.
  rewrite (TransformWorkers.calling_done p d r e st fl q cl _ Hdone),
    app_nil_r in Hfin. subst fin.
  unfold ParallelTransform.unlatched, ParallelTransform.sent,
    ParallelTransform.returned in *; simpl in *.
  assert (Hfirst : e = snd <$> first
    ∧ st = seq 0 (match first with
                  | Some (i, _) => if stopOnError opts then S i else length v
                  | None => length v
                  end)).
  { assert (Hfree : stopOnError opts = false ∨ e = None →
                    st = seq 0 (length v) ∧ fl = ParallelTransform.failures
                                                   v f (seq 0 (length v))).
    { intros Hu. destruct (Hall Hu) as [Heq _]. rewrite (Hret Hu ltac:(done)) in Heq.
      simpl in Heq. rewrite app_nil_r in Heq. by subst st. }
    destruct (stopOnError opts) eqn:Hstop.
    - destruct (Hstp eq_refl) as [Hnil|(i & e' & Hone' & Hlast & _)].
      + rewrite Hnil in Hlatch. simpl in Hlatch.
        destruct (Hfree (or_intror Hlatch)) as [-> Hfl'].
        subst first. rewrite <- Hfl', Hnil. by subst e.
      + rewrite Hpre in Hlast.
        apply TransformWorkers.last_seq_inv in Hlast.
        assert (Hlen : S i ≤ length v).
        { apply sublist_length in Hsub.
          rewrite length_app, length_seq in Hsub. lia. }
        assert (Hhead : first = Some (i, e')).
        { subst first.
          replace (length v) with (S i + (length v - S i)) by lia.
          rewrite seq_app, TransformWorkers.failures_app.
          rewrite <- Hlast, <- Hpre, <- Hfl, Hone'. done. }
        rewrite Hhead, Hlatch, Hone'. split; [done|].
        by rewrite Hpre, Hlast.
    - destruct (Hfree (or_introl eq_refl)) as [-> Hfl'].
      subst first. rewrite <- Hfl', Hlatch. split; [done|].
      by destruct (head fl) as [[i e']|]. }
  destruct Hfirst as [He Hst]. split; [done|]. split; [done|].
  unfold ParallelTransform.post in Hpost. rewrite He in Hpost.
  destruct first as [[i e']|]; simpl in Hpost; by destruct Hpost.
Qed.

(** One worker, fail-fast, [1..5] with a function failing on the even
    elements: the call stops at the second element. *)
Lemma transform_single_worker_witness :
  let v := [1; 2; 3; 4; 5]%Z in
  let opts := StopOnError (WithWorkers emptyOptions 1) true in
  let sched := ParallelTransform.plan 8 v Samples.errorOnEven opts 100
                 (ParallelTransform.init 0%Z v) in
  ∃ s, ParallelTransform.run 8 v Samples.errorOnEven opts sched
         (ParallelTransform.init 0%Z v) = Some s
    ∧ ParallelTransform.main s
      = ParallelTransform.MRet None (Some "even number error"%string)
    ∧ ParallelTransform.started s = [0; 1]
    ∧ let first := head (ParallelTransform.failures v Samples.errorOnEven
                           (seq 0 (length v))) in
      Some "even number error"%string = snd <$> first
      ∧ ParallelTransform.started s
        = seq 0 (match first with
                 | Some (i, _) => if stopOnError opts then S i else length v
                 | None => length v
                 end)
      ∧ None = match first with
               | Some _ => if stopOnError opts then None
                           else Some ((λ x, fst (Samples.errorOnEven x)) <$> v)
               | None => Some ((λ x, fst (Samples.errorOnEven x)) <$> v)
               end.
Proof.
  intros v opts sched. eexists. split; [vm_compute; reflexivity|].
  split; [reflexivity|]. split; [reflexivity|].
  apply (transform_single_worker 0%Z 8 v Samples.errorOnEven opts sched);
    [lia|reflexivity|vm_compute; reflexivity|reflexivity].
Defined.

(** ** ParallelReduce: the combination tree, and how much work is done *)

Module ReduceShape.
Import ParallelReduce.

Section Shape.
Context {T Err : Type}.
Variable zero : T.
Variable numCPU : Z.
Variable v : list T.
Variable f : T → T → T * option Err.
Variable opts : Options.
Hypothesis host : (1 ≤ numCPU)%Z.

Local Abbreviation step := (ParallelReduce.step zero numCPU f opts).
Local Abbreviation run := (ParallelReduce.run zero numCPU f opts).
Local Abbreviation init := (ParallelReduce.init (Err:=Err) zero v).
Local Abbreviation inv := (ParallelReduce.inv numCPU f opts).
Local Abbreviation pairwise := (ParallelReduce.pairwise f).
Local Abbreviation rounds_of := (ParallelReduce.rounds_of f).
Local Abbreviation tree := (ParallelReduce.tree zero f).

(** An invariant proved together with the engine's own. *)
Lemma with_inv (P : state → Prop) :
  P init →
  (∀ c s s', inv s → P s → step c s = Some s' → P s') →
  ∀ sched s, run sched init = Some s → P s.
Proof.
  intros H0 Hstep sched s Hrun.
  enough (inv s ∧ P s) as [_ ?]; [done|]. revert sched s Hrun.
  apply (ReduceFacts.rounds_run_ind _ _ _ _ (λ s, inv s ∧ P s)).
  - split; [apply ReduceFacts.rounds_inv_init|done].
  - intros c s1 s2 [Hinv HP] Hc.
    split; [by eapply ReduceFacts.rounds_inv_step|by eapply Hstep].
Qed.

(** A step of a goroutine leaves the caller and its lists alone. *)
Lemma step_go_frame j s s' :
  ParallelReduce.step_go f j s = Some s' →
  main s' = main s ∧ items s' = items s ∧ round s' = round s
  ∧ calls s' = calls s
  ∧ (firstErr s' = firstErr s
     ∨ ∃ a b k e, gs s !! j = Some (GCall a b k) ∧ snd (f a b) = Some e).
Proof.
  unfold ParallelReduce.step_go.
  destruct (gs s !! j) as [[a b k|k res| | |]|]; [| | | |done|done].
  - destruct (f a b) as [res [e|]] eqn:Hf; intros [= <-]; simpl.
    + split_and!; try done. right. exists a, b, k, e. by rewrite Hf.
    + split_and!; try done. by left.
  - intros [= <-]. split_and!; try done. by left.
  - intros [= <-]. split_and!; try done. by left.
  - intros [= <-]. split_and!; try done. by left.
Qed.

(** *** The result for any function that does not fail *)

Lemma pairwise_length l : length (pairwise l) = (length l + 1) / 2.
Proof.
  induction l as [|x|a b l IH] using ReduceFacts.list_pair_ind; simpl; [done..|].
  rewrite IH. lia.
Qed.

Lemma rounds_of_small n l : length l ≤ 1 → rounds_of n l = l.
Proof. destruct n, l as [|x [|y l]]; simpl; try done; lia. Qed.

Lemma rounds_of_enough n m l :
  length l ≤ S n → n ≤ m → rounds_of m l = rounds_of n l.
Proof.
  revert m l. induction n as [|n IH]; intros m l Hl Hm.
  - by rewrite !rounds_of_small.
  - destruct m as [|m]; [lia|]. destruct l as [|a [|b l]]; simpl; [done..|].
    apply IH; [|lia].
    pose proof (pairwise_length (a :: b :: l)) as Hlen. simpl in *. lia.
Qed.

Lemma tree_pairwise l : tree (pairwise l) = tree l.
Proof.
  unfold ParallelReduce.tree. destruct l as [|a [|b l]]; [done..|].
  change (rounds_of (length (a :: b :: l)) (a :: b :: l))
    with (rounds_of (S (length l)) (pairwise (a :: b :: l))).
  pose proof (pairwise_length (a :: b :: l)) as Hlen.
  rewrite (rounds_of_enough (length (pairwise (a :: b :: l))) (S (length l)));
    [done|lia|]. simpl in *. lia.
Qed.

Section ErrorFree.
Hypothesis error_free : ∀ a b, snd (f a b) = None.

Lemma tracks_tree_step c s s' :
  inv s → ParallelReduce.tracks_tree zero v f s → step c s = Some s' →
  ParallelReduce.tracks_tree zero v f s'.
Proof.
  intros Hinv Htr. destruct c as [|j]; simpl.
  - unfold ParallelReduce.step_main, ParallelReduce.tracks_tree in *.
    destruct (main s) as [|i| | |res err] eqn:Hm; [| | | |done].
    + destruct (items s) as [|a [|b rest]] eqn:Hits; [done| |];
        intros [= <-]; simpl; [|done].
      split; [|done]. rewrite <- Htr. done.
    + destruct (S i <? length (items s)).
      * destruct (sem s <? ParallelReduce.nworkers numCPU opts); [|done].
        destruct (items s !! i); [|done]. destruct (items s !! S i); [|done].
        by intros [= <-].
      * by intros [= <-].
    + destruct (length (items s) mod 2 =? 1).
      * destruct (items s !! (length (items s) - 1)); [|done].
        by intros [= <-].
      * by intros [= <-].
    + destruct (forallb ParallelReduce.is_gone (gs s)) eqn:Hall; [|done].
      destruct Htr as [Htr He]. rewrite He. intros [= <-]; simpl.
      destruct (ReduceFacts.round_end numCPU f opts s Hinv Hm Hall)
        as (_ & Hlen & Hpair & Hodd).
      rewrite (ReduceFacts.pairwise_unique f (items s) (next s)); [|done| |done].
      * by rewrite tree_pairwise.
      * intros k Hk. destruct (Hpair k Hk) as (a & b & ? & ? & ? & _). eauto.
  - intros Hstep. destruct (step_go_frame j s s' Hstep)
      as (Hm & Hit & _ & _ & [He|(a & b & k & e & _ & Hab)]).
    + unfold ParallelReduce.tracks_tree in *. rewrite Hm, Hit, He. done.
    + by rewrite error_free in Hab.
Qed.

Lemma tracks_tree_run :
  ∀ sched s, run sched init = Some s → ParallelReduce.tracks_tree zero v f s.
Proof.
  apply with_inv.
  - unfold ParallelReduce.tracks_tree, ParallelReduce.init.
    by destruct v as [|a [|b l]].
  - apply tracks_tree_step.
Qed.
End ErrorFree.

(** *** Invocations and rounds *)

Lemma counted_run :
  ∀ sched s, run sched init = Some s → ParallelReduce.counted v s.
Proof.
  apply with_inv.
  - unfold ParallelReduce.counted, ParallelReduce.init.
    destruct v as [|a [|b l]]; simpl; lia.
  - intros c s s' Hinv Hcnt. destruct c as [|j]; simpl.
    + unfold ParallelReduce.inv, ParallelReduce.step_main,
        ParallelReduce.counted, ParallelReduce.spawned in *.
      destruct (main s) as [|i| | |res err] eqn:Hm; [| | | |done].
      * destruct (items s) as [|a [|b rest]] eqn:Hits; [done| |];
          intros [= <-]; simpl in *; lia.
      * destruct Hinv as [Hit Hnx Heven _ _ _ _ _]. rewrite Hm in Heven.
        destruct (Nat.ltb_spec (S i) (length (items s))).
        -- destruct (sem s <? ParallelReduce.nworkers numCPU opts); [|done].
           destruct (items s !! i); [|done]. destruct (items s !! S i); [|done].
           intros [= <-]; simpl. rewrite length_app. simpl. lia.
        -- intros [= <-]; simpl. lia.
      * destruct (length (items s) mod 2 =? 1).
        -- destruct (items s !! (length (items s) - 1)); [|done].
           by intros [= <-].
        -- by intros [= <-].
      * destruct Hinv as [Hit Hnx _ _ _ _ _ _].
        destruct (forallb ParallelReduce.is_gone (gs s)); [|done].
        destruct (firstErr s); intros [= <-]; simpl; [split; [lia|done]|lia].
    + intros Hstep. destruct (step_go_frame j s s' Hstep)
        as (Hm & Hit & _ & Hc & _).
      unfold ParallelReduce.counted, ParallelReduce.spawned in *.
      rewrite Hm, Hit, Hc. done.
Qed.

Lemma halved_run :
  ∀ sched s, run sched init = Some s → ParallelReduce.halved v s.
Proof.
  apply with_inv.
  - unfold ParallelReduce.halved, ParallelReduce.init.
    destruct v as [|a [|b l]]; simpl; lia.
  - intros c s s' Hinv Hhalf. destruct c as [|j]; simpl.
    + unfold ParallelReduce.inv, ParallelReduce.step_main,
        ParallelReduce.halved in *.
      destruct (main s) as [|i| | |res err] eqn:Hm; [| | | |done].
      * destruct (items s) as [|a [|b rest]] eqn:Hits; [done| |];
          intros [= <-]; simpl in *.
        -- split; [|lia]. intros HN. lia.
        -- replace (round s - 0) with (round s) by lia. lia.
      * destruct (S i <? length (items s)).
        -- destruct (sem s <? ParallelReduce.nworkers numCPU opts); [|done].
           destruct (items s !! i); [|done]. destruct (items s !! S i); [|done].
           by intros [= <-].
        -- by intros [= <-].
      * destruct (length (items s) mod 2 =? 1).
        -- destruct (items s !! (length (items s) - 1)); [|done].
           by intros [= <-].
        -- by intros [= <-].
      * destruct Hinv as [Hit Hnx _ _ _ _ _ _].
        destruct Hhalf as (Hr & Hlo & Hhi).
        destruct (forallb ParallelReduce.is_gone (gs s)); [|done].
        destruct (firstErr s); intros [= <-]; simpl.
        -- split; [|done]. intros _.
           set (p := 2 ^ (round s - 1)) in *.
           assert (1 * p ≤ (length (items s) - 1) * p)
             by (apply Nat.mul_le_mono_r; lia). lia.
        -- destruct (round s) as [|r]; [lia|]. simpl in *.
           replace (r - 0) with r in * by lia.
           set (p := 2 ^ r) in *. rewrite Hnx.
           set (m := length (items s)) in *.
           assert (((m + 1) / 2 - 1) * (2 * p) ≤ (m - 1) * p).
           { rewrite Nat.mul_assoc. apply Nat.mul_le_mono_r. lia. }
           assert (m * p ≤ (m + 1) / 2 * (2 * p)).
           { rewrite Nat.mul_assoc. apply Nat.mul_le_mono_r. lia. }
           assert (1 * p ≤ (m - 1) * p) by (apply Nat.mul_le_mono_r; lia).
           lia.
    + intros Hstep. destruct (step_go_frame j s s' Hstep)
        as (Hm & Hit & Hr & _ & _).
      unfold ParallelReduce.halved in *. rewrite Hm, Hit, Hr. done.
Qed.

(** *** A failure in the first round *)

Lemma first_round_run k a b :
  v !! (2 * k) = Some a → v !! (2 * k + 1) = Some b → is_Some (snd (f a b)) →
  ∀ sched s, run sched init = Some s → ParallelReduce.first_round zero v f s.
Proof.
  intros Ha Hb Hab. apply with_inv.
  - unfold ParallelReduce.first_round, ParallelReduce.init.
    destruct v as [|x [|y l]]; simpl; try done.
    replace (2 * k + 1) with (S (2 * k)) in Hb by lia.
    destruct k; simpl in Hb; done.
  - intros c s1 s2 Hinv Hfr. destruct c as [|j]; simpl.
    + unfold ParallelReduce.step_main, ParallelReduce.first_round in *.
      destruct (main s1) as [|i| | |res err] eqn:Hm; [| | | |done].
      * destruct Hfr as [Hr Hit].
        destruct (items s1) as [|x [|y rest]] eqn:Hits; [done| |];
          intros [= <-]; simpl; [|by rewrite Hr].
        subst v. replace (2 * k + 1) with (S (2 * k)) in Hb by lia.
        destruct k; simpl in Hb; done.
      * destruct (S i <? length (items s1)).
        -- destruct (sem s1 <? ParallelReduce.nworkers numCPU opts); [|done].
           destruct (items s1 !! i); [|done]. destruct (items s1 !! S i); [|done].
           by intros [= <-].
        -- by intros [= <-].
      * destruct (length (items s1) mod 2 =? 1).
        -- destruct (items s1 !! (length (items s1) - 1)); [|done].
           by intros [= <-].
        -- by intros [= <-].
      * destruct (forallb ParallelReduce.is_gone (gs s1)) eqn:Hall; [|done].
        destruct Hfr as [Hr Hit].
        destruct (ReduceFacts.round_end numCPU f opts s1 Hinv Hm Hall)
          as (_ & _ & Hpair & _).
        destruct (Hpair k) as (a0 & b0 & Ha0 & Hb0 & _ & Hlatch).
        { rewrite Hit. apply lookup_lt_Some in Hb. lia. }
        rewrite Hit in Ha0, Hb0. simplify_eq.
        destruct (Hlatch Hab) as [e He]. rewrite He. intros [= <-]; simpl.
        split; [done|]. split; [done|].
        unfold ParallelReduce.inv in Hinv. rewrite Hm in Hinv.
        destruct Hinv as [_ _ _ _ _ _ Hsrc _].
        destruct (Hsrc e He) as (k' & a' & b' & ? & ? & ?).
        by exists k', a', b', e.
    + intros Hstep. destruct (step_go_frame j s1 s2 Hstep)
        as (Hm & Hit & Hr & _ & _).
      unfold ParallelReduce.first_round in *. rewrite Hm, Hit, Hr. done.
Qed.

End Shape.
End ReduceShape.

(** For every function that never fails, associative or not, under every
    worker count and every schedule ParallelReduce returns, and returns the
    same value: that of the balanced tree which combines adjacent pairs
    round after round ([tree]), with no error. *)
Theorem reduce_any_function {T Err : Type} (zero : T) (numCPU : Z)
    (v : list T) (f : T → T → T * option Err) (opts : Options)
    (sched : list ParallelReduce.choice) (s : ParallelReduce.state) :
  (1 ≤ numCPU)%Z →
  (∀ a b, snd (f a b) = None) →
  ParallelReduce.run zero numCPU f opts sched (ParallelReduce.init zero v)
  = Some s →
  (∃ sched' s', ParallelReduce.run zero numCPU f opts sched' s = Some s'
                ∧ ParallelReduce.returned s')
  ∧ ∀ res err, ParallelReduce.main s = ParallelReduce.RRet res err →
      res = ParallelReduce.tree zero f v ∧ err = None.
Proof.
  intros Hhost Hfree Hrun. split.
  - eapply ReduceFacts.rounds_completes; [done|].
    by eapply ReduceFacts.rounds_inv_run.
  - intros res err Hm.
    pose proof (ReduceShape.tracks_tree_run zero numCPU v f opts Hhost Hfree
                  sched s Hrun) as Htr.
    unfold ParallelReduce.tracks_tree in Htr. by rewrite Hm in Htr.
Qed.

(** The non-associativity test of the package: subtraction over [1,2,3,4]
    gives (1 - 2) - (3 - 4) = 0, not the left fold -8. *)
Lemma reduce_any_function_witness :
  let v := [1; 2; 3; 4]%Z in
  let opts := WithWorkers emptyOptions 2 in
  let sched := ParallelReduce.plan 0%Z 8 Samples.difference opts 100
                 (ParallelReduce.init 0%Z v) in
  ∃ s, ParallelReduce.run 0%Z 8 Samples.difference opts sched
         (ParallelReduce.init 0%Z v) = Some s
    ∧ ParallelReduce.main s = ParallelReduce.RRet 0%Z None
    ∧ ParallelReduce.tree 0%Z Samples.difference v = 0%Z
    ∧ fold_left (λ a b, fst (Samples.difference a b)) [2; 3; 4]%Z 1%Z = (-8)%Z
    ∧ ∀ res err, ParallelReduce.main s = ParallelReduce.RRet res err →
        res = ParallelReduce.tree 0%Z Samples.difference v ∧ err = None.
Proof.
  intros v opts sched. eexists. split; [vm_compute; reflexivity|].
  split; [reflexivity|]. split; [reflexivity|]. split; [reflexivity|].
  apply (reduce_any_function 0%Z 8 v Samples.difference opts sched);
    [lia|reflexivity|vm_compute; reflexivity].
Defined.

(** ParallelReduce never invokes [f] more than [N - 1] times on an input of
    length [N], under any schedule, and a call that returns without error
    has invoked it exactly [N - 1] times. *)
Theorem reduce_invocation_count {T Err : Type} (zero : T) (numCPU : Z)
    (v : list T) (f : T → T → T * option Err) (opts : Options)
    (sched : list ParallelReduce.choice) (s : ParallelReduce.state) :
  (1 ≤ numCPU)%Z →
  ParallelReduce.run zero numCPU f opts sched (ParallelReduce.init zero v)
  = Some s →
  length (ParallelReduce.calls s) ≤ length v - 1
  ∧ ∀ res, ParallelReduce.main s = ParallelReduce.RRet res None →
      length (ParallelReduce.calls s) = length v - 1.
Proof.
  intros Hhost Hrun.
  pose proof (ReduceShape.counted_run zero numCPU v f opts Hhost sched s Hrun)
    as Hcnt.
  pose proof (ReduceFacts.rounds_inv_run zero numCPU v f opts Hhost sched s Hrun)
    as Hinv.
  unfold ParallelReduce.counted, ParallelReduce.inv in *.
  destruct (ParallelReduce.main s) as [|i| | |res err] eqn:Hm.
  - split; [|done]. destruct Hinv as [Hit _]. lia.
  - pose proof (ReduceFacts.spawned_le zero numCPU f opts s Hinv).
    destruct Hinv as [Hit _ _ _ _ _ _ _]. split; [|done]. lia.
  - pose proof (ReduceFacts.spawned_le zero numCPU f opts s Hinv).
    destruct Hinv as [Hit _ _ _ _ _ _ _]. split; [|done]. lia.
  - pose proof (ReduceFacts.spawned_le zero numCPU f opts s Hinv).
    destruct Hinv as [Hit _ _ _ _ _ _ _]. split; [|done]. lia.
  - destruct Hcnt as [Hle Heq]. split; [done|].
    intros res0 [= -> ->]. by apply Heq.
Qed.

(** Summing [1..10]: nine additions. *)
Lemma reduce_invocation_count_witness :
  let v := [1; 2; 3; 4; 5; 6; 7; 8; 9; 10]%Z in
  let opts := WithWorkers emptyOptions 3 in
  let sched := ParallelReduce.plan 0%Z 8 Samples.sum opts 200
                 (ParallelReduce.init 0%Z v) in
  ∃ s, ParallelReduce.run 0%Z 8 Samples.sum opts sched
         (ParallelReduce.init 0%Z v) = Some s
    ∧ ParallelReduce.main s = ParallelReduce.RRet 55%Z None
    ∧ length (ParallelReduce.calls s) = 9
    ∧ length (ParallelReduce.calls s) ≤ length v - 1
    ∧ ∀ res, ParallelReduce.main s = ParallelReduce.RRet res None →
        length (ParallelReduce.calls s) = length v - 1.
Proof.
  intros v opts sched. eexists. split; [vm_compute; reflexivity|].
  split; [reflexivity|]. split; [reflexivity|].
  apply (reduce_invocation_count 0%Z 8 v Samples.sum opts sched);
    [lia|vm_compute; reflexivity].
Defined.

(** The number of rounds is logarithmic: when ParallelReduce returns from an
    input of length [N >= 2] it has begun fewer than [log2 N + 1] rounds
    ([2 ^ (rounds - 1) < N]), and a call that returns without error has
    begun exactly [ceil (log2 N)] of them ([N <= 2 ^ rounds] as well). *)
Theorem reduce_round_count {T Err : Type} (zero : T) (numCPU : Z)
    (v : list T) (f : T → T → T * option Err) (opts : Options)
    (sched : list ParallelReduce.choice) (s : ParallelReduce.state)
    (res : T) (err : option Err) :
  (1 ≤ numCPU)%Z →
  ParallelReduce.run zero numCPU f opts sched (ParallelReduce.init zero v)
  = Some s →
  ParallelReduce.main s = ParallelReduce.RRet res err →
  (2 ≤ length v → 2 ^ (ParallelReduce.round s - 1) < length v)
  ∧ (err = None → length v ≤ 2 ^ ParallelReduce.round s).
Proof.
  intros Hhost Hrun Hm.
  pose proof (ReduceShape.halved_run zero numCPU v f opts Hhost sched s Hrun)
    as Hhalf.
  unfold ParallelReduce.halved in Hhalf. by rewrite Hm in Hhalf.
Qed.

(** Summing [1..10] takes four rounds: 10, 5, 3, 2, 1 elements. *)
Lemma reduce_round_count_witness :
  let v := [1; 2; 3; 4; 5; 6; 7; 8; 9; 10]%Z in
  let opts := WithWorkers emptyOptions 3 in
  let sched := ParallelReduce.plan 0%Z 8 Samples.sum opts 200
                 (ParallelReduce.init 0%Z v) in
  ∃ s, ParallelReduce.run 0%Z 8 Samples.sum opts sched
         (ParallelReduce.init 0%Z v) = Some s
    ∧ ParallelReduce.round s = 4
    ∧ (2 ≤ length v → 2 ^ (ParallelReduce.round s - 1) < length v)
    ∧ (@None string = None → length v ≤ 2 ^ ParallelReduce.round s).
Proof.
  intros v opts sched. eexists. split; [vm_compute; reflexivity|].
  split; [reflexivity|].
  apply (reduce_round_count 0%Z 8 v Samples.sum opts sched _ 55%Z None);
    [lia|vm_compute; reflexivity|reflexivity].
Defined.

(** If [f] fails on one of the adjacent pairs [(v[2k], v[2k+1])] of the
    input, then under every worker count, every schedule and either setting
    of the stop-on-error option ParallelReduce returns, and what it returns
    is the zero value with the error of an adjacent pair of the input, after
    a single round. *)
Theorem reduce_first_round_failure {T Err : Type} (zero : T) (numCPU : Z)
    (v : list T) (f : T → T → T * option Err) (opts : Options)
    (k : nat) (a b : T)
    (sched : list ParallelReduce.choice) (s : ParallelReduce.state) :
  (1 ≤ numCPU)%Z →
  v !! (2 * k) = Some a → v !! (2 * k + 1) = Some b → is_Some (snd (f a b)) →
  ParallelReduce.run zero numCPU f opts sched (ParallelReduce.init zero v)
  = Some s →
  (∃ sched' s', ParallelReduce.run zero numCPU f opts sched' s = Some s'
                ∧ ParallelReduce.returned s')
  ∧ ∀ res err, ParallelReduce.main s = ParallelReduce.RRet res err →
      res = zero ∧ ParallelReduce.round s = 1
      ∧ ∃ k' a' b' e, err = Some e ∧ v !! (2 * k') = Some a'
                      ∧ v !! (2 * k' + 1) = Some b'
                      ∧ snd (f a' b') = Some e.
Proof.
  intros Hhost Ha Hb Hab Hrun. split.
  - eapply ReduceFacts.rounds_completes; [done|].
    by eapply ReduceFacts.rounds_inv_run.
  - intros res err Hm.
    pose proof (ReduceShape.first_round_run zero numCPU v f opts Hhost
                  k a b Ha Hb Hab sched s Hrun) as Hfr.
    unfold ParallelReduce.first_round in Hfr. rewrite Hm in Hfr.
    destruct Hfr as (Hr & Hz & Hsrc). done.
Qed.

(** The error test of the package, with the policy set to continue. *)
Lemma reduce_first_round_failure_witness :
  let v := [1; 2; 3; 4]%Z in
  let opts := StopOnError (WithWorkers emptyOptions 2) false in
  let sched := ParallelReduce.plan 0%Z 8 Samples.failOnTwo opts 100
                 (ParallelReduce.init 0%Z v) in
  ∃ s, ParallelReduce.run 0%Z 8 Samples.failOnTwo opts sched
         (ParallelReduce.init 0%Z v) = Some s
    ∧ ParallelReduce.main s
      = ParallelReduce.RRet 0%Z (Some "fail on 2"%string)
    ∧ ∀ res err, ParallelReduce.main s = ParallelReduce.RRet res err →
        res = 0%Z ∧ ParallelReduce.round s = 1
        ∧ ∃ k' a' b' e, err = Some e ∧ v !! (2 * k') = Some a'
                        ∧ v !! (2 * k' + 1) = Some b'
                        ∧ snd (Samples.failOnTwo a' b') = Some e.
Proof.
  intros v opts sched. eexists. split; [vm_compute; reflexivity|].
  split; [reflexivity|].
  apply (reduce_first_round_failure 0%Z 8 v Samples.failOnTwo opts 0 1%Z 2%Z
           sched);
    [lia|reflexivity|reflexivity|by eexists|vm_compute; reflexivity].
Defined.

(** ** ParallelReduce as in reduce.go (mutex and append) *)

Module ReduceMutexFacts.
Import ParallelReduceMutex.

Section Facts.
Context {T Err : Type}.
Variable zero : T.
Variable numCPU : Z.
Variable v : list T.
Variable f : T → T → T * option Err.
Variable opts : Options.
Hypothesis host : (1 ≤ numCPU)%Z.

Local Abbreviation nworkers := (ParallelReduceMutex.nworkers numCPU opts).
Local Abbreviation step := (ParallelReduceMutex.step zero numCPU f opts).
Local Abbreviation step_main := (ParallelReduceMutex.step_main zero numCPU opts).
Local Abbreviation step_go := (ParallelReduceMutex.step_go f).
Local Abbreviation run := (ParallelReduceMutex.run zero numCPU f opts).
Local Abbreviation init := (ParallelReduceMutex.init (Err:=Err) zero v).
Local Abbreviation inv := (ParallelReduceMutex.inv numCPU f opts).
Local Abbreviation in_round := (ParallelReduceMutex.in_round numCPU f opts).
Local Abbreviation coming := (ParallelReduceMutex.coming (Err:=Err) f).
Local Abbreviation pairwise := (ParallelReduce.pairwise f).
Local Abbreviation op := (ParallelReduce.op f).

Lemma mutex_nworkers_pos : 1 ≤ nworkers.
Proof.
  unfold ParallelReduceMutex.nworkers, effectiveWorkers.
  destruct (Z.leb_spec (workers opts) 0); lia.
Qed.

Lemma mutex_run_ind (P : state → Prop) s0 :
  P s0 →
  (∀ c s s', P s → step c s = Some s' → P s') →
  ∀ sched s, run sched s0 = Some s → P s.
Proof.
  intros H0 Hstep sched. revert s0 H0.
  induction sched as [|c sched IH]; intros s0 H0 s; simpl.
  - intros [= <-]. done.
  - destruct (step c s0) as [s1|] eqn:Hc; [|done].
    apply IH. by eapply Hstep.
Qed.

(** *** Results on their way to the buffer *)

Lemma coming_snoc l a b : coming (l ++ [GCall a b]) = coming l ++ [op a b].
Proof. unfold ParallelReduceMutex.coming. by rewrite omap_app. Qed.

Lemma coming_finished l j a b g :
  l !! j = Some (GCall a b) → ParallelReduceMutex.in_call g = false →
  coming l ≡ₚ op a b :: coming (<[j := g]> l).
Proof.
  revert j. induction l as [|x l IH]; intros [|j] Hj Hg; simplify_eq/=.
  - by destruct g.
  - specialize (IH _ Hj Hg). destruct x; simpl; [|done..].
    rewrite IH. apply Permutation_swap.
Qed.

Lemma coming_alter l j g g' :
  l !! j = Some g → ParallelReduceMutex.in_call g = false →
  ParallelReduceMutex.in_call g' = false →
  coming (<[j := g']> l) = coming l.
Proof.
  revert j. induction l as [|x l IH]; intros [|j] Hj Hg Hg'; simplify_eq/=.
  - by destruct g, g'.
  - by rewrite (IH _ Hj Hg Hg').
Qed.

Lemma coming_gone l : Forall (λ g, g = GGone) l → coming l = [].
Proof. induction 1 as [|g l -> _ IH]; simpl; [done|]. exact IH. Qed.

Lemma mutex_all_gone (g : list (@goroutine T)) :
  forallb ParallelReduceMutex.is_gone g = true → Forall (λ x, x = GGone) g.
Proof.
  intros Hall. apply Forall_forall. intros x Hx.
  pose proof (forallb_true_elem _ _ _ Hall Hx). by destruct x.
Qed.

Lemma mutex_gone_stuck j s :
  Forall (λ x, x = GGone) (gs s) → step_go j s = None.
Proof.
  intros Hall. unfold ParallelReduceMutex.step_go.
  destruct (gs s !! j) as [g|] eqn:Hj; [|done].
  eapply Forall_forall in Hall; [|by eapply list_elem_of_lookup_2]. by subst g.
Qed.

Lemma mutex_pairwise_length l : length (pairwise l) = (length l + 1) / 2.
Proof.
  induction l as [|x|a b l IH] using ReduceFacts.list_pair_ind; simpl; [done..|].
  rewrite IH. lia.
Qed.

(** *** The invariant holds in every reachable state *)

Lemma mutex_spawned_le s :
  in_round s → 2 * ParallelReduceMutex.spawned s ≤ length (items s).
Proof.
  intros [_ Heven _ _ _ _ _]. unfold ParallelReduceMutex.spawned.
  destruct (main s); lia.
Qed.

Lemma mutex_inv_init : inv init.
Proof.
  unfold ParallelReduceMutex.inv, ParallelReduceMutex.init.
  destruct v as [|a [|b l]]; simpl; auto. split; [lia|done].
Qed.

(** At the end of a round the buffer holds the pair results and the odd
    element, in some order. *)
Lemma mutex_round_end s :
  inv s → main s = RWait → forallb ParallelReduceMutex.is_gone (gs s) = true →
  next s ≡ₚ pairwise (items s) ∧ length (next s) = (length (items s) + 1) / 2.
Proof.
  unfold ParallelReduceMutex.inv. intros Hinv Hm Hall. rewrite Hm in Hinv.
  destruct Hinv as [_ _ _ _ _ Hperm _].
  unfold ParallelReduceMutex.rest in Hperm. rewrite Hm in Hperm.
  rewrite (coming_gone (gs s)) in Hperm by by apply mutex_all_gone.
  simpl in Hperm. rewrite app_nil_r in Hperm.
  split; [done|]. by rewrite Hperm, mutex_pairwise_length.
Qed.

Lemma mutex_inv_go j s s' :
  in_round s → step_go j s = Some s' → main s' = main s ∧ in_round s'.
Proof.
  intros Hin. pose proof (mutex_spawned_le s Hin) as Hsp.
  destruct Hin as [Hit Heven Hcount Hsem Hgo Hperm Herr].
  destruct s as [m it nx e sm g]; simpl in *.
  unfold ParallelReduceMutex.step_go; simpl.
  unfold ParallelReduceMutex.rest, ParallelReduceMutex.spawned in *; simpl in *.
  destruct (g !! j) as [[a b| | |]|] eqn:Hj; [| | |done|done].
  - destruct (Hgo j a b Hj) as [Ha Hb].
    assert (Hnew : ∀ e',
      in_round {| main := m; items := it;
                  next := nx ++ [op a b]; err := e'; sem := sm;
                  gs := <[j := GRelease]> g |} ↔
      ∀ e0, e' = Some e0 →
        ∃ k a b, it !! (2 * k) = Some a ∧ it !! (2 * k + 1) = Some b
                 ∧ snd (f a b) = Some e0).
    { intros e'. split; [by intros [_ _ _ _ _ _ ?]|]. intros He'.
      split; unfold ParallelReduceMutex.rest, ParallelReduceMutex.spawned;
        simpl; try done.
      - by rewrite length_insert.
      - pose proof (sum_list_insert holds g j _ GRelease Hj). simpl in *. lia.
      - intros k a0 b0 Hk. destruct (decide (k = j)) as [->|Hne].
        + rewrite list_lookup_insert_eq in Hk by by eapply lookup_lt_Some. done.
        + rewrite list_lookup_insert_ne in Hk by done. by apply Hgo.
      - rewrite <- Hperm.
        rewrite (coming_finished g j a b GRelease Hj eq_refl).
        solve_Permutation. }
    unfold ParallelReduce.op in Hnew.
    destruct (f a b) as [res [e'|]] eqn:Hf; intros [= <-]; simpl in *.
    + split; [done|]. apply Hnew. intros e0 He0.
      destruct e as [e1|]; simpl in He0; [by apply Herr|].
      injection He0 as <-. exists j, a, b. by rewrite Hf.
    + split; [done|]. by apply Hnew.
  - intros [= <-]; simpl. split; [done|].
    split; unfold ParallelReduceMutex.rest, ParallelReduceMutex.spawned;
      simpl; try done.
    + by rewrite length_insert.
    + pose proof (sum_list_insert holds g j _ GFinish Hj). simpl in *. lia.
    + intros k a0 b0 Hk. destruct (decide (k = j)) as [->|Hne].
      * rewrite list_lookup_insert_eq in Hk by by eapply lookup_lt_Some. done.
      * rewrite list_lookup_insert_ne in Hk by done. by apply Hgo.
    + by rewrite (coming_alter g j GRelease GFinish Hj).
  - intros [= <-]; simpl. split; [done|].
    split; unfold ParallelReduceMutex.rest, ParallelReduceMutex.spawned;
      simpl; try done.
    + by rewrite length_insert.
    + pose proof (sum_list_insert holds g j _ GGone Hj). simpl in *. lia.
    + intros k a0 b0 Hk. destruct (decide (k = j)) as [->|Hne].
      * rewrite list_lookup_insert_eq in Hk by by eapply lookup_lt_Some. done.
      * rewrite list_lookup_insert_ne in Hk by done. by apply Hgo.
    + by rewrite (coming_alter g j GFinish GGone Hj).
Qed.

Lemma mutex_inv_main s s' : inv s → step_main s = Some s' → inv s'.
Proof.
  pose proof mutex_nworkers_pos as Hpos. intros Hinv.
  pose proof (mutex_round_end s Hinv) as Hend. revert Hinv.
  unfold ParallelReduceMutex.inv, ParallelReduceMutex.step_main.
  destruct (main s) as [|i| | |res e0] eqn:Hm; [| | | |done].
  - intros [Hit Hgone].
    destruct (items s) as [|a [|b l]] eqn:Hits; [done| |];
      intros [= <-]; simpl; [done|].
    split; unfold ParallelReduceMutex.rest, ParallelReduceMutex.spawned;
      simpl; try done; try lia.
  - intros Hin. pose proof (mutex_spawned_le s Hin) as Hsp.
    destruct Hin as [Hit Heven Hcount Hsem Hgo Hperm Herr].
    unfold ParallelReduceMutex.rest, ParallelReduceMutex.spawned in *.
    rewrite Hm in *.
    destruct (Nat.ltb_spec (S i) (length (items s))).
    + destruct (Nat.ltb_spec (sem s) nworkers); [|done].
      destruct (items s !! i) as [a|] eqn:Ha; [|done].
      destruct (items s !! S i) as [b|] eqn:Hb; [|done].
      intros [= <-]; simpl.
      split; unfold ParallelReduceMutex.rest, ParallelReduceMutex.spawned;
        simpl; try done; try lia.
      * rewrite length_app. simpl. lia.
      * rewrite sum_list_snoc. simpl. lia.
      * intros k a0 b0 Hk. apply lookup_app_Some in Hk as [Hk|[Hge Hk]].
        -- by apply Hgo.
        -- apply list_lookup_singleton_Some in Hk as [Hk [= <- <-]].
           assert (k = i / 2) as -> by lia.
           replace (2 * (i / 2)) with i by lia.
           replace (i + 1) with (S i) by lia. done.
      * rewrite <- Hperm, coming_snoc.
        rewrite (drop_S _ _ _ Ha), (drop_S _ _ _ Hb). simpl.
        replace (i + 2) with (S (S i)) by lia.
        rewrite <- !app_assoc. done.
    + intros [= <-]; simpl.
      split; unfold ParallelReduceMutex.rest, ParallelReduceMutex.spawned;
        simpl; try done; try lia.
      replace (2 * (length (items s) / 2)) with i by lia. done.
  - intros Hin. destruct Hin as [Hit Heven Hcount Hsem Hgo Hperm Herr].
    unfold ParallelReduceMutex.rest, ParallelReduceMutex.spawned in *.
    rewrite Hm in *.
    destruct (Nat.eqb_spec (length (items s) mod 2) 1) as [Hrem|Hrem].
    + destruct (items s !! (length (items s) - 1)) as [x|] eqn:Hx; [|done].
      intros [= <-]; simpl.
      split; unfold ParallelReduceMutex.rest, ParallelReduceMutex.spawned;
        simpl; try done.
      rewrite <- Hperm.
      replace (2 * (length (items s) / 2)) with (length (items s) - 1) by lia.
      rewrite (drop_S _ _ _ Hx).
      replace (S (length (items s) - 1)) with (length (items s)) by lia.
      rewrite drop_all. simpl. solve_Permutation.
    + intros [= <-]; simpl.
      split; unfold ParallelReduceMutex.rest, ParallelReduceMutex.spawned;
        simpl; try done.
      rewrite <- Hperm.
      replace (2 * (length (items s) / 2)) with (length (items s)) by lia.
      by rewrite drop_all.
  - intros Hin. destruct Hin as [Hit _ _ _ _ _ _].
    destruct (forallb ParallelReduceMutex.is_gone (gs s)) eqn:Hall; [|done].
    destruct (Hend eq_refl eq_refl) as [_ Hlen].
    apply mutex_all_gone in Hall.
    destruct (err s); intros [= <-]; simpl; [done|].
    split; [lia|done].
Qed.

Lemma mutex_inv_step c s s' : inv s → step c s = Some s' → inv s'.
Proof.
  destruct c as [|j]; simpl; [apply mutex_inv_main|].
  intros Hinv Hstep. unfold ParallelReduceMutex.inv in *.
  destruct (main s) as [|i| | |res e0] eqn:Hm.
  - destruct Hinv as [_ Hgone]. by rewrite mutex_gone_stuck in Hstep.
  - destruct (mutex_inv_go j s s' Hinv Hstep) as [-> ?]. by rewrite Hm.
  - destruct (mutex_inv_go j s s' Hinv Hstep) as [-> ?]. by rewrite Hm.
  - destruct (mutex_inv_go j s s' Hinv Hstep) as [-> ?]. by rewrite Hm.
  - by rewrite mutex_gone_stuck in Hstep.
Qed.

Lemma mutex_inv_run sched s : run sched init = Some s → inv s.
Proof.
  apply mutex_run_ind; [apply mutex_inv_init|].
  intros c s1 s2. apply mutex_inv_step.
Qed.

(** *** The call returns under every schedule *)

Lemma mutex_step_cost c s s' :
  inv s → step c s = Some s' →
  ParallelReduceMutex.cost s' < ParallelReduceMutex.cost s.
Proof.
  intros Hinv. pose proof (mutex_round_end s Hinv) as Hend.
  destruct s as [m it nx e sm g].
  destruct c as [|j];
    unfold ParallelReduceMutex.step, ParallelReduceMutex.cost,
      ParallelReduceMutex.main_cost, ParallelReduceMutex.head_cost; simpl.
  - unfold ParallelReduceMutex.step_main; simpl.
    destruct m as [|i| | |res e0]; simpl in *.
    + destruct it as [|a [|b rest]]; [done| |]; intros [= <-]; simpl; lia.
    + destruct (Nat.ltb_spec (S i) (length it)).
      * destruct (sm <? nworkers); [|done].
        destruct (it !! i); [|done]. destruct (it !! S i); [|done].
        intros [= <-]; simpl. rewrite sum_list_snoc. simpl. lia.
      * intros [= <-]; simpl. lia.
    + destruct (length it mod 2 =? 1).
      * destruct (it !! (length it - 1)); [|done]. intros [= <-]; simpl. lia.
      * intros [= <-]; simpl. lia.
    + destruct (forallb _ _); [|done].
      destruct (Hend eq_refl eq_refl) as [_ Hlen].
      destruct e; intros [= <-]; simpl; lia.
    + done.
  - unfold ParallelReduceMutex.step_go; simpl.
    destruct (g !! j) as [[a b| | |]|] eqn:Hj; [| | |done|done].
    + destruct (f a b) as [res [e'|]]; intros [= <-]; simpl.
      * pose proof (sum_list_insert go_cost g j _ GRelease Hj). simpl in *. lia.
      * pose proof (sum_list_insert go_cost g j _ GRelease Hj). simpl in *. lia.
    + intros [= <-]; simpl.
      pose proof (sum_list_insert go_cost g j _ GFinish Hj). simpl in *. lia.
    + intros [= <-]; simpl.
      pose proof (sum_list_insert go_cost g j _ GGone Hj). simpl in *. lia.
Qed.

Lemma mutex_run_cost sched s s' :
  inv s → run sched s = Some s' →
  length sched + ParallelReduceMutex.cost s' ≤ ParallelReduceMutex.cost s.
Proof.
  revert s. induction sched as [|c sched IH]; intros s Hinv; simpl.
  - intros [= <-]. lia.
  - destruct (step c s) as [s1|] eqn:Hc; [|done].
    intros Hrun%IH; [|by eapply mutex_inv_step].
    apply mutex_step_cost in Hc; [lia|done].
Qed.

Lemma mutex_go_enabled j s g :
  gs s !! j = Some g → g ≠ GGone → is_Some (step_go j s).
Proof.
  intros Hj Hg. unfold ParallelReduceMutex.step_go. rewrite Hj.
  destruct g as [a b| | |]; [|eauto..|done].
  destruct (f a b) as [res [e|]]; eauto.
Qed.

Lemma mutex_progress s :
  inv s → ¬ ParallelReduceMutex.returned s → ∃ c s', step c s = Some s'.
Proof.
  pose proof mutex_nworkers_pos as Hpos. intros Hinv.
  pose proof (mutex_round_end s Hinv) as Hend. revert Hinv.
  unfold ParallelReduceMutex.inv, ParallelReduceMutex.returned.
  destruct (main s) as [|i| | |res e0] eqn:Hm; intros Hinv Hret; [| | | |done].
  - exists CMain. simpl. unfold ParallelReduceMutex.step_main. rewrite Hm.
    destruct Hinv as [Hit _].
    destruct (items s) as [|a [|b rest]]; simpl in Hit; [lia|eauto..].
  - destruct Hinv as [Hit Heven Hcount Hsem Hgo Hperm Herr].
    destruct (Nat.ltb_spec (S i) (length (items s))) as [Hlt|Hge].
    + destruct (Nat.ltb_spec (sem s) nworkers) as [Hfree|Hfull].
      * exists CMain. simpl. unfold ParallelReduceMutex.step_main. rewrite Hm.
        rewrite (proj2 (Nat.ltb_lt _ _) Hlt), (proj2 (Nat.ltb_lt _ _) Hfree).
        destruct (lookup_lt_is_Some_2 (items s) i) as [a ->]; [lia|].
        destruct (lookup_lt_is_Some_2 (items s) (S i)) as [b ->]; [lia|].
        eauto.
      * destruct (sum_list_pos holds (gs s)) as (j & g & Hj & Hg); [lia|].
        destruct (mutex_go_enabled j s g) as [s' Hs'];
          [done|intros ->; simpl in Hg; lia|].
        by exists (CGo j), s'.
    + exists CMain. simpl. unfold ParallelReduceMutex.step_main. rewrite Hm.
      rewrite (proj2 (Nat.ltb_ge _ _) Hge). eauto.
  - destruct Hinv as [Hit Heven Hcount Hsem Hgo Hperm Herr].
    exists CMain. simpl. unfold ParallelReduceMutex.step_main. rewrite Hm.
    destruct (length (items s) mod 2 =? 1); [|eauto].
    destruct (lookup_lt_is_Some_2 (items s) (length (items s) - 1))
      as [x ->]; [lia|]. eauto.
  - destruct (forallb ParallelReduceMutex.is_gone (gs s)) eqn:Hall.
    + exists CMain. simpl. unfold ParallelReduceMutex.step_main.
      rewrite Hm, Hall. destruct (err s); eauto.
    + apply forallb_false_lookup in Hall as (j & g & Hj & Hg).
      destruct (mutex_go_enabled j s g) as [s' Hs']; [done|by intros ->|].
      by exists (CGo j), s'.
Qed.

Lemma mutex_completes s :
  inv s → ∃ sched s', run sched s = Some s' ∧ ParallelReduceMutex.returned s'.
Proof.
  remember (ParallelReduceMutex.cost s) as n eqn:Hn. revert s Hn.
  induction (lt_wf n) as [n _ IH]. intros s -> Hinv.
  destruct (main s) as [|i| | |res e0] eqn:Hm.
  5:{ exists [], s. split; [done|].
      unfold ParallelReduceMutex.returned. by rewrite Hm. }
  all: destruct (mutex_progress s Hinv) as (c & s1 & Hc);
         [unfold ParallelReduceMutex.returned; rewrite Hm; tauto|];
       destruct (IH (ParallelReduceMutex.cost s1)
                    (mutex_step_cost _ _ _ Hinv Hc) s1 eq_refl
                    (mutex_inv_step _ _ _ Hinv Hc))
         as (sched & s' & Hrun & Hret);
       exists (c :: sched), s'; simpl; rewrite Hc; done.
Qed.

(** *** At most [nworkers] invocations at a time *)

Lemma mutex_inflight_bound s : inv s → ParallelReduceMutex.inflight s ≤ nworkers.
Proof.
  unfold ParallelReduceMutex.inv, ParallelReduceMutex.inflight. intros Hinv.
  assert (Hgone : Forall (λ g, g = GGone) (gs s) →
    sum_list_with (λ g, Nat.b2n (ParallelReduceMutex.in_call g)) (gs s)
    ≤ nworkers).
  { intros Hall. rewrite sum_list_zero; [lia|].
    intros g Hg. eapply Forall_forall in Hall; [|done]. by subst g. }
  assert (Hrnd : in_round s →
    sum_list_with (λ g, Nat.b2n (ParallelReduceMutex.in_call g)) (gs s)
    ≤ nworkers).
  { intros [_ _ _ [Hsem Hle] _ _ _]. etrans; [|exact Hle]. rewrite Hsem.
    apply sum_list_mono. intros []; simpl; lia. }
  destruct (main s); auto. destruct Hinv as [_ Hall]. auto.
Qed.

(** *** Commutative and associative functions *)

Section Commutative.
Hypothesis assoc : ∀ a b c, op (op a b) c = op a (op b c).
Hypothesis comm : ∀ a b, op a b = op b a.
Hypothesis error_free : ∀ a b, snd (f a b) = None.

Lemma fold_left_perm l l' x :
  l ≡ₚ l' → fold_left op l x = fold_left op l' x.
Proof.
  intros Hp. revert x.
  induction Hp as [|y l l' _ IH|y z l|l l' l'' _ IH1 _ IH2]; intros x; simpl.
  - done.
  - apply IH.
  - f_equal. by rewrite assoc, (comm z y), <- assoc.
  - by rewrite IH1.
Qed.

Lemma fold1_perm l l' :
  l ≡ₚ l' → ParallelReduce.fold1 zero f l = ParallelReduce.fold1 zero f l'.
Proof.
  induction 1 as [|y l l' Hp _|y z l|l l' l'' _ IH1 _ IH2]; simpl.
  - done.
  - by apply fold_left_perm.
  - f_equal. apply comm.
  - by rewrite IH1.
Qed.

Lemma mutex_tracks_step c s s' :
  inv s → ParallelReduceMutex.tracks zero v f s → step c s = Some s' →
  ParallelReduceMutex.tracks zero v f s'.
Proof.
  intros Hinv Htr. pose proof (mutex_round_end s Hinv) as Hend.
  destruct c as [|j]; simpl.
  - unfold ParallelReduceMutex.step_main, ParallelReduceMutex.tracks in *.
    destruct (main s) as [|i| | |res e0] eqn:Hm; [| | | |done].
    + destruct (items s) as [|a [|b l]] eqn:Hits; [done| |];
        intros [= <-]; simpl; [|done]. split; [|done]. by rewrite <- Htr.
    + destruct (S i <? length (items s)).
      * destruct (sem s <? nworkers); [|done].
        destruct (items s !! i); [|done]. destruct (items s !! S i); [|done].
        by intros [= <-].
      * by intros [= <-].
    + destruct (length (items s) mod 2 =? 1).
      * destruct (items s !! (length (items s) - 1)); [|done].
        by intros [= <-].
      * by intros [= <-].
    + destruct (forallb ParallelReduceMutex.is_gone (gs s)) eqn:Hall; [|done].
      destruct Htr as [Htr He]. rewrite He. intros [= <-]; simpl.
      destruct (Hend eq_refl eq_refl) as [Hperm _].
      rewrite (fold1_perm _ _ Hperm), <- Htr.
      by apply ReduceFacts.fold1_pairwise.
  - unfold ParallelReduceMutex.step_go, ParallelReduceMutex.tracks in *.
    destruct (gs s !! j) as [[a b| | |]|]; [| | |done|done].
    + pose proof (error_free a b) as Hab.
      destruct (f a b) as [res [e|]]; [done|]. by intros [= <-].
    + by intros [= <-].
    + by intros [= <-].
Qed.

Lemma mutex_tracks_run :
  ∀ sched s, run sched init = Some s → ParallelReduceMutex.tracks zero v f s.
Proof.
  intros sched s Hrun.
  enough (inv s ∧ ParallelReduceMutex.tracks zero v f s) as [_ ?]; [done|].
  revert sched s Hrun.
  apply (mutex_run_ind (λ s, inv s ∧ ParallelReduceMutex.tracks zero v f s)).
  - split; [apply mutex_inv_init|].
    unfold ParallelReduceMutex.tracks, ParallelReduceMutex.init.
    by destruct v as [|a [|b l]].
  - intros c s1 s2 [Hinv Htr] Hstep.
    split; [by eapply mutex_inv_step|by eapply mutex_tracks_step].
Qed.
End Commutative.

(** *** A recorded error ends the call *)

Lemma mutex_latched_step e c s s' :
  ParallelReduceMutex.latched zero e s → step c s = Some s' →
  ParallelReduceMutex.latched zero e s'.
Proof.
  intros [He Hm]. destruct c as [|j]; simpl.
  - unfold ParallelReduceMutex.step_main, ParallelReduceMutex.latched.
    destruct (main s) as [|i| | |res e0]; [done| | | |done].
    + destruct (S i <? length (items s)).
      * destruct (sem s <? nworkers); [|done].
        destruct (items s !! i); [|done]. destruct (items s !! S i); [|done].
        by intros [= <-].
      * by intros [= <-].
    + destruct (length (items s) mod 2 =? 1).
      * destruct (items s !! (length (items s) - 1)); [|done].
        by intros [= <-].
      * by intros [= <-].
    + destruct (forallb ParallelReduceMutex.is_gone (gs s)); [|done].
      rewrite He. by intros [= <-].
  - unfold ParallelReduceMutex.step_go, ParallelReduceMutex.latched.
    destruct (gs s !! j) as [[a b| | |]|]; [| | |done|done].
    + destruct (f a b) as [res [e'|]]; intros [= <-]; simpl; [|done].
      by rewrite He.
    + by intros [= <-].
    + by intros [= <-].
Qed.

Lemma mutex_latched_run e sched s s' :
  ParallelReduceMutex.latched zero e s → run sched s = Some s' →
  ParallelReduceMutex.latched zero e s'.
Proof.
  revert s. induction sched as [|c sched IH]; intros s Hl; simpl.
  - by intros [= <-].
  - destruct (step c s) as [s1|] eqn:Hc; [|done].
    apply IH. by eapply mutex_latched_step.
Qed.

End Facts.
End ReduceMutexFacts.

(** The body of ParallelReduce kept in reduce.go terminates for every
    function, associative or not: under every schedule each step lowers a
    cost that starts at no more than [20 * N + 1], no state short of the
    return is stuck, and the call can always be run to its return. *)
Theorem reduce_mutex_terminates {T Err : Type} (zero : T) (numCPU : Z)
    (v : list T) (f : T → T → T * option Err) (opts : Options)
    (sched : list ParallelReduceMutex.choice) (s : ParallelReduceMutex.state) :
  (1 ≤ numCPU)%Z →
  ParallelReduceMutex.run zero numCPU f opts sched
    (ParallelReduceMutex.init zero v) = Some s →
  length sched + ParallelReduceMutex.cost s
  ≤ ParallelReduceMutex.cost (ParallelReduceMutex.init (Err:=Err) zero v)
  ∧ ParallelReduceMutex.cost (ParallelReduceMutex.init (Err:=Err) zero v)
    ≤ 20 * length v + 1
  ∧ (¬ ParallelReduceMutex.returned s →
     ∃ c s', ParallelReduceMutex.step zero numCPU f opts c s = Some s')
  ∧ ∃ sched' s', ParallelReduceMutex.run zero numCPU f opts sched' s = Some s'
                 ∧ ParallelReduceMutex.returned s'.
Proof.
  intros Hhost Hrun.
  pose proof (ReduceMutexFacts.mutex_inv_run zero numCPU v f opts Hhost
                sched s Hrun) as Hinv.
  split; [|split; [|split]].
  - eapply ReduceMutexFacts.mutex_run_cost; [done| |done].
    by apply ReduceMutexFacts.mutex_inv_init.
  - unfold ParallelReduceMutex.cost, ParallelReduceMutex.main_cost,
      ParallelReduceMutex.init, ParallelReduceMutex.head_cost. simpl.
    destruct v as [|a [|b l]]; simpl; lia.
  - by apply ReduceMutexFacts.mutex_progress.
  - by eapply ReduceMutexFacts.mutex_completes.
Qed.

(** Subtraction over [1,2,3,4], the package's non-associativity test. *)
Lemma reduce_mutex_terminates_witness :
  let v := [1; 2; 3; 4]%Z in
  let opts := WithWorkers emptyOptions 2 in
  let sched := [ParallelReduceMutex.CMain; ParallelReduceMutex.CMain;
                ParallelReduceMutex.CMain; ParallelReduceMutex.CGo 1] in
  ∃ s, ParallelReduceMutex.run 0%Z 8 Samples.difference opts sched
         (ParallelReduceMutex.init 0%Z v) = Some s
    ∧ length sched + ParallelReduceMutex.cost s
      ≤ ParallelReduceMutex.cost (ParallelReduceMutex.init (Err:=string) 0%Z v)
    ∧ ParallelReduceMutex.cost (ParallelReduceMutex.init (Err:=string) 0%Z v)
      ≤ 20 * length v + 1
    ∧ (¬ ParallelReduceMutex.returned s →
       ∃ c s', ParallelReduceMutex.step 0%Z 8 Samples.difference opts c s
               = Some s')
    ∧ ∃ sched' s', ParallelReduceMutex.run 0%Z 8 Samples.difference opts
                     sched' s = Some s'
                   ∧ ParallelReduceMutex.returned s'.
Proof.
  intros v opts sched. eexists. split; [vm_compute; reflexivity|].
  apply (reduce_mutex_terminates 0%Z 8 v Samples.difference opts sched);
    [lia|vm_compute; reflexivity].
Defined.

(** In reduce.go the round buffer is filled in completion order, but at the
    end of every round it holds the right elements: it is a permutation of
    what the indexed buffer would hold (the values of [f] on the adjacent
    pairs, and the last element when the count is odd), so it has
    [(m + 1) / 2] elements; every goroutine was started on an adjacent pair;
    and unless an error was recorded the buffer is the next round's
    input. *)
Theorem reduce_mutex_round {T Err : Type} (zero : T) (numCPU : Z)
    (v : list T) (f : T → T → T * option Err) (opts : Options)
    (sched : list ParallelReduceMutex.choice) (s : ParallelReduceMutex.state) :
  (1 ≤ numCPU)%Z →
  ParallelReduceMutex.run zero numCPU f opts sched
    (ParallelReduceMutex.init zero v) = Some s →
  (∀ k a b, ParallelReduceMutex.gs s !! k = Some (ParallelReduceMutex.GCall a b) →
     ParallelReduceMutex.items s !! (2 * k) = Some a
     ∧ ParallelReduceMutex.items s !! (2 * k + 1) = Some b)
  ∧ (ParallelReduceMutex.main s = ParallelReduceMutex.RWait →
     forallb ParallelReduceMutex.is_gone (ParallelReduceMutex.gs s) = true →
     ParallelReduceMutex.next s
     ≡ₚ ParallelReduce.pairwise f (ParallelReduceMutex.items s)
     ∧ length (ParallelReduceMutex.next s)
       = (length (ParallelReduceMutex.items s) + 1) / 2
     ∧ length (ParallelReduceMutex.gs s)
       = length (ParallelReduceMutex.items s) / 2
     ∧ (ParallelReduceMutex.err s = None →
        ∃ s', ParallelReduceMutex.step zero numCPU f opts
                ParallelReduceMutex.CMain s = Some s'
              ∧ ParallelReduceMutex.main s' = ParallelReduceMutex.RHead
              ∧ ParallelReduceMutex.items s' = ParallelReduceMutex.next s)).
Proof.
  intros Hhost Hrun.
  pose proof (ReduceMutexFacts.mutex_inv_run zero numCPU v f opts Hhost
                sched s Hrun) as Hinv.
  split.
  - intros k a b Hk. unfold ParallelReduceMutex.inv in Hinv.
    assert (Hno : ¬ Forall (λ g, g = ParallelReduceMutex.GGone)
                      (ParallelReduceMutex.gs s)).
    { intros Hall. eapply Forall_forall in Hall;
        [|by eapply list_elem_of_lookup_2]. done. }
    destruct (ParallelReduceMutex.main s) as [|i| | |res e0].
    + by destruct Hinv.
    + destruct Hinv as [_ _ _ _ Hgo _ _]. by apply Hgo.
    + destruct Hinv as [_ _ _ _ Hgo _ _]. by apply Hgo.
    + destruct Hinv as [_ _ _ _ Hgo _ _]. by apply Hgo.
    + done.
  - intros Hm Hall.
    destruct (ReduceMutexFacts.mutex_round_end numCPU f opts s Hinv Hm Hall)
      as [Hperm Hlen].
    split; [done|]. split; [done|]. split.
    + unfold ParallelReduceMutex.inv in Hinv. rewrite Hm in Hinv.
      destruct Hinv as [_ _ Hcount _ _ _ _].
      unfold ParallelReduceMutex.spawned in Hcount. by rewrite Hm in Hcount.
    + intros He. simpl. unfold ParallelReduceMutex.step_main.
      rewrite Hm, Hall, He. eauto.
Qed.

(** Concatenation on [[1],[2],[3],[4]] with the second pair finishing
    first, stopped at the end of the first round: the buffer is
    [[3,4],[1,2]]. *)
Lemma reduce_mutex_round_witness :
  let v := [[1]; [2]; [3]; [4]]%Z in
  let opts := WithWorkers emptyOptions 2 in
  let sched := [ParallelReduceMutex.CMain; ParallelReduceMutex.CMain;
                ParallelReduceMutex.CMain; ParallelReduceMutex.CMain;
                ParallelReduceMutex.CMain;
                ParallelReduceMutex.CGo 1; ParallelReduceMutex.CGo 0;
                ParallelReduceMutex.CGo 0; ParallelReduceMutex.CGo 0;
                ParallelReduceMutex.CGo 1; ParallelReduceMutex.CGo 1] in
  ∃ s, ParallelReduceMutex.run [] 8 Samples.concat opts sched
         (ParallelReduceMutex.init [] v) = Some s
    ∧ ParallelReduceMutex.main s = ParallelReduceMutex.RWait
    ∧ forallb ParallelReduceMutex.is_gone (ParallelReduceMutex.gs s) = true
    ∧ ParallelReduceMutex.next s = [[3; 4]; [1; 2]]%Z
    ∧ (∀ k a b,
         ParallelReduceMutex.gs s !! k = Some (ParallelReduceMutex.GCall a b) →
         ParallelReduceMutex.items s !! (2 * k) = Some a
         ∧ ParallelReduceMutex.items s !! (2 * k + 1) = Some b)
    ∧ (ParallelReduceMutex.main s = ParallelReduceMutex.RWait →
       forallb ParallelReduceMutex.is_gone (ParallelReduceMutex.gs s) = true →
       ParallelReduceMutex.next s
       ≡ₚ ParallelReduce.pairwise Samples.concat (ParallelReduceMutex.items s)
       ∧ length (ParallelReduceMutex.next s)
         = (length (ParallelReduceMutex.items s) + 1) / 2
       ∧ length (ParallelReduceMutex.gs s)
         = length (ParallelReduceMutex.items s) / 2
       ∧ (ParallelReduceMutex.err s = None →
          ∃ s', ParallelReduceMutex.step [] 8 Samples.concat opts
                  ParallelReduceMutex.CMain s = Some s'
                ∧ ParallelReduceMutex.main s' = ParallelReduceMutex.RHead
                ∧ ParallelReduceMutex.items s' = ParallelReduceMutex.next s)).
Proof.
  intros v opts sched. eexists. split; [vm_compute; reflexivity|].
  split; [reflexivity|]. split; [reflexivity|]. split; [reflexivity|].
  apply (reduce_mutex_round [] 8 v Samples.concat opts sched);
    [lia|vm_compute; reflexivity].
Defined.

(** For a function that never fails and is associative and commutative, the
    body in reduce.go returns the left fold of a nonempty input under every
    worker count and every schedule.  (Without commutativity it need not:
    concatenation is a counterexample.) *)
Theorem reduce_mutex_commutative {T Err : Type} (zero : T) (numCPU : Z)
    (x : T) (xs : list T) (f : T → T → T * option Err) (opts : Options)
    (sched : list ParallelReduceMutex.choice) (s : ParallelReduceMutex.state) :
  (1 ≤ numCPU)%Z →
  (∀ a b, snd (f a b) = None) →
  (∀ a b c, fst (f (fst (f a b)) c) = fst (f a (fst (f b c)))) →
  (∀ a b, fst (f a b) = fst (f b a)) →
  ParallelReduceMutex.run zero numCPU f opts sched
    (ParallelReduceMutex.init zero (x :: xs)) = Some s →
  (∃ sched' s', ParallelReduceMutex.run zero numCPU f opts sched' s = Some s'
                ∧ ParallelReduceMutex.returned s')
  ∧ ∀ res err, ParallelReduceMutex.main s = ParallelReduceMutex.RRet res err →
      res = fold_left (λ a b, fst (f a b)) xs x ∧ err = None.
Proof.
  intros Hhost Hfree Hassoc Hcomm Hrun. split.
  - eapply ReduceMutexFacts.mutex_completes; [done|].
    by eapply ReduceMutexFacts.mutex_inv_run.
  - intros res err Hm.
    pose proof (ReduceMutexFacts.mutex_tracks_run zero numCPU (x :: xs) f opts
                  Hhost Hassoc Hcomm Hfree sched s Hrun) as Htr.
    unfold ParallelReduceMutex.tracks in Htr. rewrite Hm in Htr. exact Htr.
Qed.

(** Summing [1..4] with the second pair finishing first. *)
Lemma reduce_mutex_commutative_witness :
  let opts := WithWorkers emptyOptions 2 in
  let sched := [ParallelReduceMutex.CMain; ParallelReduceMutex.CMain;
                ParallelReduceMutex.CMain; ParallelReduceMutex.CMain;
                ParallelReduceMutex.CMain;
                ParallelReduceMutex.CGo 1; ParallelReduceMutex.CGo 0;
                ParallelReduceMutex.CGo 0; ParallelReduceMutex.CGo 0;
                ParallelReduceMutex.CGo 1; ParallelReduceMutex.CGo 1;
                ParallelReduceMutex.CMain; ParallelReduceMutex.CMain;
                ParallelReduceMutex.CMain; ParallelReduceMutex.CMain;
                ParallelReduceMutex.CMain;
                ParallelReduceMutex.CGo 0; ParallelReduceMutex.CGo 0;
                ParallelReduceMutex.CGo 0;
                ParallelReduceMutex.CMain; ParallelReduceMutex.CMain] in
  ∃ s, ParallelReduceMutex.run 0%Z 8 Samples.sum opts sched
         (ParallelReduceMutex.init 0%Z [1; 2; 3; 4]%Z) = Some s
    ∧ ParallelReduceMutex.main s = ParallelReduceMutex.RRet 10%Z None
    ∧ ∀ res err, ParallelReduceMutex.main s = ParallelReduceMutex.RRet res err →
        res = fold_left (λ a b, fst (Samples.sum a b)) [2; 3; 4]%Z 1%Z
        ∧ err = None.
Proof.
  intros opts sched. eexists. split; [vm_compute; reflexivity|].
  split; [reflexivity|].
  apply (reduce_mutex_commutative 0%Z 8 1%Z [2; 3; 4]%Z Samples.sum opts sched);
    [lia|reflexivity|intros a b c; simpl; lia|intros a b; simpl; lia
    |vm_compute; reflexivity].
Defined.

(** In reduce.go, when an invocation of [f] returns an error the recorded
    error is the one already recorded if there was one and this one
    otherwise; from then on it does not change, the loop test is never
    reached again, the call returns, and it returns the zero value together
    with that error. *)
Theorem reduce_mutex_error {T Err : Type} (zero : T) (numCPU : Z)
    (v : list T) (f : T → T → T * option Err) (opts : Options)
    (sched : list ParallelReduceMutex.choice) (s : ParallelReduceMutex.state)
    (j : nat) (a b : T) (e' : Err) :
  (1 ≤ numCPU)%Z →
  ParallelReduceMutex.run zero numCPU f opts sched
    (ParallelReduceMutex.init zero v) = Some s →
  ParallelReduceMutex.gs s !! j = Some (ParallelReduceMutex.GCall a b) →
  snd (f a b) = Some e' →
  ∃ s1 e,
    ParallelReduceMutex.step zero numCPU f opts (ParallelReduceMutex.CGo j) s
    = Some s1
    ∧ ParallelReduceMutex.err s1 = Some e
    ∧ e = default e' (ParallelReduceMutex.err s)
    ∧ ∀ sched' s',
        ParallelReduceMutex.run zero numCPU f opts sched' s1 = Some s' →
        ParallelReduceMutex.err s' = Some e
        ∧ ParallelReduceMutex.main s' ≠ ParallelReduceMutex.RHead
        ∧ (∀ res err, ParallelReduceMutex.main s' = ParallelReduceMutex.RRet res err →
             res = zero ∧ err = Some e)
        ∧ ∃ sched'' s'',
            ParallelReduceMutex.run zero numCPU f opts sched'' s' = Some s''
            ∧ ParallelReduceMutex.returned s''.
Proof.
  intros Hhost Hrun Hj Hf.
  pose proof (ReduceMutexFacts.mutex_inv_run zero numCPU v f opts Hhost
                sched s Hrun) as Hinv.
  assert (Hno : ¬ Forall (λ g, g = ParallelReduceMutex.GGone)
                    (ParallelReduceMutex.gs s)).
  { intros Hall. eapply Forall_forall in Hall;
      [|by eapply list_elem_of_lookup_2]. done. }
  destruct (f a b) as [res err] eqn:Hab. simpl in Hf. subst err.
  set (s1 := {| ParallelReduceMutex.main := ParallelReduceMutex.main s;
                ParallelReduceMutex.items := ParallelReduceMutex.items s;
                ParallelReduceMutex.next := ParallelReduceMutex.next s ++ [res];
                ParallelReduceMutex.err :=
                  compareAndSwap (ParallelReduceMutex.err s) e';
                ParallelReduceMutex.sem := ParallelReduceMutex.sem s;
                ParallelReduceMutex.gs :=
                  <[j := ParallelReduceMutex.GRelease]>
                    (ParallelReduceMutex.gs s) |}).
  assert (Hstep : ParallelReduceMutex.step zero numCPU f opts
                    (ParallelReduceMutex.CGo j) s = Some s1).
  { simpl. unfold ParallelReduceMutex.step_go. by rewrite Hj, Hab. }
  set (e := default e' (ParallelReduceMutex.err s)).
  assert (He : ParallelReduceMutex.err s1 = Some e).
  { unfold e. simpl. by destruct (ParallelReduceMutex.err s). }
  assert (Hl : ParallelReduceMutex.latched zero e s1).
  { split; [done|]. simpl. unfold ParallelReduceMutex.inv in Hinv.
    destruct (ParallelReduceMutex.main s); try done. by destruct Hinv. }
  exists s1, e. split; [done|]. split; [done|]. split; [done|].
  intros sched' s' Hrun'.
  destruct (ReduceMutexFacts.mutex_latched_run zero numCPU f opts e sched'
              s1 s' Hl Hrun') as [He' Hm'].
  split; [done|]. split; [|split].
  - intros Hhead. by rewrite Hhead in Hm'.
  - intros res0 err0 Hm0. by rewrite Hm0 in Hm'.
  - eapply ReduceMutexFacts.mutex_completes; [done|].
    revert Hrun'. apply ReduceMutexFacts.mutex_run_ind.
    + by eapply ReduceMutexFacts.mutex_inv_step.
    + intros c s2 s3. by apply ReduceMutexFacts.mutex_inv_step.
Qed.

(** The error test of the package on the body of reduce.go. *)
Lemma reduce_mutex_error_witness :
  let v := [1; 2; 3; 4]%Z in
  let opts := WithWorkers emptyOptions 2 in
  let sched := [ParallelReduceMutex.CMain; ParallelReduceMutex.CMain] in
  ∃ s, ParallelReduceMutex.run 0%Z 8 Samples.failOnTwo opts sched
         (ParallelReduceMutex.init 0%Z v) = Some s
    ∧ ∃ s1 e,
        ParallelReduceMutex.step 0%Z 8 Samples.failOnTwo opts
          (ParallelReduceMutex.CGo 0) s = Some s1
        ∧ ParallelReduceMutex.err s1 = Some e
        ∧ e = default "fail on 2"%string (ParallelReduceMutex.err s)
        ∧ ∀ sched' s',
            ParallelReduceMutex.run 0%Z 8 Samples.failOnTwo opts sched' s1
            = Some s' →
            ParallelReduceMutex.err s' = Some e
            ∧ ParallelReduceMutex.main s' ≠ ParallelReduceMutex.RHead
            ∧ (∀ res err,
                 ParallelReduceMutex.main s' = ParallelReduceMutex.RRet res err →
                 res = 0%Z ∧ err = Some e)
            ∧ ∃ sched'' s'',
                ParallelReduceMutex.run 0%Z 8 Samples.failOnTwo opts sched'' s'
                = Some s''
                ∧ ParallelReduceMutex.returned s''.
Proof.
  intros v opts sched. eexists. split; [vm_compute; reflexivity|].
  apply (reduce_mutex_error 0%Z 8 v Samples.failOnTwo opts sched _
           0 1%Z 2%Z "fail on 2"%string);
    [lia|vm_compute; reflexivity|reflexivity|reflexivity].
Defined.

(** In reduce.go too, at most [effectiveWorkers] invocations of [f] are in
    progress in any reachable state. *)
Theorem reduce_mutex_bounded {T Err : Type} (zero : T) (numCPU : Z)
    (v : list T) (f : T → T → T * option Err) (opts : Options)
    (sched : list ParallelReduceMutex.choice) (s : ParallelReduceMutex.state) :
  (1 ≤ numCPU)%Z →
  ParallelReduceMutex.run zero numCPU f opts sched
    (ParallelReduceMutex.init zero v) = Some s →
  ParallelReduceMutex.inflight s ≤ effectiveWorkers numCPU opts.
Proof.
  intros Hhost Hrun.
  eapply (ReduceMutexFacts.mutex_inflight_bound numCPU f opts).
  by eapply ReduceMutexFacts.mutex_inv_run.
Qed.

(** One worker, two pairs: the second pair is not started while the first
    is being combined. *)
Lemma reduce_mutex_bounded_witness :
  let v := [1; 2; 3; 4]%Z in
  let opts := WithWorkers emptyOptions 1 in
  let sched := [ParallelReduceMutex.CMain; ParallelReduceMutex.CMain] in
  ∃ s, ParallelReduceMutex.run 0%Z 8 Samples.sum opts sched
         (ParallelReduceMutex.init 0%Z v) = Some s
    ∧ ParallelReduceMutex.step 0%Z 8 Samples.sum opts ParallelReduceMutex.CMain s
      = None
    ∧ ParallelReduceMutex.inflight s = 1
    ∧ ParallelReduceMutex.inflight s ≤ effectiveWorkers 8 opts.
Proof.
  intros v opts sched. eexists. split; [vm_compute; reflexivity|].
  split; [reflexivity|]. split; [reflexivity|].
  apply (reduce_mutex_bounded 0%Z 8 v Samples.sum opts sched);
    [lia|vm_compute; reflexivity].
Defined.

(** ** The variant of ParallelTransform with a semaphore *)

Module TransformSemFacts.
Import ParallelTransformSem.

Section Facts.
Context {I O Err : Type}.
Variable zero : O.
Variable numCPU : Z.
Variable v : list I.
Variable f : I → O * option Err.
Variable opts : Options.
Hypothesis host : (1 ≤ numCPU)%Z.

Local Abbreviation nworkers := (ParallelTransformSem.nworkers numCPU opts).
Local Abbreviation step := (ParallelTransformSem.step numCPU v f opts).
Local Abbreviation step_main := (ParallelTransformSem.step_main v opts).
Local Abbreviation step_go := (ParallelTransformSem.step_go numCPU v f opts).
Local Abbreviation run := (ParallelTransformSem.run numCPU v f opts).
Local Abbreviation init := (ParallelTransformSem.init (I:=I) (Err:=Err) zero v).
Local Abbreviation inv := (ParallelTransformSem.inv numCPU v f opts).
Local Abbreviation running := (ParallelTransformSem.running numCPU v f opts).
Local Abbreviation go_ok := (ParallelTransformSem.go_ok v f opts).
Local Abbreviation cost := (ParallelTransformSem.cost (O:=O) (Err:=Err) v).

Lemma sem_nworkers_pos : 1 ≤ nworkers.
Proof.
  unfold ParallelTransformSem.nworkers, effectiveWorkers.
  destruct (Z.leb_spec (workers opts) 0); lia.
Qed.

Lemma sem_run_ind (P : state → Prop) s0 :
  P s0 →
  (∀ c s s', P s → step c s = Some s' → P s') →
  ∀ sched s, run sched s0 = Some s → P s.
Proof.
  intros H0 Hstep sched. revert s0 H0.
  induction sched as [|c sched IH]; intros s0 H0 s; simpl.
  - intros [= <-]. done.
  - destruct (step c s0) as [s1|] eqn:Hc; [|done].
    apply IH. by eapply Hstep.
Qed.

(** *** Every step lowers the cost *)

Lemma sem_step_cost c s s' : step c s = Some s' → cost s' < cost s.
Proof.
  unfold ParallelTransformSem.cost. destruct c as [|j]; simpl.
  - unfold ParallelTransformSem.step_main.
    destruct (main s) as [n| |out err] eqn:Hm; [| |done].
    + destruct (v !! n) as [item|] eqn:Hn; intros [= <-]; simpl.
      * apply lookup_lt_Some in Hn. rewrite sum_list_snoc. simpl. lia.
      * lia.
    + destruct (forallb is_gone (gs s)); [|done]. intros [= <-]; simpl.
      unfold ParallelTransformSem.conclude.
      destruct (stopOnError opts); simpl; lia.
  - unfold ParallelTransformSem.step_go.
    destruct (gs s !! j) as [[i idx|i idx|idx r| | |]|] eqn:Hj; [| | | | |done|done].
    + destruct (sem s <? nworkers); [|done]. intros [= <-]; simpl.
      pose proof (sum_list_insert go_cost _ _ _ (GCall i idx) Hj). simpl in *. lia.
    + destruct (f i) as [res [e|]].
      * destruct (stopOnError opts).
        -- destruct (length (errChan s) <? length v); [|done].
           intros [= <-]; simpl.
           pose proof (sum_list_insert go_cost _ _ _ (GRelease (I:=I) (O:=O)) Hj).
           simpl in *. lia.
        -- intros [= <-]; simpl.
           pose proof (sum_list_insert go_cost _ _ _ (GWrite (I:=I) idx res) Hj).
           simpl in *. lia.
      * intros [= <-]; simpl.
        pose proof (sum_list_insert go_cost _ _ _ (GWrite (I:=I) idx res) Hj).
        simpl in *. lia.
    + intros [= <-]; simpl.
      pose proof (sum_list_insert go_cost _ _ _ (GRelease (I:=I) (O:=O)) Hj).
      simpl in *. lia.
    + intros [= <-]; simpl.
      pose proof (sum_list_insert go_cost _ _ _ (GFinish (I:=I) (O:=O)) Hj).
      simpl in *. lia.
    + intros [= <-]; simpl.
      pose proof (sum_list_insert go_cost _ _ _ (GGone (I:=I) (O:=O)) Hj).
      simpl in *. lia.
Qed.

Lemma sem_run_cost sched s s' :
  run sched s = Some s' → length sched + cost s' ≤ cost s.
Proof.
  revert s. induction sched as [|c sched IH]; intros s; simpl.
  - intros [= <-]. lia.
  - destruct (step c s) as [s1|] eqn:Hc; [|done]. intros Hrun.
    pose proof (sem_step_cost _ _ _ Hc). specialize (IH _ Hrun). lia.
Qed.

(** *** The invariant *)

Lemma sem_all_gone (l : list (@goroutine I O)) :
  forallb is_gone l = true → Forall (λ g, g = GGone) l.
Proof.
  intros Hall. apply Forall_forall. intros x Hx.
  pose proof (forallb_true_elem _ _ _ Hall Hx). by destruct x.
Qed.

Lemma sem_gone_stuck j s :
  Forall (λ g, g = GGone) (gs s) → step_go j s = None.
Proof.
  intros Hall. unfold ParallelTransformSem.step_go.
  destruct (gs s !! j) as [g|] eqn:Hj; [|done].
  apply list_elem_of_lookup_2 in Hj. eapply Forall_forall in Hall; [|done].
  by subst g.
Qed.

Lemma sem_lookup_le (w : goroutine → nat) (l : list (@goroutine I O)) j g :
  l !! j = Some g → w g ≤ sum_list_with w l.
Proof.
  revert j. induction l as [|x l IH]; intros [|j] Hj; simplify_eq/=.
  - lia.
  - specialize (IH _ Hj). lia.
Qed.

Lemma go_ok_frame s s' k g :
  (errChan s ≠ [] → errChan s' ≠ []) →
  results s' !! k = results s !! k →
  go_ok s k g → go_ok s' k g.
Proof.
  intros He Hr (x & Hx & Hg). exists x. split; [done|].
  destruct g as [i idx|i idx|idx r| | |]; [done|done| | | |].
  - destruct Hg as (? & ? & ? & Hne). repeat split; auto.
  - destruct Hg as [Hres Hne]. rewrite Hr. split; auto.
  - destruct Hg as [Hres Hne]. rewrite Hr. split; auto.
  - destruct Hg as [Hres Hne]. rewrite Hr. split; auto.
Qed.

Lemma waiting_insert (l : list (@goroutine I O)) j g g' k :
  l !! j = Some g → waiting g' = waiting g →
  (∃ g0, <[j := g']> l !! k = Some g0 ∧ waiting g0 = false) ↔
  (∃ g0, l !! k = Some g0 ∧ waiting g0 = false).
Proof.
  intros Hj Hw. destruct (decide (k = j)) as [->|Hne].
  - rewrite list_lookup_insert_eq by (by eapply lookup_lt_Some).
    split; intros (g0 & Hg0 & Hw0); simplify_eq.
    + exists g. split; [done|congruence].
    + exists g'. split; [done|congruence].
  - by rewrite list_lookup_insert_ne.
Qed.

(** One goroutine moves from [g] to [g']. *)
Lemma sem_running_update j g g' s s' :
  running s → gs s !! j = Some g →
  main s' = main s → gs s' = <[j := g']> (gs s) →
  length (results s') = length (results s) →
  (∀ k, k ≠ j → results s' !! k = results s !! k) →
  (errChan s ≠ [] → errChan s' ≠ []) →
  sem s' + holds g = sem s + holds g' → sem s' ≤ nworkers →
  go_ok s' j g' →
  Forall (λ e, ∃ x, x ∈ v ∧ snd (f x) = Some e) (errChan s') →
  length (errChan s') + before g' ≤ length (errChan s) + before g →
  (waiting g' = waiting g ∧ started s' = started s
   ∨ waiting g = true ∧ waiting g' = false ∧ started s' = started s ++ [j]) →
  running s'.
Proof.
  intros [Hlen Hcnt Hbnd [Hsem Hle] Hgo Hchan Hroom Hnd Honce]
    Hj Hmain Hgs Hrl Hres Herr Hs1 Hs2 Hnew Hchan' Hroom' Hst.
  constructor.
  - by rewrite Hrl.
  - rewrite Hmain, Hgs, length_insert. done.
  - by rewrite Hgs, length_insert.
  - split; [|done]. rewrite Hgs.
    pose proof (sum_list_insert holds _ _ _ g' Hj). lia.
  - intros k g0. rewrite Hgs. destruct (decide (k = j)) as [->|Hne].
    + rewrite list_lookup_insert_eq by (by eapply lookup_lt_Some).
      by intros [= <-].
    + rewrite list_lookup_insert_ne by done. intros Hk.
      eapply go_ok_frame; [done|by apply Hres|by apply Hgo].
  - done.
  - rewrite Hgs, length_insert.
    pose proof (sum_list_insert before _ _ _ g' Hj). lia.
  - destruct Hst as [[_ ->]|(Hw & _ & ->)]; [done|].
    apply NoDup_app. split; [done|]. split; [|apply NoDup_singleton].
    intros k Hk ->%list_elem_of_singleton.
    apply Honce in Hk as (g0 & Hg0 & Hw0). congruence.
  - intros k. rewrite Hgs. destruct Hst as [[Hw ->]|(Hw & Hw' & ->)].
    + rewrite (waiting_insert _ _ _ _ _ Hj Hw). apply Honce.
    + rewrite elem_of_app, list_elem_of_singleton.
      destruct (decide (k = j)) as [->|Hne].
      * rewrite list_lookup_insert_eq by (by eapply lookup_lt_Some).
        split; [|by right]. intros _. by exists g'.
      * rewrite list_lookup_insert_ne by done. rewrite Honce. tauto.
Qed.

Lemma sem_running_go j s s' :
  running s → step_go j s = Some s' → running s' ∧ main s' = main s.
Proof.
  intros Hrun. pose proof Hrun as
    [Hlen Hcnt Hbnd [Hsem Hle] Hgo Hchan Hroom Hnd Honce].
  unfold ParallelTransformSem.step_go.
  destruct (gs s !! j) as [[i idx|i idx|idx r| | |]|] eqn:Hj;
    [| | | | |done|done];
    destruct (Hgo _ _ Hj) as (x & Hx & Hg).
  - destruct Hg as [-> ->].
    destruct (sem s <? nworkers) eqn:Hlt; [|done].
    apply Nat.ltb_lt in Hlt. intros [= <-]. split; [|done].
    eapply (sem_running_update j (GAcquire x j) (GCall x j) s); simpl; eauto; try lia.
    by exists x.
  - destruct Hg as [-> ->].
    assert (Hin : x ∈ v) by (by eapply list_elem_of_lookup_2).
    destruct (f x) as [res [e|]] eqn:Hfx.
    + destruct (stopOnError opts) eqn:Hstop.
      * destruct (length (errChan s) <? length v); [|done].
        intros [= <-]. split; [|done].
        eapply (sem_running_update j (GCall x j) GRelease s); simpl; eauto; try lia.
        -- intros _. by destruct (errChan s).
        -- exists x. split; [done|]. rewrite Hfx. simpl. split.
           ++ left. split; [done|]. by eexists.
           ++ intros _. by destruct (errChan s).
        -- apply Forall_app. split; [done|]. constructor; [|done].
           exists x. by rewrite Hfx.
        -- rewrite length_app. simpl. lia.
      * intros [= <-]. split; [|done].
        apply lookup_lt_Some in Hx as Hlx.
        eapply (sem_running_update j (GCall x j) (GWrite j res) s); simpl; eauto;
          try lia.
        -- destruct (length (errChan s) <? length v); [|done].
           intros _. by destruct (errChan s).
        -- exists x. split; [done|]. rewrite Hfx, Hstop. simpl.
           split; [done|]. split; [done|]. split; [done|]. intros _.
           destruct (Nat.ltb_spec (length (errChan s)) (length v)) as [Hl|Hl].
           ++ by destruct (errChan s).
           ++ destruct (errChan s); [simpl in Hl; lia|done].
        -- destruct (length (errChan s) <? length v); [|done].
           apply Forall_app. split; [done|]. constructor; [|done].
           exists x. by rewrite Hfx.
        -- destruct (length (errChan s) <? length v);
             rewrite ?length_app; simpl; lia.
    + intros [= <-]. split; [|done].
      eapply (sem_running_update j (GCall x j) (GWrite j res) s); simpl; eauto; try lia.
      exists x. split; [done|]. rewrite Hfx. simpl.
      split; [done|]. split; [done|]. split; [done|]. by intros [? ?].
  - destruct Hg as (-> & -> & Hstop & Hne).
    intros [= <-]. split; [|done].
    apply lookup_lt_Some in Hx as Hlx.
    eapply (sem_running_update j (GWrite j (fst (f x))) GRelease s);
      simpl; eauto; try lia.
    + by rewrite length_insert.
    + intros k Hk. by rewrite list_lookup_insert_ne.
    + exists x. split; [done|]. split; [|done]. right.
      apply list_lookup_insert_eq. lia.
  - intros [= <-]. split; [|done].
    pose proof (sem_lookup_le holds _ _ _ Hj) as Hh. simpl in Hh.
    eapply (sem_running_update j GRelease GFinish s); simpl; eauto; try lia.
    by exists x.
  - intros [= <-]. split; [|done].
    eapply (sem_running_update j GFinish GGone s); simpl; eauto; try lia.
    by exists x.
Qed.

Lemma sem_inv_init : inv init.
Proof.
  unfold ParallelTransformSem.inv. simpl. constructor; simpl.
  - apply length_replicate.
  - done.
  - lia.
  - split; [done|]. pose proof sem_nworkers_pos. lia.
  - intros k g Hk. done.
  - constructor.
  - lia.
  - constructor.
  - intros k. split; [by intros ?%not_elem_of_nil|]. by intros (g & Hg & _).
Qed.

(** What holds when [wg.Wait()] lets the caller through. *)
Lemma sem_final s :
  running s → main s = MWait → Forall (λ g, g = GGone) (gs s) →
  (stopOnError opts = false → results s = (λ x, fst (f x)) <$> v)
  ∧ (errChan s = [] → Forall (λ x, snd (f x) = None) v)
  ∧ started s ≡ₚ seq 0 (length v).
Proof.
  intros [Hlen Hcnt Hbnd [Hsem Hle] Hgo Hchan Hroom Hnd Honce] Hm Hall.
  rewrite Hm in Hcnt.
  assert (Hk : ∀ k x, v !! k = Some x →
    (stopOnError opts = true ∧ is_Some (snd (f x))
     ∨ results s !! k = Some (fst (f x)))
    ∧ (is_Some (snd (f x)) → errChan s ≠ [])).
  { intros k x Hx. destruct (lookup_lt_is_Some_2 (gs s) k) as [g Hg].
    { apply lookup_lt_Some in Hx. lia. }
    pose proof (list_elem_of_lookup_2 _ _ _ Hg) as Hin.
    eapply Forall_forall in Hall; [|done]. subst g.
    destruct (Hgo _ _ Hg) as (x' & Hx' & Hok). by simplify_eq. }
  split; [|split].
  - intros Hstop. apply list_eq. intros k. rewrite list_lookup_fmap.
    destruct (v !! k) as [x|] eqn:Hx; simpl.
    + destruct (Hk _ _ Hx) as [[[? _]|Hr] _]; [congruence|done].
    + apply lookup_ge_None. apply lookup_ge_None in Hx. lia.
  - intros He. apply Forall_forall. intros x (k & Hx)%list_elem_of_lookup.
    destruct (Hk _ _ Hx) as [_ Hne].
    destruct (snd (f x)) as [e|]; [|done]. destruct Hne; [by eexists|done].
  - apply NoDup_Permutation; [done|apply NoDup_seq|].
    intros k. rewrite Honce, elem_of_seq. split.
    + intros (g & Hg & _). apply lookup_lt_Some in Hg. lia.
    + intros [_ Hlt]. destruct (lookup_lt_is_Some_2 (gs s) k) as [g Hg]; [lia|].
      exists g. split; [done|].
      pose proof (list_elem_of_lookup_2 _ _ _ Hg) as Hin.
      eapply Forall_forall in Hall; [|done]. by subst g.
Qed.

Lemma sem_inv_step c s s' : inv s → step c s = Some s' → inv s'.
Proof.
  intros Hinv. destruct c as [|j]; simpl.
  - unfold ParallelTransformSem.step_main, ParallelTransformSem.inv in *.
    destruct (main s) as [n| |out err] eqn:Hm; [| |done].
    + pose proof Hinv as
        [Hlen Hcnt Hbnd [Hsem Hle] Hgo Hchan Hroom Hnd Honce].
      rewrite Hm in Hcnt.
      destruct (v !! n) as [item|] eqn:Hn; intros [= <-]; simpl.
      * apply lookup_lt_Some in Hn as Hln. constructor; simpl.
        -- done.
        -- rewrite length_app. simpl. lia.
        -- rewrite length_app. simpl. lia.
        -- split; [|done]. rewrite sum_list_snoc. simpl. lia.
        -- intros k g [Hk|[Hk Hg]]%lookup_app_Some.
           ++ by apply Hgo.
           ++ destruct (k - length (gs s)) as [|d] eqn:Hd; [|done].
              simpl in Hg. simplify_eq. exists item.
              assert (k = length (gs s)) as -> by lia. done.
        -- done.
        -- rewrite sum_list_snoc, length_app. simpl. lia.
        -- done.
        -- intros k. rewrite Honce. split.
           ++ intros (g & Hg & Hw). exists g. split; [|done].
              apply lookup_app_Some. by left.
           ++ intros (g & [Hg|[Hk Hg]]%lookup_app_Some & Hw); [by exists g|].
              destruct (k - length (gs s)) as [|d]; [|done].
              simpl in Hg. by simplify_eq.
      * apply lookup_ge_None in Hn. constructor; simpl; try done. lia.
    + destruct (forallb is_gone (gs s)) eqn:Hall; [|done].
      apply sem_all_gone in Hall. intros [= <-].
      destruct (sem_final s Hinv Hm Hall) as (Hres & Hnone & Hperm).
      pose proof Hinv as [_ _ _ _ _ Hchan _ _ _].
      assert (Herr : match head (errChan s) with
                     | None => Forall (λ x, snd (f x) = None) v
                     | Some e => ∃ x, x ∈ v ∧ snd (f x) = Some e
                     end).
      { destruct (errChan s) as [|e l]; simpl; [by apply Hnone|].
        by inversion Hchan. }
      unfold ParallelTransformSem.conclude, ParallelTransformSem.post. simpl.
      destruct (stopOnError opts) eqn:Hstop; simpl; rewrite ?Hstop.
      * done.
      * split; [done|]. split; [|done]. split; [|done].
        by rewrite Hres.
  - intros Hstep. unfold ParallelTransformSem.inv in *.
    destruct (main s) as [n| |out err] eqn:Hm.
    + destruct (sem_running_go _ _ _ Hinv Hstep) as [Hrun Hmain].
      by rewrite Hmain, Hm.
    + destruct (sem_running_go _ _ _ Hinv Hstep) as [Hrun Hmain].
      by rewrite Hmain, Hm.
    + destruct Hinv as [Hall _]. simpl in Hstep.
      by rewrite (sem_gone_stuck _ _ Hall) in Hstep.
Qed.

Lemma sem_inv_run : ∀ sched s, run sched init = Some s → inv s.
Proof. apply sem_run_ind; [apply sem_inv_init|apply sem_inv_step]. Qed.

Lemma sem_inv_run_from sched s s' : inv s → run sched s = Some s' → inv s'.
Proof.
  intros Hinv. revert s'. apply sem_run_ind; [done|apply sem_inv_step].
Qed.

(** *** No state short of the return is stuck *)

Lemma sem_holder_enabled j s g :
  running s → gs s !! j = Some g → waiting g = false → g ≠ GGone →
  ∃ s', step_go j s = Some s'.
Proof.
  intros [Hlen Hcnt Hbnd [Hsem Hle] Hgo Hchan Hroom Hnd Honce] Hj Hw Hg.
  unfold ParallelTransformSem.step_go. rewrite Hj.
  destruct g as [i idx|i idx|idx r| | |]; [done| | | | |done].
  - pose proof (sem_lookup_le before _ _ _ Hj) as Hb. simpl in Hb.
    assert ((length (errChan s) <? length v) = true) as ->
      by (apply Nat.ltb_lt; lia).
    destruct (f i) as [res [e|]]; [destruct (stopOnError opts)|]; by eexists.
  - by eexists.
  - by eexists.
  - by eexists.
Qed.

Lemma sem_go_enabled j s g :
  running s → gs s !! j = Some g → g ≠ GGone → ∃ c s', step c s = Some s'.
Proof.
  intros Hrun Hj Hg. destruct (waiting g) eqn:Hw.
  - destruct g as [i idx| | | | |]; try done.
    destruct (Nat.ltb_spec (sem s) nworkers) as [Hlt|Hge].
    + exists (CGo j). simpl. unfold ParallelTransformSem.step_go.
      rewrite Hj. rewrite (proj2 (Nat.ltb_lt _ _) Hlt). by eexists.
    + pose proof Hrun as [_ _ _ [Hsem _] _ _ _ _ _].
      pose proof sem_nworkers_pos as Hpos.
      destruct (sum_list_pos holds (gs s)) as (j' & g' & Hj' & Hh); [lia|].
      destruct (sem_holder_enabled j' s g' Hrun Hj') as [s' Hs'].
      * destruct g'; simpl in *; done || lia.
      * intros ->. simpl in Hh. lia.
      * by exists (CGo j'), s'.
  - destruct (sem_holder_enabled j s g Hrun Hj Hw Hg) as [s' Hs'].
    by exists (CGo j), s'.
Qed.

Lemma sem_progress s :
  inv s → ¬ ParallelTransformSem.returned s → ∃ c s', step c s = Some s'.
Proof.
  unfold ParallelTransformSem.inv, ParallelTransformSem.returned.
  intros Hinv Hret. destruct (main s) as [n| |out err] eqn:Hm; [| |done].
  - exists CMain. simpl. unfold ParallelTransformSem.step_main. rewrite Hm.
    destruct (v !! n); by eexists.
  - destruct (forallb is_gone (gs s)) eqn:Hall.
    + exists CMain. simpl. unfold ParallelTransformSem.step_main.
      rewrite Hm, Hall. by eexists.
    + apply forallb_false_lookup in Hall as (j & g & Hj & Hg).
      eapply sem_go_enabled; [done|done|]. by intros ->.
Qed.

Lemma sem_completes s :
  inv s → ∃ sched s', run sched s = Some s' ∧ ParallelTransformSem.returned s'.
Proof.
  remember (cost s) as n eqn:Hn. revert s Hn.
  induction (lt_wf n) as [n _ IH]. intros s -> Hinv.
  destruct (main s) as [k| |out err] eqn:Hm.
  3:{ exists [], s. split; [done|].
      unfold ParallelTransformSem.returned. by rewrite Hm. }
  all: destruct (sem_progress s Hinv) as (c & s1 & Hc);
         [unfold ParallelTransformSem.returned; rewrite Hm; tauto|];
       destruct (IH (cost s1) (sem_step_cost _ _ _ Hc) s1 eq_refl
                    (sem_inv_step _ _ _ Hinv Hc))
         as (sched & s' & Hrun & Hret);
       exists (c :: sched), s'; simpl; rewrite Hc; done.
Qed.

(** *** At most [nworkers] invocations at a time *)

Lemma sem_inflight_bound s : inv s → ParallelTransformSem.inflight s ≤ nworkers.
Proof.
  unfold ParallelTransformSem.inv, ParallelTransformSem.inflight. intros Hinv.
  assert (Hrnd : running s →
    sum_list_with (λ g, Nat.b2n (in_call g)) (gs s) ≤ nworkers).
  { intros [_ _ _ [Hsem Hle] _ _ _ _ _]. etrans; [|exact Hle]. rewrite Hsem.
    apply sum_list_mono. intros []; simpl; lia. }
  destruct (main s); auto. destruct Hinv as [Hall _].
  rewrite sum_list_zero; [lia|].
  intros g Hg. eapply Forall_forall in Hall; [|done]. by subst g.
Qed.

End Facts.
End TransformSemFacts.

(** C1 does not hold of the body kept in reduce_test.go.  Doubling never
    fails, yet with the fail-fast policy the call on [1, 2, 3] returns
    neither an output nor an error: the results [2, 4, 6] are computed and
    then dropped, because the receive on the closed error channel is ready
    and its branch returns [nil] in place of them. *)
Theorem transform_error_free_lost_output :
  let v := [1; 2; 3]%Z in
  let opts := StopOnError (WithWorkers emptyOptions 2) true in
  let sched := ParallelTransformSem.plan 8 v Samples.double opts 100
                 (ParallelTransformSem.init 0%Z v) in
  (∀ x, snd (Samples.double x) = None)
  ∧ ∃ s, ParallelTransformSem.run 8 v Samples.double opts sched
           (ParallelTransformSem.init 0%Z v) = Some s
      ∧ ParallelTransformSem.errChan s = []
      ∧ ParallelTransformSem.results s = [2; 4; 6]%Z
      ∧ ParallelTransformSem.main s = ParallelTransformSem.MRet None None.
Proof.
  intros v opts sched. split; [done|].
  eexists. split; [vm_compute; reflexivity|].
  repeat (split; [reflexivity|]). reflexivity.
Qed.

(** The body of ParallelTransform kept in reduce_test.go terminates: under
    every schedule each step lowers a cost that starts at [6 * N + 2], no
    state short of the return is stuck (a goroutine waiting for the
    semaphore waits for one that holds a token and can move), and the call
    can always be run to its return. *)
Theorem transform_sem_terminates {I O Err : Type} (zero : O) (numCPU : Z)
    (v : list I) (f : I → O * option Err) (opts : Options)
    (sched : list ParallelTransformSem.choice)
    (s : ParallelTransformSem.state) :
  (1 ≤ numCPU)%Z →
  ParallelTransformSem.run numCPU v f opts sched
    (ParallelTransformSem.init zero v) = Some s →
  length sched + ParallelTransformSem.cost v s ≤ 6 * length v + 2
  ∧ (¬ ParallelTransformSem.returned s →
     ∃ c s', ParallelTransformSem.step numCPU v f opts c s = Some s')
  ∧ ∃ sched' s', ParallelTransformSem.run numCPU v f opts sched' s = Some s'
                 ∧ ParallelTransformSem.returned s'.
Proof.
  intros Hhost Hrun.
  pose proof (TransformSemFacts.sem_inv_run zero numCPU v f opts Hhost
                sched s Hrun) as Hinv.
  split; [|split].
  - pose proof (TransformSemFacts.sem_run_cost numCPU v f opts _ _ _ Hrun)
      as Hc.
    unfold ParallelTransformSem.cost at 2 in Hc. simpl in Hc. lia.
  - exact (TransformSemFacts.sem_progress numCPU v f opts Hhost s Hinv).
  - exact (TransformSemFacts.sem_completes numCPU v f opts Hhost s Hinv).
Qed.

(** Three elements and one token: after the three goroutines are started
    and the first holds the token, the call still runs to its return. *)
Lemma transform_sem_terminates_witness :
  let v := [1; 2; 3]%Z in
  let opts := WithWorkers emptyOptions 1 in
  let sched := [ParallelTransformSem.CMain; ParallelTransformSem.CMain;
                ParallelTransformSem.CMain; ParallelTransformSem.CGo 1] in
  ∃ s, ParallelTransformSem.run 8 v Samples.double opts sched
         (ParallelTransformSem.init 0%Z v) = Some s
    ∧ length sched + ParallelTransformSem.cost v s ≤ 6 * length v + 2
    ∧ (¬ ParallelTransformSem.returned s →
       ∃ c s', ParallelTransformSem.step 8 v Samples.double opts c s = Some s')
    ∧ ∃ sched' s', ParallelTransformSem.run 8 v Samples.double opts sched' s
                   = Some s'
                   ∧ ParallelTransformSem.returned s'.
Proof.
  intros v opts sched. eexists. split; [vm_compute; reflexivity|].
  apply (transform_sem_terminates 0%Z 8 v Samples.double opts sched);
    [lia|vm_compute; reflexivity].
Defined.

(** With the continue policy, that body returns the value of [f] at every
    position, in input order, under every schedule; the error it returns is
    one that [f] returned on an element, and it is nil exactly when no
    element fails. *)
Theorem transform_sem_continue {I O Err : Type} (zero : O) (numCPU : Z)
    (v : list I) (f : I → O * option Err) (opts : Options)
    (sched : list ParallelTransformSem.choice)
    (s : ParallelTransformSem.state) (out : option (list O))
    (err : option Err) :
  (1 ≤ numCPU)%Z →
  stopOnError opts = false →
  ParallelTransformSem.run numCPU v f opts sched
    (ParallelTransformSem.init zero v) = Some s →
  ParallelTransformSem.main s = ParallelTransformSem.MRet out err →
  out = Some ((λ x, fst (f x)) <$> v)
  ∧ (err = None ↔ Forall (λ x, snd (f x) = None) v)
  ∧ ∀ e, err = Some e → ∃ x, x ∈ v ∧ snd (f x) = Some e.
Proof.
  intros Hhost Hstop Hrun Hm.
  pose proof (TransformSemFacts.sem_inv_run zero numCPU v f opts Hhost
                sched s Hrun) as Hinv.
  unfold ParallelTransformSem.inv in Hinv. rewrite Hm in Hinv.
  destruct Hinv as (_ & [Hout Herr] & _). rewrite Hstop in Hout.
  split; [done|]. split.
  - split.
    + by intros ->.
    + intros Hall. destruct err as [e|]; [|done].
      destruct Herr as (x & Hx & He).
      eapply Forall_forall in Hall; [|done]. congruence.
  - by intros e ->.
Qed.

(** The range-error function on [5, 200, 7]: the clamped value is in the
    output, next to the error. *)
Lemma transform_sem_continue_witness :
  let v := [5; 200; 7]%Z in
  let opts := WithWorkers emptyOptions 2 in
  let sched := ParallelTransformSem.plan 8 v Samples.clampTo100 opts 100
                 (ParallelTransformSem.init 0%Z v) in
  ∃ s, ParallelTransformSem.run 8 v Samples.clampTo100 opts sched
         (ParallelTransformSem.init 0%Z v) = Some s
    ∧ ParallelTransformSem.main s
      = ParallelTransformSem.MRet (Some [5; 100; 7]%Z)
          (Some "value out of range"%string)
    ∧ Some [5; 100; 7]%Z = Some ((λ x, fst (Samples.clampTo100 x)) <$> v)
    ∧ (Some "value out of range"%string = None
       ↔ Forall (λ x, snd (Samples.clampTo100 x) = None) v)
    ∧ ∀ e, Some "value out of range"%string = Some e →
           ∃ x, x ∈ v ∧ snd (Samples.clampTo100 x) = Some e.
Proof.
  intros v opts sched. eexists. split; [vm_compute; reflexivity|].
  split; [reflexivity|].
  eapply (transform_sem_continue 0%Z 8 v Samples.clampTo100 opts sched);
    [lia|reflexivity|vm_compute; reflexivity|reflexivity].
Defined.

(** With the fail-fast policy, that body never returns an output: the
    receive on the closed error channel is ready whether or not an error
    was sent, so the branch that returns [nil] in place of the results is
    also taken when every invocation succeeded, with a nil error.  The
    error is nil exactly when no element fails, and otherwise is one that
    [f] returned on an element. *)
Theorem transform_sem_fail_fast {I O Err : Type} (zero : O) (numCPU : Z)
    (v : list I) (f : I → O * option Err) (opts : Options)
    (sched : list ParallelTransformSem.choice)
    (s : ParallelTransformSem.state) (out : option (list O))
    (err : option Err) :
  (1 ≤ numCPU)%Z →
  stopOnError opts = true →
  ParallelTransformSem.run numCPU v f opts sched
    (ParallelTransformSem.init zero v) = Some s →
  ParallelTransformSem.main s = ParallelTransformSem.MRet out err →
  out = None
  ∧ (err = None ↔ Forall (λ x, snd (f x) = None) v)
  ∧ ∀ e, err = Some e → ∃ x, x ∈ v ∧ snd (f x) = Some e.
Proof.
  intros Hhost Hstop Hrun Hm.
  pose proof (TransformSemFacts.sem_inv_run zero numCPU v f opts Hhost
                sched s Hrun) as Hinv.
  unfold ParallelTransformSem.inv in Hinv. rewrite Hm in Hinv.
  destruct Hinv as (_ & [Hout Herr] & _). rewrite Hstop in Hout.
  split; [done|]. split.
  - split.
    + by intros ->.
    + intros Hall. destruct err as [e|]; [|done].
      destruct Herr as (x & Hx & He).
      eapply Forall_forall in Hall; [|done]. congruence.
  - by intros e ->.
Qed.

(** Doubling [1, 2, 3] with the fail-fast policy: no invocation fails, and
    the call returns neither an output nor an error. *)
Lemma transform_sem_fail_fast_witness :
  let v := [1; 2; 3]%Z in
  let opts := StopOnError (WithWorkers emptyOptions 2) true in
  let sched := ParallelTransformSem.plan 8 v Samples.double opts 100
                 (ParallelTransformSem.init 0%Z v) in
  ∃ s, ParallelTransformSem.run 8 v Samples.double opts sched
         (ParallelTransformSem.init 0%Z v) = Some s
    ∧ ParallelTransformSem.results s = [2; 4; 6]%Z
    ∧ ParallelTransformSem.main s = ParallelTransformSem.MRet None None
    ∧ @None (list Z) = None
    ∧ (@None string = None ↔ Forall (λ x, snd (Samples.double x) = None) v)
    ∧ ∀ e, None = Some e → ∃ x, x ∈ v ∧ snd (Samples.double x) = Some e.
Proof.
  intros v opts sched. eexists. split; [vm_compute; reflexivity|].
  split; [reflexivity|]. split; [reflexivity|].
  eapply (transform_sem_fail_fast 0%Z 8 v Samples.double opts sched);
    [lia|reflexivity|vm_compute; reflexivity|reflexivity].
Defined.

(** That body invokes [f] on every element exactly once, whatever the
    policy and whatever fails: no index is invoked twice, every invoked
    index is one of the input, and at the return the invoked indices are
    all of [0 .. N-1].  A failure stops no other invocation. *)
Theorem transform_sem_every_element {I O Err : Type} (zero : O) (numCPU : Z)
    (v : list I) (f : I → O * option Err) (opts : Options)
    (sched : list ParallelTransformSem.choice)
    (s : ParallelTransformSem.state) :
  (1 ≤ numCPU)%Z →
  ParallelTransformSem.run numCPU v f opts sched
    (ParallelTransformSem.init zero v) = Some s →
  NoDup (ParallelTransformSem.started s)
  ∧ (∀ k, k ∈ ParallelTransformSem.started s → k < length v)
  ∧ (ParallelTransformSem.returned s →
     ParallelTransformSem.started s ≡ₚ seq 0 (length v)).
Proof.
  intros Hhost Hrun.
  pose proof (TransformSemFacts.sem_inv_run zero numCPU v f opts Hhost
                sched s Hrun) as Hinv.
  unfold ParallelTransformSem.inv, ParallelTransformSem.returned in *.
  assert (Hrunning : ParallelTransformSem.running numCPU v f opts s →
    NoDup (ParallelTransformSem.started s)
    ∧ (∀ k, k ∈ ParallelTransformSem.started s → k < length v)).
  { intros [_ _ Hbnd _ _ _ _ Hnd Honce]. split; [done|].
    intros k (g & Hg & _)%Honce. apply lookup_lt_Some in Hg. lia. }
  destruct (ParallelTransformSem.main s) as [n| |out err].
  - destruct (Hrunning Hinv). by repeat split.
  - destruct (Hrunning Hinv). by repeat split.
  - destruct Hinv as (_ & _ & Hperm). split; [|split; [|done]].
    + rewrite Hperm. apply NoDup_seq.
    + intros k. rewrite Hperm, elem_of_seq. lia.
Qed.

(** Fail-fast on [1, 2, 3] with a function failing on 1 and one token: the
    failure comes first, and the other two elements are invoked all the
    same. *)
Lemma transform_sem_every_element_witness :
  let v := [1; 2; 3]%Z in
  let opts := StopOnError (WithWorkers emptyOptions 1) true in
  let sched := ParallelTransformSem.plan 8 v Samples.failOnOne opts 100
                 (ParallelTransformSem.init 0%Z v) in
  ∃ s, ParallelTransformSem.run 8 v Samples.failOnOne opts sched
         (ParallelTransformSem.init 0%Z v) = Some s
    ∧ ParallelTransformSem.main s
      = ParallelTransformSem.MRet None (Some "fail on 1"%string)
    ∧ ParallelTransformSem.started s = [0; 1; 2]
    ∧ NoDup (ParallelTransformSem.started s)
    ∧ (∀ k, k ∈ ParallelTransformSem.started s → k < length v)
    ∧ (ParallelTransformSem.returned s →
       ParallelTransformSem.started s ≡ₚ seq 0 (length v)).
Proof.
  intros v opts sched. eexists. split; [vm_compute; reflexivity|].
  split; [reflexivity|]. split; [reflexivity|].
  apply (transform_sem_every_element 0%Z 8 v Samples.failOnOne opts sched);
    [lia|vm_compute; reflexivity].
Defined.

(** In that body no more than the effective number of workers are inside
    [f] at a time, under every schedule, and an invocation that is in
    progress can always go on: the error channel has room for the error of
    every element, so sending to it never waits. *)
Theorem transform_sem_bounded {I O Err : Type} (zero : O) (numCPU : Z)
    (v : list I) (f : I → O * option Err) (opts : Options)
    (sched : list ParallelTransformSem.choice)
    (s : ParallelTransformSem.state) :
  (1 ≤ numCPU)%Z →
  ParallelTransformSem.run numCPU v f opts sched
    (ParallelTransformSem.init zero v) = Some s →
  ParallelTransformSem.inflight s ≤ effectiveWorkers numCPU opts
  ∧ ∀ j i index,
      ParallelTransformSem.gs s !! j
      = Some (ParallelTransformSem.GCall i index) →
      ∃ s', ParallelTransformSem.step_go numCPU v f opts j s = Some s'.
Proof.
  intros Hhost Hrun.
  pose proof (TransformSemFacts.sem_inv_run zero numCPU v f opts Hhost
                sched s Hrun) as Hinv.
  split.
  - exact (TransformSemFacts.sem_inflight_bound numCPU v f opts s Hinv).
  - intros j i index Hj. unfold ParallelTransformSem.inv in Hinv.
    destruct (ParallelTransformSem.main s) as [n| |out err].
    + by eapply TransformSemFacts.sem_holder_enabled.
    + by eapply TransformSemFacts.sem_holder_enabled.
    + destruct Hinv as [Hall _].
      apply list_elem_of_lookup_2 in Hj.
      eapply Forall_forall in Hall; [|done]. done.
Qed.

(** One token, three elements: with one goroutine inside [f] the other two
    cannot take the token. *)
Lemma transform_sem_bounded_witness :
  let v := [1; 2; 3]%Z in
  let opts := WithWorkers emptyOptions 1 in
  let sched := [ParallelTransformSem.CMain; ParallelTransformSem.CMain;
                ParallelTransformSem.CMain; ParallelTransformSem.CGo 1] in
  ∃ s, ParallelTransformSem.run 8 v Samples.double opts sched
         (ParallelTransformSem.init 0%Z v) = Some s
    ∧ ParallelTransformSem.step_go 8 v Samples.double opts 0 s = None
    ∧ ParallelTransformSem.step_go 8 v Samples.double opts 2 s = None
    ∧ ParallelTransformSem.inflight s = 1
    ∧ ParallelTransformSem.inflight s ≤ effectiveWorkers 8 opts
    ∧ ∀ j i index,
        ParallelTransformSem.gs s !! j
        = Some (ParallelTransformSem.GCall i index) →
        ∃ s', ParallelTransformSem.step_go 8 v Samples.double opts j s
              = Some s'.
Proof.
  intros v opts sched. eexists. split; [vm_compute; reflexivity|].
  split; [reflexivity|]. split; [reflexivity|]. split; [reflexivity|].
  apply (transform_sem_bounded 0%Z 8 v Samples.double opts sched);
    [lia|vm_compute; reflexivity].
Defined.
